(** * SpiritMirror: the quiz scoring engine (lib/quiz-logic)

    A shallow embedding of [SpiritAnimalCalculator], of the utility
    functions of lib/quiz-logic and of the part of the quiz flow that
    records the answers, followed by the properties of the scoring engine
    that the design document states.

    Modelling conventions.
    - A JavaScript value that the engine receives is a term of [JsValue];
      such a number is finite and is given by its exact rational value
      ([JNum]).  A number that the engine computes is a [Number]: a finite
      binary64 value, again given by its exact rational value, or
      [Infinity], [-Infinity] or [NaN].  Every arithmetic operation rounds
      the exact result to the nearest binary64 value, ties to even
      ([round64]).  The two zeros of binary64 are one value here; the
      engine divides by one number only that it did not compute itself
      (the argument [totalQuestions]), so a negative zero could only be
      told apart there.
    - An object is the list of its own enumerable properties in insertion
      order, and [Object.entries] enumerates it in the order of the
      language (index keys first).  The two objects that [calculateResult]
      builds start as [{}] and inherit the properties of
      [Object.prototype]; the model follows what a read or a write of such
      a name does.  The three properties that the engine reads of a
      response ([questionId], [selectedOption], [points]) are not among the
      inherited names.
    - [Array.prototype.sort] is a stable sort; where the comparator is not
      consistent (some [totalPoints] is [NaN]) the language leaves the
      order to the implementation, and the statements below that speak of
      the order exclude that case.
    - [throw] is the [Throw] constructor of [Outcome]; the errors of the
      source are the constructors of [JsError]. *)

From Stdlib Require Import List String Ascii Bool Arith ZArith NArith QArith.
From Stdlib Require Import Qround Qminmax Qpower Lia Lqa Permutation DecimalString.
Import ListNotations.

Local Open Scope string_scope.
Local Open Scope Q_scope.

(* ================================================================== *)
(** ** JavaScript values *)

Module Js.

#[local] Unset Elimination Schemes.
Inductive JsValue : Type :=
| JUndefined
| JNull
| JBool (b : bool)
| JNum (q : Q)
| JStr (s : string)
| JObj (fields : list (string * JsValue))
| JArr (elems : list JsValue).
#[local] Set Elimination Schemes.

(** What the source throws.  The seven [Err*] constructors up to
    [ErrPointValue] are the [Error]s of [validateResponses], in source
    order; [TypeErrorNullish] is the language's [TypeError] for a
    property read on [undefined] or [null]; [ErrNoScores] is the
    [Error] of [getResultWithSecondary]. *)
Inductive JsError : Type :=
| ErrNotArray
| ErrNoResponses
| ErrQuestionId (index : nat)
| ErrSelectedOption (index : nat)
| ErrInvalidOption (index : nat)
| ErrPoints (index : nat)
| ErrPointValue (index : nat) (animal : string)
| TypeErrorNullish
| ErrNoScores.

Inductive Outcome (A : Type) : Type :=
| Return (a : A)
| Throw (e : JsError).
Arguments Return {A} a.
Arguments Throw {A} e.

Definition bind {A B : Type} (m : Outcome A) (k : A -> Outcome B) : Outcome B :=
  match m with
  | Return a => k a
  | Throw e => Throw e
  end.

(** [typeof v] *)
Definition typeOf (v : JsValue) : string :=
  match v with
  | JUndefined => "undefined"
  | JNull => "object"
  | JBool _ => "boolean"
  | JNum _ => "number"
  | JStr _ => "string"
  | JObj _ => "object"
  | JArr _ => "object"
  end.

(** ToBoolean: [!v] is [negb (truthy v)]. *)
Definition truthy (v : JsValue) : bool :=
  match v with
  | JUndefined => false
  | JNull => false
  | JBool b => b
  | JNum q => negb (Qeq_bool q 0)
  | JStr s => negb (s =? "")%string
  | JObj _ => true
  | JArr _ => true
  end.

(** [Array.isArray(v)] *)
Definition isArray (v : JsValue) : bool :=
  match v with
  | JArr _ => true
  | _ => false
  end.

Definition Qltb (a b : Q) : bool := negb (Qle_bool b a).


(** *** Numbers

    A finite number is its exact rational value. *)
Inductive Number : Type :=
| Fin (q : Q)
| PosInfinity
| NegInfinity
| NaN.

Definition twoTo (e : Z) : Q := 2 ^ e.

(** The integer nearest to [x], the even one of two that are equally
    near. *)
Definition roundHalfEven (x : Q) : Z :=
  let f := Qfloor x in
  match Qcompare (x - inject_Z f) (1 # 2) with
  | Lt => f
  | Gt => (f + 1)%Z
  | Eq => if Z.even f then f else (f + 1)%Z
  end.

(** For a positive [q], the integer [k] with [2^k <= q < 2^(k+1)]. *)
Definition floorLog2 (q : Q) : Z :=
  let k := (Z.log2 (Qnum q) - Z.log2 (Zpos (Qden q)))%Z in
  if Qle_bool (twoTo k) q then k else (k - 1)%Z.

(** The exponent of the binary64 values around a positive [q]: they are
    the multiples of [2^e] with a factor of at most 53 bits, and the
    smallest exponent is -1074. *)
Definition exponentOf (q : Q) : Z := Z.max (floorLog2 q - 52) (-1074).

(** The multiple of [2^e] nearest to [q], ties to even. *)
Definition onGrid (e : Z) (q : Q) : Q :=
  inject_Z (roundHalfEven (q * twoTo (- e))) * twoTo e.

(** The binary64 value nearest to a positive [q], before the test for
    overflow, as a reduced fraction. *)
Definition nearestPositive (q : Q) : Q := Qred (onGrid (exponentOf q) q).

(** The binary64 value nearest to [q], ties to even: what an arithmetic
    operation returns for the exact result [q].  A value that would reach
    [2^1024] is an infinity. *)
Definition round64 (q : Q) : Number :=
  match Qcompare q 0 with
  | Eq => Fin 0
  | Gt =>
      let r := nearestPositive q in
      if Qle_bool (twoTo 1024) r then PosInfinity else Fin r
  | Lt =>
      let r := nearestPositive (- q) in
      if Qle_bool (twoTo 1024) r then NegInfinity else Fin (- r)
  end.

(** [a <= b]; [b >= a] is the same test. *)
Definition leb (a b : Number) : bool :=
  match a, b with
  | NaN, _ | _, NaN => false
  | Fin x, Fin y => Qle_bool x y
  | NegInfinity, _ => true
  | _, PosInfinity => true
  | _, _ => false
  end.

(** [a < b]; [b > a] is the same test. *)
Definition ltb (a b : Number) : bool :=
  match a, b with
  | NaN, _ | _, NaN => false
  | Fin x, Fin y => negb (Qle_bool y x)
  | PosInfinity, _ => false
  | _, NegInfinity => false
  | _, _ => true
  end.

(** [-x] *)
Definition neg (x : Number) : Number :=
  match x with
  | Fin q => Fin (- q)
  | PosInfinity => NegInfinity
  | NegInfinity => PosInfinity
  | NaN => NaN
  end.

(** The infinity with the sign of [q]; [NaN] for zero. *)
Definition infinityOfSign (q : Q) : Number :=
  match Qcompare q 0 with
  | Eq => NaN
  | Gt => PosInfinity
  | Lt => NegInfinity
  end.

(** [x + y] on two numbers. *)
Definition add (x y : Number) : Number :=
  match x, y with
  | NaN, _ | _, NaN => NaN
  | Fin a, Fin b => round64 (a + b)
  | PosInfinity, NegInfinity | NegInfinity, PosInfinity => NaN
  | PosInfinity, _ | _, PosInfinity => PosInfinity
  | NegInfinity, _ | _, NegInfinity => NegInfinity
  end.

(** [x - y] *)
Definition sub (x y : Number) : Number := add x (neg y).

(** [x * y] *)
Definition mul (x y : Number) : Number :=
  match x, y with
  | NaN, _ | _, NaN => NaN
  | Fin a, Fin b => round64 (a * b)
  | Fin a, PosInfinity | PosInfinity, Fin a => infinityOfSign a
  | Fin a, NegInfinity | NegInfinity, Fin a => infinityOfSign (- a)
  | PosInfinity, PosInfinity | NegInfinity, NegInfinity => PosInfinity
  | PosInfinity, NegInfinity | NegInfinity, PosInfinity => NegInfinity
  end.

(** [x / y]; a zero divisor is the positive zero. *)
Definition div (x y : Number) : Number :=
  match x, y with
  | NaN, _ | _, NaN => NaN
  | Fin a, Fin b => if Qeq_bool b 0 then infinityOfSign a else round64 (a / b)
  | Fin _, _ => Fin 0
  | PosInfinity, Fin b => if Qle_bool 0 b then PosInfinity else NegInfinity
  | NegInfinity, Fin b => if Qle_bool 0 b then NegInfinity else PosInfinity
  | _, _ => NaN
  end.

(** [Math.round]: the nearest integer, halves towards plus infinity. *)
Definition mathRound (x : Number) : Number :=
  match x with
  | Fin q => Fin (inject_Z (Qfloor (q + (1 # 2))))
  | _ => x
  end.

(** [Math.min] on two numbers. *)
Definition mathMin (a b : Number) : Number :=
  match a, b with
  | NaN, _ | _, NaN => NaN
  | _, _ => if leb a b then a else b
  end.

(** The length of an array as a number. *)
Definition ofNat (n : nat) : Number := Fin (inject_Z (Z.of_nat n)).

(** [!x] for a number: it is zero or [NaN]. *)
Definition zeroOrNaN (x : Number) : bool :=
  match x with
  | Fin q => Qeq_bool q 0
  | NaN => true
  | _ => false
  end.

Fixpoint assocGet {V : Type} (o : list (string * V)) (k : string) : option V :=
  match o with
  | [] => None
  | (k', v) :: o' => if (k' =? k)%string then Some v else assocGet o' k
  end.

(** [o[k] = v]: an existing property keeps its place, a new one goes
    last. *)
Fixpoint assocSet {V : Type} (o : list (string * V)) (k : string) (v : V)
  : list (string * V) :=
  match o with
  | [] => [(k, v)]
  | (k', v') :: o' =>
      if (k' =? k)%string then (k', v) :: o' else (k', v') :: assocSet o' k v
  end.

(** [v.name] for the three property names the engine reads
    ([questionId], [selectedOption], [points]): none of them is a
    property of a primitive wrapper or of an array. *)
Definition getProp (v : JsValue) (name : string) : Outcome JsValue :=
  match v with
  | JUndefined | JNull => Throw TypeErrorNullish
  | JObj fields =>
      match assocGet fields name with
      | Some x => Return x
      | None => Return JUndefined
      end
  | JBool _ | JNum _ | JStr _ | JArr _ => Return JUndefined
  end.

(** *** Property enumeration order

    [Object.entries] lists the array-index keys first, in ascending
    numeric order, then the other string keys in insertion order. *)

Definition digitOf (c : ascii) : option N :=
  let n := N_of_ascii c in
  if ((48 <=? n) && (n <=? 57))%N then Some (n - 48)%N else None.

Fixpoint parseDigits (s : string) (acc : N) : option N :=
  match s with
  | EmptyString => Some acc
  | String c rest =>
      match digitOf c with
      | Some d => parseDigits rest (10 * acc + d)%N
      | None => None
      end
  end.

(** A canonical numeric string below 2^32 - 1. *)
Definition arrayIndexOf (s : string) : option N :=
  match s with
  | EmptyString => None
  | String c rest =>
      if (c =? "0")%char
      then (if (rest =? "")%string then Some 0%N else None)
      else match parseDigits s 0 with
           | Some n => if (n <=? 4294967294)%N then Some n else None
           | None => None
           end
  end.

Definition isIndexKey {V : Type} (kv : string * V) : bool :=
  match arrayIndexOf (fst kv) with
  | Some _ => true
  | None => false
  end.

Definition indexOfKey {V : Type} (kv : string * V) : N :=
  match arrayIndexOf (fst kv) with
  | Some n => n
  | None => 0%N
  end.

Fixpoint insertIndexed {V : Type} (kv : string * V) (l : list (string * V))
  : list (string * V) :=
  match l with
  | [] => [kv]
  | kv' :: l' =>
      if (indexOfKey kv <=? indexOfKey kv')%N
      then kv :: l
      else kv' :: insertIndexed kv l'
  end.

Definition sortIndexed {V : Type} (l : list (string * V)) : list (string * V) :=
  fold_right insertIndexed [] l.

(** [Object.entries(o)] for an object given by its properties. *)
Definition ownEntries {V : Type} (o : list (string * V)) : list (string * V) :=
  sortIndexed (filter isIndexKey o)
    ++ filter (fun kv => negb (isIndexKey kv)) o.

Definition indexString (i : nat) : string :=
  NilZero.string_of_uint (Nat.to_uint i).

Fixpoint arrayEntries (i : nat) (elems : list JsValue) : list (string * JsValue) :=
  match elems with
  | [] => []
  | x :: rest => (indexString i, x) :: arrayEntries (S i) rest
  end.

(** [Object.entries(v)] for a value that passed the [typeof v ===
    'object'] test of the validator; other primitives have no own
    enumerable properties. *)
Definition objectEntries (v : JsValue) : list (string * JsValue) :=
  match v with
  | JObj fields => ownEntries fields
  | JArr elems => arrayEntries 0 elems
  | _ => []
  end.

(** The elements of an array, as [forEach], [filter] and [length] see
    them. *)
Definition elements (v : JsValue) : list JsValue :=
  match v with
  | JArr elems => elems
  | _ => []
  end.

(** ToNumber on a value that is a number. *)
Definition numberOf (v : JsValue) : Q :=
  match v with
  | JNum q => q
  | _ => 0
  end.

(** [l.forEach((x, index) => f(index, x))] with a callback that may
    throw. *)
Fixpoint forEachFrom {A : Type} (f : nat -> A -> Outcome unit)
    (index : nat) (l : list A) : Outcome unit :=
  match l with
  | [] => Return tt
  | x :: rest => bind (f index x) (fun _ => forEachFrom f (S index) rest)
  end.

Definition forEach {A : Type} (f : nat -> A -> Outcome unit) (l : list A)
  : Outcome unit :=
  forEachFrom f 0 l.


(** *** The prototype of a plain object

    An object written [{}] inherits the properties of
    [Object.prototype]: its methods, which are functions, and the
    accessor [__proto__], whose getter returns [Object.prototype] itself
    and whose setter ignores a value that is neither an object nor
    [null]. *)
Definition prototypeMethods : list string :=
  ["constructor"; "__defineGetter__"; "__defineSetter__"; "hasOwnProperty";
   "__lookupGetter__"; "__lookupSetter__"; "isPrototypeOf";
   "propertyIsEnumerable"; "toString"; "valueOf"; "toLocaleString"].

Definition inheritedName (name : string) : bool :=
  (name =? "__proto__")%string || existsb (String.eqb name) prototypeMethods.

End Js.

Import Js.

Notation "x <- m ;; k" := (bind m (fun x => k))
  (at level 61, m at next level, right associativity).
Notation "m ;;; k" := (bind m (fun _ => k))
  (at level 61, right associativity).

(* ================================================================== *)
(** ** lib/types *)

(** The value of [categoryBreakdown[animal] || {}] in a record: the empty
    object, or the property of [Object.prototype] that the name of the
    archetype inherits.  The source never fills a breakdown. *)
Inductive Breakdown : Type :=
| EmptyObject
| InheritedProperty (name : string).

Record SpiritAnimalScore : Type := {
  animalName : string;
  totalPoints : Number;
  categoryBreakdown : Breakdown;
  confidence : Number
}.

(** [CONFIDENCE_LEVELS]: the three labels ['high' | 'medium' | 'low']. *)
Inductive ConfidenceLevel : Type := HIGH | MEDIUM | LOW.

(** The numbers of a configuration are finite; each is given by its
    value. *)
Record ConfidenceThresholds : Type := {
  high : Q;
  medium : Q
}.

Record ScoringConfig : Type := {
  secondaryAnimalThreshold : Q;
  confidenceThresholds : ConfidenceThresholds
}.

(** The field [confidence] of the source's [QuizResult] is
    [confidenceLevel] here: [confidence] already names the factor of a
    [SpiritAnimalScore]. *)
Record QuizResult : Type := {
  primary : SpiritAnimalScore;
  secondary : option SpiritAnimalScore;
  confidenceLevel : ConfidenceLevel;
  totalQuestionsAnswered : Number;
  skippedQuestions : Number
}.

(** Modelled from the spec: the constant [DEFAULT_CONFIG] of lib/types,
    which is not among the sources.  Section 6 of the design document
    gives the defaults: secondary threshold 0.70, high cutoff 1.0, medium
    cutoff 0.6.  The fractions are the binary64 values of the literals
    [0.7] and [0.6]. *)
Definition DEFAULT_CONFIG : ScoringConfig := {|
  secondaryAnimalThreshold := 3152519739159347 # 4503599627370496;
  confidenceThresholds :=
    {| high := 1; medium := 5404319552844595 # 9007199254740992 |}
|}.

(** [Partial<ScoringConfig>], the argument of [updateConfig]: each key of
    [ScoringConfig] is present ([Some]) or absent ([None]). *)
Record PartialScoringConfig : Type := {
  givenSecondaryAnimalThreshold : option Q;
  givenConfidenceThresholds : option ConfidenceThresholds
}.

(* ================================================================== *)
(** ** class SpiritAnimalCalculator

    The instance state is the field [config]; a method takes it as its
    first argument [this]. *)

Module SpiritAnimalCalculator.

Definition validOptions : list string :=
  ["A"; "B"; "C"; "D"; "E"; "F"; "unknown"; "skip"].

(** [l.includes(v)] for a list of strings. *)
Definition includes (l : list string) (v : JsValue) : bool :=
  match v with
  | JStr s => existsb (String.eqb s) l
  | _ => false
  end.

(** The callback of the inner [forEach] of [validateResponses]. *)
Definition validatePoint (index : nat) (entry : string * JsValue) : Outcome unit :=
  let (animal, points) := entry in
  if negb (typeOf points =? "number") || Qltb (numberOf points) 0
  then Throw (ErrPointValue index animal)
  else Return tt.

(** The callback of the outer [forEach] of [validateResponses]. *)
Definition validateResponse (index : nat) (response : JsValue) : Outcome unit :=
  questionId <- getProp response "questionId" ;;
  if negb (truthy questionId) || negb (typeOf questionId =? "string")
  then Throw (ErrQuestionId index)
  else
    selectedOption <- getProp response "selectedOption" ;;
    if negb (truthy selectedOption) || negb (typeOf selectedOption =? "string")
    then Throw (ErrSelectedOption index)
    else if negb (includes validOptions selectedOption)
    then Throw (ErrInvalidOption index)
    else
      points <- getProp response "points" ;;
      if negb (truthy points) || negb (typeOf points =? "object")
      then Throw (ErrPoints index)
      else forEach (fun _ => validatePoint index) (objectEntries points).

Definition validateResponses (responses : JsValue) : Outcome unit :=
  if negb (isArray responses) then Throw ErrNotArray
  else if (List.length (elements responses) =? 0)%nat then Throw ErrNoResponses
  else forEach validateResponse (elements responses).

(** A property of a response that passed [validateResponses]: the read
    cannot throw there. *)
Definition propOf (response : JsValue) (name : string) : JsValue :=
  match getProp response name with
  | Return v => v
  | Throw _ => JUndefined
  end.

(** [v !== s] for a string literal [s]. *)
Definition strictNeq (v : JsValue) (s : string) : bool :=
  match v with
  | JStr t => negb (t =? s)%string
  | _ => true
  end.

(** [r.selectedOption !== 'unknown' && r.selectedOption !== 'skip'] *)
Definition isAnswered (response : JsValue) : bool :=
  strictNeq (propOf response "selectedOption") "unknown"
  && strictNeq (propOf response "selectedOption") "skip".

(** An own property of [animalScores]: a number, or the string that [+=]
    makes of an inherited property and a number.  The string begins with
    the text of a function or with [[object Object]], so that it is not
    empty and converts to [NaN]; its characters are not kept. *)
Inductive Total : Type :=
| TotalNumber (x : Number)
| TotalString.

(** What the read [animalScores[animal]] finds: an own property, a
    property of [Object.prototype], or nothing ([undefined]). *)
Inductive Read : Type :=
| Own (t : Total)
| Inherited
| Undefined.

Definition readTotal (animalScores : list (string * Total)) (animal : string)
  : Read :=
  match assocGet animalScores animal with
  | Some t => Own t
  | None => if inheritedName animal then Inherited else Undefined
  end.

(** [!v] for what was read: a function, an object and a string that is
    not empty are truthy. *)
Definition notTruthy (v : Read) : bool :=
  match v with
  | Own (TotalNumber x) => zeroOrNaN x
  | Own TotalString => false
  | Inherited => false
  | Undefined => true
  end.

(** [animalScores[animal] = t] for a number or a string [t]: the
    assignment to [__proto__] runs the setter of [Object.prototype], which
    ignores such a value and creates no property. *)
Definition writeTotal (animalScores : list (string * Total)) (animal : string)
    (t : Total) : list (string * Total) :=
  if (animal =? "__proto__")%string then animalScores
  else assocSet animalScores animal t.

(** [v + points] for what was read and a number: a function or an
    object is converted to a string, and [undefined] to [NaN]. *)
Definition plusPoints (v : Read) (points : Number) : Total :=
  match v with
  | Own (TotalNumber x) => TotalNumber (add x points)
  | Own TotalString => TotalString
  | Inherited => TotalString
  | Undefined => TotalNumber NaN
  end.

(** The two objects that the loops of [calculateResult] fill:
    [animalScores], and [categoryBreakdown], of which the names of the own
    properties are kept (each holds [{}]). *)
Record Tallies : Type := {
  animalScores : list (string * Total);
  breakdownKeys : list string
}.

(** [categoryBreakdown[animal] = {}]; under the name [__proto__] the
    assignment replaces the prototype by an empty object, which inherits
    the same properties, and creates no property. *)
Definition initBreakdown (keys : list string) (animal : string) : list string :=
  if (animal =? "__proto__")%string then keys
  else if existsb (String.eqb animal) keys then keys
  else (keys ++ [animal])%list.

(** One turn of the inner [forEach] of [calculateResult]. *)
Definition addPoints (tallies : Tallies) (entry : string * JsValue) : Tallies :=
  let (animal, points) := entry in
  let tallies1 :=
    if notTruthy (readTotal (animalScores tallies) animal)
    then {| animalScores :=
              writeTotal (animalScores tallies) animal (TotalNumber (Fin 0));
            breakdownKeys := initBreakdown (breakdownKeys tallies) animal |}
    else tallies in
  {| animalScores :=
       writeTotal (animalScores tallies1) animal
         (plusPoints (readTotal (animalScores tallies1) animal)
                     (Fin (numberOf points)));
     breakdownKeys := breakdownKeys tallies1 |}.

(** One turn of the outer [forEach] of [calculateResult]. *)
Definition addResponse (tallies : Tallies) (response : JsValue) : Tallies :=
  if isAnswered response
  then fold_left addPoints (objectEntries (propOf response "points")) tallies
  else tallies.

(** [Array.prototype.sort] with a comparator: a stable sort, written as
    an insertion sort.  [x] goes before the first [y] that the
    comparator does not put before it; a comparator value of [NaN] counts
    as zero. *)
Fixpoint insertBy {A : Type} (cmp : A -> A -> Number) (x : A) (l : list A)
  : list A :=
  match l with
  | [] => [x]
  | y :: l' => if ltb (Fin 0) (cmp x y) then y :: insertBy cmp x l' else x :: l
  end.

Definition sortBy {A : Type} (cmp : A -> A -> Number) (l : list A) : list A :=
  fold_right (insertBy cmp) [] l.

(** [score * confidenceModifier]: a string that is not a numeral converts
    to [NaN]. *)
Definition timesModifier (score : Total) (confidenceModifier : Number) : Number :=
  match score with
  | TotalNumber x => mul x confidenceModifier
  | TotalString => NaN
  end.

(** [categoryBreakdown[animal] || {}] *)
Definition breakdownOf (keys : list string) (animal : string) : Breakdown :=
  if existsb (String.eqb animal) keys then EmptyObject
  else if inheritedName animal then InheritedProperty animal
  else EmptyObject.

(** The callback of [map] in [calculateResult]. *)
Definition toScore (keys : list string) (confidenceModifier : Number)
    (entry : string * Total) : SpiritAnimalScore :=
  let (animal, score) := entry in
  {| animalName := animal;
     totalPoints := mathRound (timesModifier score confidenceModifier);
     categoryBreakdown := breakdownOf keys animal;
     confidence := confidenceModifier |}.

Definition calculateResult (responses : JsValue) : Outcome (list SpiritAnimalScore) :=
  validateResponses responses ;;;
  let tallies :=
    fold_left addResponse (elements responses)
      {| animalScores := []; breakdownKeys := [] |} in
  let answeredQuestions := List.length (filter isAnswered (elements responses)) in
  let confidenceModifier := mathMin (div (ofNat answeredQuestions) (Fin 10)) (Fin 1) in
  Return (sortBy (fun a b => sub (totalPoints b) (totalPoints a))
            (map (toScore (breakdownKeys tallies) confidenceModifier)
                 (ownEntries (animalScores tallies)))).

Definition calculateConfidence (this : ScoringConfig)
    (primary : SpiritAnimalScore) (secondary : option SpiritAnimalScore)
  : ConfidenceLevel :=
  let hasHighConfidenceAnswers :=
    leb (Fin (high (confidenceThresholds this))) (confidence primary) in
  let hasMediumConfidenceAnswers :=
    leb (Fin (medium (confidenceThresholds this))) (confidence primary) in
  let scoreDifference :=
    match secondary with
    | Some s => sub (totalPoints primary) (totalPoints s)
    | None => totalPoints primary
    end in
  if hasHighConfidenceAnswers && leb (Fin 20) scoreDifference then HIGH
  else if hasMediumConfidenceAnswers && leb (Fin 10) scoreDifference then MEDIUM
  else LOW.

Definition getResultWithSecondary (this : ScoringConfig)
    (scores : list SpiritAnimalScore) : Outcome QuizResult :=
  match scores with
  | [] => Throw ErrNoScores
  | primary :: rest =>
      let secondary := hd_error rest in
      let confidenceLevel := calculateConfidence this primary secondary in
      let shouldShowSecondary :=
        match secondary with
        | Some s =>
            leb (mul (totalPoints primary) (Fin (secondaryAnimalThreshold this)))
                (totalPoints s)
        | None => false
        end in
      Return {| primary := primary;
                secondary := if shouldShowSecondary then secondary else None;
                confidenceLevel := confidenceLevel;
                totalQuestionsAnswered :=
                  mathRound (mul (confidence primary) (Fin 15));
                skippedQuestions :=
                  sub (Fin 15) (mathRound (mul (confidence primary) (Fin 15))) |}
  end.

(** [getConfig()]: a copy of the configuration. *)
Definition getConfig (this : ScoringConfig) : ScoringConfig :=
  {| secondaryAnimalThreshold := secondaryAnimalThreshold this;
     confidenceThresholds := confidenceThresholds this |}.

(** [updateConfig(newConfig)]: the new value of the field [config],
    [{ ...this.config, ...newConfig }].  The spread is shallow: a key
    of [newConfig] replaces the whole value under that key. *)
Definition updateConfig (this : ScoringConfig) (newConfig : PartialScoringConfig)
  : ScoringConfig :=
  {| secondaryAnimalThreshold :=
       match givenSecondaryAnimalThreshold newConfig with
       | Some t => t
       | None => secondaryAnimalThreshold this
       end;
     confidenceThresholds :=
       match givenConfidenceThresholds newConfig with
       | Some c => c
       | None => confidenceThresholds this
       end |}.

End SpiritAnimalCalculator.

Import SpiritAnimalCalculator.

(** [calculateQuizResult(responses, config?)]: a missing [config] is the
    default parameter of the constructor. *)
Definition calculateQuizResult (responses : JsValue) (config : option ScoringConfig)
  : Outcome QuizResult :=
  let calculator :=
    match config with
    | Some c => c
    | None => DEFAULT_CONFIG
    end in
  scores <- calculateResult responses ;;
  getResultWithSecondary calculator scores.

(* ================================================================== *)
(** ** The utility functions of lib/quiz-logic *)

(** [String.prototype.toLowerCase].  A character of a [string] stands
    for one UTF-16 code unit below 256: the capital letters are A to Z and
    U+00C0 to U+00DE without the multiplication sign U+00D7, and each has
    its small letter 32 places further. *)
Definition lowerCodeUnit (c : ascii) : ascii :=
  let n := N_of_ascii c in
  if ((65 <=? n) && (n <=? 90)
      || (192 <=? n) && (n <=? 222) && negb (n =? 215))%N
  then ascii_of_N (n + 32)
  else c.

Fixpoint toLowerCase (s : string) : string :=
  match s with
  | EmptyString => EmptyString
  | String c rest => String (lowerCodeUnit c) (toLowerCase rest)
  end.

(** [getAnimalScore(scores, animalName)]; [undefined] is [None]. *)
Definition getAnimalScore (scores : list SpiritAnimalScore) (name : string)
  : option SpiritAnimalScore :=
  find (fun score => (toLowerCase (animalName score) =? toLowerCase name)%string)
       scores.

(** The callback [r => r.selectedOption !== 'unknown' &&
    r.selectedOption !== 'skip'] on a value that was not validated: the
    property read throws on [undefined] and [null]. *)
Definition answeredCallback (r : JsValue) : Outcome bool :=
  first <- getProp r "selectedOption" ;;
  if strictNeq first "unknown"
  then (second <- getProp r "selectedOption" ;; Return (strictNeq second "skip"))
  else Return false.

(** [l.filter(p)] with a callback that may throw. *)
Fixpoint filterThrowing {A : Type} (p : A -> Outcome bool) (l : list A)
  : Outcome (list A) :=
  match l with
  | [] => Return []
  | x :: rest =>
      keep <- p x ;;
      kept <- filterThrowing p rest ;;
      Return (if keep then x :: kept else kept)
  end.

(** [getCompletionPercentage(responses, totalQuestions = 15)] on an
    array [responses]. *)
Definition getCompletionPercentage (responses : list JsValue)
    (totalQuestions : option Q) : Outcome Number :=
  let total :=
    match totalQuestions with
    | Some t => t
    | None => 15
    end in
  answered <- filterThrowing answeredCallback responses ;;
  let answeredQuestions := List.length answered in
  Return (mathRound (mul (div (ofNat answeredQuestions) (Fin total)) (Fin 100))).

Definition sameLevel (a b : ConfidenceLevel) : bool :=
  match a, b with
  | HIGH, HIGH | MEDIUM, MEDIUM | LOW, LOW => true
  | _, _ => false
  end.

(** [isResultReliable(result)] *)
Definition isResultReliable (result : QuizResult) : bool :=
  sameLevel (confidenceLevel result) MEDIUM
  || sameLevel (confidenceLevel result) HIGH.

(** The completion rate that [ResultDisplay] prints:
    [Math.round((result.totalQuestionsAnswered /
    (result.totalQuestionsAnswered + result.skippedQuestions)) * 100)]. *)
Definition completionRate (result : QuizResult) : Number :=
  mathRound
    (mul (div (totalQuestionsAnswered result)
              (add (totalQuestionsAnswered result) (skippedQuestions result)))
         (Fin 100)).

(* ================================================================== *)
(** ** components/quiz/QuizFlow: recording the answers

    The part of the component that builds the response list.  A handler
    is a function of the state and props that its closure reads; its
    value is the pair of arguments that it passes on to
    [moveToNextQuestion], the first of which it also stores with
    [setResponses], or [None] when it returns early.  [Date.now()] is the
    argument [now]. *)

Module QuizFlow.

(** The fields of an answer option that the component reads: [id] and
    [points]. *)
Record AnswerOption : Type := {
  optionId : string;
  optionPoints : JsValue
}.

(** The fields of a question that the component reads: [id] and
    [options]. *)
Record Question : Type := {
  questionKey : string;
  options : list AnswerOption
}.

Record QuestionResponse : Type := {
  questionId : string;
  selectedOption : string;
  points : JsValue;
  timestamp : Q
}.

(** The response as the object that [calculateQuizResult] receives. *)
Definition responseValue (r : QuestionResponse) : JsValue :=
  JObj [ ("questionId", JStr (questionId r));
         ("selectedOption", JStr (selectedOption r));
         ("points", points r);
         ("timestamp", JNum (timestamp r)) ].

(** [l.findIndex(p)]; [-1] is [None]. *)
Fixpoint findIndex {A : Type} (p : A -> bool) (l : list A) : option nat :=
  match l with
  | [] => None
  | x :: rest =>
      if p x then Some 0%nat
      else match findIndex p rest with
           | Some i => Some (S i)
           | None => None
           end
  end.

(** [copy = [...l]; copy[i] = x] for an index of [l]. *)
Fixpoint replaceAt {A : Type} (i : nat) (x : A) (l : list A) : list A :=
  match l, i with
  | [], _ => []
  | _ :: rest, O => x :: rest
  | y :: rest, S j => y :: replaceAt j x rest
  end.

(** The block "update or add response to the responses array", which
    both handlers contain: [newResponses] and [isNewQuestion]. *)
Definition storeResponse (currentQuestionIndex highestAnsweredQuestion : nat)
    (responses : list QuestionResponse) (response : QuestionResponse)
  : list QuestionResponse * bool :=
  match findIndex (fun r => (questionId r =? questionId response)%string)
          responses with
  | Some existingResponseIndex =>
      (replaceAt existingResponseIndex response responses, false)
  | None =>
      ((responses ++ [response])%list,
       (highestAnsweredQuestion <=? currentQuestionIndex)%nat)
  end.

Definition handleAnswerSelect (isTransitioning : bool)
    (currentQuestion : Question)
    (currentQuestionIndex highestAnsweredQuestion : nat)
    (responses : list QuestionResponse) (now : Q) (chosen : string)
  : option (list QuestionResponse * bool) :=
  if isTransitioning then None
  else match find (fun opt => (optionId opt =? chosen)%string)
               (options currentQuestion) with
       | None => None
       | Some selected =>
           Some (storeResponse currentQuestionIndex highestAnsweredQuestion
                   responses
                   {| questionId := questionKey currentQuestion;
                      selectedOption := chosen;
                      points := optionPoints selected;
                      timestamp := now |})
       end.

Definition handleQuestionSkip (isTransitioning : bool)
    (currentQuestion : Question)
    (currentQuestionIndex highestAnsweredQuestion : nat)
    (responses : list QuestionResponse) (now : Q)
  : option (list QuestionResponse * bool) :=
  if isTransitioning then None
  else Some (storeResponse currentQuestionIndex highestAnsweredQuestion
               responses
               {| questionId := questionKey currentQuestion;
                  selectedOption := "skip";
                  points := JObj [];
                  timestamp := now |}).

(** [responses.filter(r => r.selectedOption === 'skip').length] *)
Definition skippedQuestions (responses : list QuestionResponse) : nat :=
  List.length (filter (fun r => (selectedOption r =? "skip")%string) responses).

End QuizFlow.
(* ================================================================== *)
(** ** Vocabulary of the design document

    The notions in which the design document states its properties,
    defined on their own and related to the code by the lemmas below. *)

(** *** Response validator: the rejection set *)

Definition nonEmptyString (v : JsValue) : Prop :=
  exists s, v = JStr s /\ s <> "".

Definition allowedMarkers : list string :=
  ["A"; "B"; "C"; "D"; "E"; "F"; "skip"; "unknown"].

Definition allowedMarker (v : JsValue) : Prop :=
  exists s, v = JStr s /\ In s allowedMarkers.

(** A mapping is a non-null value of type ['object']. *)
Definition isMapping (v : JsValue) : Prop :=
  (exists fields, v = JObj fields) \/ (exists elems, v = JArr elems).

Definition negativeOrNonNumeric (v : JsValue) : Prop :=
  (forall q, v <> JNum q) \/ (exists q, v = JNum q /\ q < 0).

(** An entry lacks a non-empty string question identifier, or a non-empty
    string selection marker, or its marker is not an allowed value, or its
    points mapping is missing or is not a mapping, or one of its point
    values is negative or not a number. *)
Definition malformedEntry (entry : JsValue) : Prop :=
  ~ nonEmptyString (propOf entry "questionId")
  \/ ~ nonEmptyString (propOf entry "selectedOption")
  \/ ~ allowedMarker (propOf entry "selectedOption")
  \/ ~ isMapping (propOf entry "points")
  \/ exists animal value,
       In (animal, value) (objectEntries (propOf entry "points"))
       /\ negativeOrNonNumeric value.

(** The input is not a list, or the list is empty, or some entry is
    malformed. *)
Definition rejected (input : JsValue) : Prop :=
  (forall elems, input <> JArr elems)
  \/ input = JArr []
  \/ exists entry, In entry (elements input) /\ malformedEntry entry.

(** The same tests as boolean functions. *)

Definition nonEmptyStringb (v : JsValue) : bool :=
  match v with
  | JStr s => negb (s =? "")%string
  | _ => false
  end.

Definition allowedMarkerb (v : JsValue) : bool :=
  match v with
  | JStr s => existsb (String.eqb s) allowedMarkers
  | _ => false
  end.

Definition isMappingb (v : JsValue) : bool :=
  match v with
  | JObj _ | JArr _ => true
  | _ => false
  end.

Definition pointValueOkb (v : JsValue) : bool :=
  match v with
  | JNum q => Qle_bool 0 q
  | _ => false
  end.

Definition wellFormedEntryb (entry : JsValue) : bool :=
  nonEmptyStringb (propOf entry "questionId")
  && nonEmptyStringb (propOf entry "selectedOption")
  && allowedMarkerb (propOf entry "selectedOption")
  && isMappingb (propOf entry "points")
  && forallb (fun kv => pointValueOkb (snd kv))
       (objectEntries (propOf entry "points")).

(** *** Score aggregator: answered responses, damping factor, raw totals *)

(** The selection marker of a response. *)
Definition selectionMarker (response : JsValue) : JsValue :=
  propOf response "selectedOption".

Definition skipOrUnknown (response : JsValue) : Prop :=
  selectionMarker response = JStr "skip"
  \/ selectionMarker response = JStr "unknown".

Definition skipOrUnknownb (response : JsValue) : bool :=
  match selectionMarker response with
  | JStr s => (s =? "skip")%string || (s =? "unknown")%string
  | _ => false
  end.

(** The number of responses whose marker is neither "skip" nor
    "unknown". *)
Definition answeredCount (responses : list JsValue) : nat :=
  List.length (filter (fun r => negb (skipOrUnknownb r)) responses).

(** min(answered / 10, 1.0), in the arithmetic of the language. *)
Definition factorOf (answered : nat) : Number :=
  mathMin (div (ofNat answered) (Fin 10)) (Fin 1).

(** The completion damping factor of a response list. *)
Definition dampingFactor (responses : list JsValue) : Number :=
  factorOf (answeredCount responses).

(** The points mapping of a response. *)
Definition pointsMapping (response : JsValue) : list (string * JsValue) :=
  objectEntries (propOf response "points").

(** [total] and the points that a list of (archetype, points) pairs gives
    to [animal], added in the order of the list. *)
Definition plusPointsIn (animal : string) (total : Number)
    (entries : list (string * JsValue)) : Number :=
  fold_left
    (fun acc kv =>
       if (fst kv =? animal)%string then add acc (Fin (numberOf (snd kv)))
       else acc)
    entries total.

(** [total] and the points that the responses that are not skip or
    unknown give to [animal], added in the order of the responses. *)
Definition plusPointsOf (animal : string) (total : Number)
    (responses : list JsValue) : Number :=
  fold_left
    (fun acc r =>
       if skipOrUnknownb r then acc else plusPointsIn animal acc (pointsMapping r))
    responses total.

(** The sum of [animal]'s point values over all responses that are not
    skip or unknown, in the arithmetic of the language: each addition
    rounds, so the sum is taken in the order of the responses. *)
Definition rawTotal (animal : string) (responses : list JsValue) : Number :=
  plusPointsOf animal (Fin 0) responses.

(** The archetype is named by the points mapping of a response that is
    not skip or unknown. *)
Definition mentioned (animal : string) (responses : list JsValue) : Prop :=
  exists r, In r responses /\ skipOrUnknownb r = false
            /\ In animal (map fst (pointsMapping r)).



(** *** The same quantities in exact arithmetic *)

(** min(answeredCount / 10, 1.0) as a rational number. *)
Definition exactDampingFactor (responses : list JsValue) : Q :=
  Qmin (inject_Z (Z.of_nat (answeredCount responses)) / 10) 1.



(** round(x) for a rational number. *)
Definition exactRound (x : Q) : Z := Qfloor (x + (1 # 2)).

(** *** Result ranker, confidence classifier and assembler *)

(** The order of the numbers; [NaN] is below and above nothing. *)
Definition Nle (a b : Number) : Prop := leb a b = true.
Definition Nlt (a b : Number) : Prop := ltb a b = true.


(** The primary's total minus the secondary's, or the primary's own total
    when there is no secondary. *)
Definition scoreDifference (p : SpiritAnimalScore)
    (candidate : option SpiritAnimalScore) : Number :=
  match candidate with
  | Some s => sub (totalPoints p) (totalPoints s)
  | None => totalPoints p
  end.

(** *** Names for parts of the code *)

(** The two objects after the accumulation loop of [calculateResult]. *)
Definition aggregated (responses : list JsValue) : Tallies :=
  fold_left addResponse responses {| animalScores := []; breakdownKeys := [] |}.

(** The comparator that [calculateResult] passes to [sort]. *)
Definition byTotalPoints (a b : SpiritAnimalScore) : Number :=
  sub (totalPoints b) (totalPoints a).

(** The configuration of the calculator built by [calculateQuizResult]. *)
Definition configOf (config : option ScoringConfig) : ScoringConfig :=
  match config with
  | Some c => c
  | None => DEFAULT_CONFIG
  end.

(** An integer as a number. *)
Definition whole (n : Z) : Number := Fin (inject_Z n).

(** *** Statements of the design document that the code does not
    satisfy as they stand *)





(* ================================================================== *)
(** ** Sample inputs *)

(** A response as the quiz page builds it. *)
Definition mkResponse (questionId selectedOption : string)
    (points : list (string * Q)) : JsValue :=
  JObj [ ("questionId", JStr questionId);
         ("selectedOption", JStr selectedOption);
         ("points", JObj (map (fun kv => (fst kv, JNum (snd kv))) points));
         ("timestamp", JNum 0) ].

(** First end-to-end scenario of the design document: ten responses that
    award wolf 10, five skipped. *)
Definition scenario1 : JsValue :=
  JArr (repeat (mkResponse "q" "B" [("wolf", 10)]) 10
        ++ repeat (mkResponse "q" "skip" []) 5).

(** Second scenario: five responses that award fox 4 and wolf 3, ten
    skipped. *)
Definition scenario2 : JsValue :=
  JArr (repeat (mkResponse "q" "A" [("fox", 4); ("wolf", 3)]) 5
        ++ repeat (mkResponse "q" "skip" []) 10).








(** A configuration whose secondary threshold is the binary64 value of
    the literal [0.01]. *)
Definition onePercent : ScoringConfig := {|
  secondaryAnimalThreshold := 5764607523034235 # 576460752303423488;
  confidenceThresholds := confidenceThresholds DEFAULT_CONFIG
|}.

(** One answered response whose points mapping has the one key
    [__proto__], as [JSON.parse] builds it. *)
Definition protoKey : JsValue :=
  JArr [mkResponse "q1" "A" [("__proto__", 5)]].

(** One answered response that awards 5 points under the name
    [constructor] and 30 to wolf. *)
Definition constructorKey : JsValue :=
  JArr [mkResponse "q1" "A" [("constructor", 5); ("wolf", 30)]].

(** Two answered responses that each award wolf and fox 2^1023 points,
    the largest power of two of the format: both sums overflow. *)
Definition overflowing : JsValue :=
  JArr (repeat (mkResponse "q" "A" [("wolf", inject_Z (2 ^ 1023));
                                    ("fox", inject_Z (2 ^ 1023))]) 2).

(** A configuration whose secondary threshold is 0. *)
Definition zeroThreshold : ScoringConfig := {|
  secondaryAnimalThreshold := 0;
  confidenceThresholds := confidenceThresholds DEFAULT_CONFIG
|}.

(* ================================================================== *)
(** ** Vocabulary of the further properties

    Notions used to state what the code does beyond the design
    document: error reports, the utility functions, and the responses
    that the quiz flow records. *)

(** The index that the message of an error of [validateResponses]
    carries. *)
Definition errorIndex (e : JsError) : option nat :=
  match e with
  | ErrQuestionId i | ErrSelectedOption i | ErrInvalidOption i
  | ErrPoints i | ErrPointValue i _ => Some i
  | ErrNotArray | ErrNoResponses | TypeErrorNullish | ErrNoScores => None
  end.

(** What an error thrown for the entry at [index] says about it: the
    checks run in source order, and the error names the first that
    fails. *)
Definition diagnoses (e : JsError) (index : nat) (entry : JsValue) : Prop :=
  (e = TypeErrorNullish /\ (entry = JUndefined \/ entry = JNull))
  \/ (e = ErrQuestionId index
      /\ entry <> JUndefined /\ entry <> JNull
      /\ ~ nonEmptyString (propOf entry "questionId"))
  \/ (e = ErrSelectedOption index
      /\ nonEmptyString (propOf entry "questionId")
      /\ ~ nonEmptyString (propOf entry "selectedOption"))
  \/ (e = ErrInvalidOption index
      /\ nonEmptyString (propOf entry "questionId")
      /\ nonEmptyString (propOf entry "selectedOption")
      /\ ~ allowedMarker (propOf entry "selectedOption"))
  \/ (e = ErrPoints index
      /\ nonEmptyString (propOf entry "questionId")
      /\ allowedMarker (propOf entry "selectedOption")
      /\ ~ isMapping (propOf entry "points"))
  \/ (exists animal value,
        e = ErrPointValue index animal
        /\ nonEmptyString (propOf entry "questionId")
        /\ allowedMarker (propOf entry "selectedOption")
        /\ isMapping (propOf entry "points")
        /\ In (animal, value) (objectEntries (propOf entry "points"))
        /\ negativeOrNonNumeric value).

(** A response that is not skip or unknown and whose points mapping has
    a key other than [__proto__]. *)
Definition contributes (r : JsValue) : Prop :=
  ~ skipOrUnknown r
  /\ exists animal, In animal (map fst (pointsMapping r)) /\ animal <> "__proto__".

(** A response that is not skip or unknown and whose points mapping is
    not empty. *)
Definition hasPoints (r : JsValue) : Prop :=
  ~ skipOrUnknown r /\ pointsMapping r <> [].

(** The update that gives every key that [a] or [b] gives, with [b]'s
    value where both do. *)
Definition thenGiven (a b : PartialScoringConfig) : PartialScoringConfig :=
  {| givenSecondaryAnimalThreshold :=
       match givenSecondaryAnimalThreshold b with
       | Some t => Some t
       | None => givenSecondaryAnimalThreshold a
       end;
     givenConfidenceThresholds :=
       match givenConfidenceThresholds b with
       | Some c => Some c
       | None => givenConfidenceThresholds a
       end |}.

(** [name] and the name of [score] agree up to case. *)
Definition sameNameIgnoringCase (name : string) (score : SpiritAnimalScore) : Prop :=
  toLowerCase (animalName score) = toLowerCase name.

Definition nullish (v : JsValue) : Prop := v = JUndefined \/ v = JNull.

(** [totalQuestions], or its default. *)
Definition totalOr15 (totalQuestions : option Q) : Q :=
  match totalQuestions with
  | Some t => t
  | None => 15
  end.

(** What the user does with the question on screen. *)
Inductive FlowEvent : Type :=
| Answers (currentQuestion : QuizFlow.Question)
    (currentQuestionIndex highestAnsweredQuestion : nat) (now : Q)
    (chosen : string)
| Skips (currentQuestion : QuizFlow.Question)
    (currentQuestionIndex highestAnsweredQuestion : nat) (now : Q).

Definition questionOf (ev : FlowEvent) : QuizFlow.Question :=
  match ev with
  | Answers q _ _ _ _ => q
  | Skips q _ _ _ => q
  end.

(** The handler that the event runs, outside a transition. *)
Definition handle (responses : list QuizFlow.QuestionResponse) (ev : FlowEvent)
  : option (list QuizFlow.QuestionResponse * bool) :=
  match ev with
  | Answers q index highest now chosen =>
      QuizFlow.handleAnswerSelect false q index highest responses now chosen
  | Skips q index highest now =>
      QuizFlow.handleQuestionSkip false q index highest responses now
  end.

(** The state [responses] after the event: the handler's [setResponses],
    or no change when it returns early. *)
Definition record (responses : list QuizFlow.QuestionResponse) (ev : FlowEvent)
  : list QuizFlow.QuestionResponse :=
  match handle responses ev with
  | Some (newResponses, _) => newResponses
  | None => responses
  end.

(** The state [responses] after a sequence of events, from the initial
    state. *)
Definition recorded (events : list FlowEvent) : list QuizFlow.QuestionResponse :=
  fold_left record events [].

(** The question data that the engine can score: a question has a
    non-empty identifier, and each option has an allowed marker as
    identifier and a mapping to non-negative numbers as points. *)
Definition wellFormedOption (opt : QuizFlow.AnswerOption) : Prop :=
  allowedMarker (JStr (QuizFlow.optionId opt))
  /\ isMapping (QuizFlow.optionPoints opt)
  /\ forall animal value,
       In (animal, value) (objectEntries (QuizFlow.optionPoints opt)) ->
       ~ negativeOrNonNumeric value.

Definition wellFormedQuestion (q : QuizFlow.Question) : Prop :=
  QuizFlow.questionKey q <> ""
  /\ forall opt, In opt (QuizFlow.options q) -> wellFormedOption opt.

(** The response for question [key] in the list. *)
Definition responseFor (key : string) (responses : list QuizFlow.QuestionResponse)
  : option QuizFlow.QuestionResponse :=
  find (fun r => (QuizFlow.questionId r =? key)%string) responses.



(** One turn of the inner loop of [calculateResult] on [animalScores]
    alone. *)
Definition addScore (scores : list (string * Total)) (entry : string * JsValue)
  : list (string * Total) :=
  let (animal, points) := entry in
  let scores1 :=
    if notTruthy (readTotal scores animal)
    then writeTotal scores animal (TotalNumber (Fin 0))
    else scores in
  writeTotal scores1 animal
    (plusPoints (readTotal scores1 animal) (Fin (numberOf points))).

(** The number under [animal] in [animalScores], zero when there is
    none. *)
Definition totalOf (scores : list (string * Total)) (animal : string) : Number :=
  match assocGet scores animal with
  | Some (TotalNumber x) => x
  | _ => Fin 0
  end.

(** A number that [Math.round] returns for a product that is not
    negative: a whole number or [Infinity]. *)
Definition roundedTotal (x : Number) : Prop :=
  x = PosInfinity \/ exists n, (0 <= n)%Z /\ x = whole n.

(** The invariant of [animalScores]: an inherited name holds a string,
    any other name a number that is not negative. *)
Definition wellScored (scores : list (string * Total)) : Prop :=
  forall k t, assocGet scores k = Some t ->
    if inheritedName k then t = TotalString
    else exists x, t = TotalNumber x /\ Nle (Fin 0) x.

(** The points mapping of every response holds numbers that are not
    negative, as after validation. *)
Definition pointsOk (rs : list JsValue) : Prop :=
  forall r, In r rs ->
    forallb (fun kv => pointValueOkb (snd kv)) (pointsMapping r) = true.

(** The invariant of [categoryBreakdown]: no own property has an
    inherited name. *)
Definition ordinaryKeys (keys : list string) : Prop :=
  forall k, In k keys -> inheritedName k = false.

(** The two counts and the completion rate that an assembled result
    shows when the factor of its primary is the factor of [answered]
    responses. *)
Definition answeredShown (answered : nat) : Number :=
  mathRound (mul (factorOf answered) (Fin 15)).

Definition skippedShown (answered : nat) : Number :=
  sub (Fin 15) (answeredShown answered).

Definition rateShown (answered : nat) : Number :=
  mathRound
    (mul (div (answeredShown answered)
              (add (answeredShown answered) (skippedShown answered)))
         (Fin 100)).

(** The same in exact arithmetic. *)
Definition exactFactorOf (answered : nat) : Q :=
  Qmin (inject_Z (Z.of_nat answered) / 10) 1.

Definition exactAnswered (answered : nat) : Z :=
  exactRound (exactFactorOf answered * 15).

Definition exactRate (answered : nat) : Z :=
  exactRound (inject_Z (exactAnswered answered) / 15 * 100).



(* ================================================================== *)
(** ** Objects as property lists *)

Section PropertyLists.

Variable V : Type.
Implicit Types (o : list (string * V)) (k : string) (v : V).

Lemma assocGet_assocSet_same o k v : assocGet (assocSet o k v) k = Some v.
Proof.
  induction o as [|[k' v'] o IH]; simpl.
  - now rewrite String.eqb_refl.
  - destruct (k' =? k)%string eqn:E; simpl; rewrite E; auto.
Qed.

Lemma assocGet_assocSet_other o k k' v :
  k <> k' -> assocGet (assocSet o k v) k' = assocGet o k'.
Proof.
  intros Hne. induction o as [|[k0 v0] o IH]; simpl.
  - destruct (k =? k')%string eqn:E; auto.
    apply String.eqb_eq in E. contradiction.
  - destruct (k0 =? k)%string eqn:E; simpl.
    + apply String.eqb_eq in E. subst k0.
      destruct (k =? k')%string eqn:E'; auto.
      apply String.eqb_eq in E'. contradiction.
    + now rewrite IH.
Qed.

Lemma keys_assocSet o k v k' :
  In k' (map fst (assocSet o k v)) <-> k' = k \/ In k' (map fst o).
Proof.
  induction o as [|[k0 v0] o IH]; simpl.
  - intuition.
  - destruct (k0 =? k)%string eqn:E; simpl.
    + apply String.eqb_eq in E. subst k0. intuition.
    + rewrite IH. intuition.
Qed.

Lemma NoDup_keys_assocSet o k v :
  NoDup (map fst o) -> NoDup (map fst (assocSet o k v)).
Proof.
  induction o as [|[k0 v0] o IH]; simpl; intros Hnd.
  - constructor; [intros [] | constructor].
  - inversion Hnd as [|? ? Hnotin Hnd']; subst.
    destruct (k0 =? k)%string eqn:E; simpl.
    + now constructor.
    + constructor; [|now apply IH].
      rewrite keys_assocSet. intros [->|Hin]; [|contradiction].
      now rewrite String.eqb_refl in E.
Qed.

Lemma assocGet_In o k v : assocGet o k = Some v -> In (k, v) o.
Proof.
  induction o as [|[k0 v0] o IH]; simpl; [discriminate|].
  destruct (k0 =? k)%string eqn:E.
  - apply String.eqb_eq in E. intros [= ->]. subst. now left.
  - intros H. right. now apply IH.
Qed.

Lemma In_assocGet o k v :
  NoDup (map fst o) -> In (k, v) o -> assocGet o k = Some v.
Proof.
  induction o as [|[k0 v0] o IH]; simpl; [intros _ []|].
  intros Hnd Hin. inversion Hnd as [|? ? Hnotin Hnd']; subst.
  destruct Hin as [[= -> ->]|Hin].
  - now rewrite String.eqb_refl.
  - destruct (k0 =? k)%string eqn:E; [|now apply IH].
    apply String.eqb_eq in E. subst k0. exfalso. apply Hnotin.
    now apply (in_map fst) in Hin.
Qed.

Lemma assocGet_None_keys o k : assocGet o k = None <-> ~ In k (map fst o).
Proof.
  induction o as [|[k0 v0] o IH]; simpl; [intuition|].
  destruct (k0 =? k)%string eqn:E.
  - apply String.eqb_eq in E. subst. intuition discriminate.
  - apply String.eqb_neq in E. rewrite IH. intuition.
Qed.

Lemma insertIndexed_perm (kv : string * V) l :
  Permutation (insertIndexed kv l) (kv :: l).
Proof.
  induction l as [|kv' l IH]; simpl; [reflexivity|].
  destruct (indexOfKey kv <=? indexOfKey kv')%N; [reflexivity|].
  rewrite IH. apply perm_swap.
Qed.

Lemma sortIndexed_perm (l : list (string * V)) : Permutation (sortIndexed l) l.
Proof.
  induction l as [|kv l IH]; simpl; [reflexivity|].
  rewrite insertIndexed_perm. now constructor.
Qed.

Lemma filter_split_perm (f : string * V -> bool) (l : list (string * V)) :
  Permutation (filter f l ++ filter (fun x => negb (f x)) l) l.
Proof.
  induction l as [|x l IH]; simpl; [reflexivity|].
  destruct (f x); simpl.
  - now constructor.
  - symmetry. apply Permutation_cons_app. now symmetry.
Qed.

(** [Object.entries] lists every own property exactly once. *)
Lemma ownEntries_perm o : Permutation (ownEntries o) o.
Proof.
  unfold ownEntries. rewrite sortIndexed_perm. apply filter_split_perm.
Qed.

Lemma ownEntries_In o x : In x (ownEntries o) <-> In x o.
Proof.
  split; apply Permutation_in; [|symmetry]; apply ownEntries_perm.
Qed.

Lemma ownEntries_nil o : ownEntries o = [] <-> o = [].
Proof.
  split; intros H.
  - apply Permutation_nil. rewrite <- H. apply ownEntries_perm.
  - now subst.
Qed.

End PropertyLists.

(* ================================================================== *)
(** ** Binary64 arithmetic *)

(** *** Powers of two *)

Lemma twoTo_pos e : 0 < twoTo e.
Proof.
  apply Qpower_0_lt. reflexivity.
Qed.

Lemma twoTo_add a b : twoTo (a + b) == twoTo a * twoTo b.
Proof.
  apply Qpower_plus. discriminate.
Qed.

Lemma twoTo_le a b : (a <= b)%Z -> twoTo a <= twoTo b.
Proof.
  intros H. apply Qpower_le_compat_l; [exact H | discriminate].
Qed.

Lemma twoTo_lt a b : (a < b)%Z -> twoTo a < twoTo b.
Proof.
  intros H. apply Qpower_lt_compat_l; [exact H | reflexivity].
Qed.

Lemma twoTo_le_inv a b : twoTo a <= twoTo b -> (a <= b)%Z.
Proof.
  intros H. destruct (Z_le_gt_dec a b) as [|Hgt]; [assumption|].
  exfalso. apply (Qlt_not_le (twoTo b) (twoTo a)); [|exact H].
  apply twoTo_lt. lia.
Qed.

Lemma twoTo_Z e : (0 <= e)%Z -> twoTo e == inject_Z (2 ^ e).
Proof.
  intros H. unfold twoTo. now rewrite (Zpower_Qpower 2 e H).
Qed.

Lemma twoTo_cancel e : twoTo (- e) * twoTo e == 1.
Proof.
  rewrite <- twoTo_add. now replace (- e + e)%Z with 0%Z by lia.
Qed.

(** *** Rounding to the nearest integer, ties to even *)

Lemma roundHalfEven_cases x :
  let f := Qfloor x in
  (roundHalfEven x = f /\ x - inject_Z f <= 1 # 2)
  \/ (roundHalfEven x = (f + 1)%Z /\ 1 # 2 <= x - inject_Z f).
Proof.
  unfold roundHalfEven. cbv zeta.
  destruct (Qcompare_spec (x - inject_Z (Qfloor x)) (1 # 2)) as [E|E|E].
  - destruct (Z.even (Qfloor x)); [left|right]; split; auto; rewrite E; apply Qle_refl.
  - left. split; auto. now apply Qlt_le_weak.
  - right. split; auto. now apply Qlt_le_weak.
Qed.

Lemma roundHalfEven_comp x y : x == y -> roundHalfEven x = roundHalfEven y.
Proof.
  intros E. unfold roundHalfEven.
  assert (F : Qfloor x = Qfloor y).
  { apply Z.le_antisymm; apply Qfloor_resp_le; rewrite E; apply Qle_refl. }
  rewrite F. now rewrite E.
Qed.

Lemma roundHalfEven_Z n : roundHalfEven (inject_Z n) = n.
Proof.
  unfold roundHalfEven. rewrite Qfloor_Z.
  destruct (Qcompare_spec (inject_Z n - inject_Z n) (1 # 2)) as [E|E|E]; auto.
  - exfalso. lra.
  - exfalso. lra.
Qed.

Lemma floor_frac_bounds x : 0 <= x - inject_Z (Qfloor x) /\ x - inject_Z (Qfloor x) < 1.
Proof.
  pose proof (Qfloor_le x). pose proof (Qlt_floor x).
  rewrite inject_Z_plus in H0. change (inject_Z 1) with 1 in H0. split; lra.
Qed.

Lemma roundHalfEven_le x y : x <= y -> (roundHalfEven x <= roundHalfEven y)%Z.
Proof.
  intros Hxy.
  pose proof (Qfloor_resp_le _ _ Hxy) as Hf.
  destruct (Z.eq_dec (Qfloor x) (Qfloor y)) as [E|NE].
  - unfold roundHalfEven. rewrite <- E.
    destruct (Qcompare_spec (x - inject_Z (Qfloor x)) (1 # 2)) as [Ex|Ex|Ex];
    destruct (Qcompare_spec (y - inject_Z (Qfloor x)) (1 # 2)) as [Ey|Ey|Ey];
      try lia; try (destruct (Z.even (Qfloor x)); lia); exfalso; lra.
  - destruct (roundHalfEven_cases x) as [[-> _]|[-> _]];
    destruct (roundHalfEven_cases y) as [[-> _]|[-> _]]; lia.
Qed.

Lemma roundHalfEven_nonneg x : 0 <= x -> (0 <= roundHalfEven x)%Z.
Proof.
  intros H. rewrite <- (roundHalfEven_Z 0). now apply roundHalfEven_le.
Qed.

(** *** The binade of a positive rational *)

Lemma scaled_lt (n : Z) (d : positive) (p : Z) (e : Z) :
  (0 <= e)%Z -> (n * 2 ^ e < p * Zpos d)%Z -> (n # d) * twoTo e < inject_Z p.
Proof.
  intros He H. rewrite (twoTo_Z e He).
  unfold Qlt, Qmult, inject_Z. cbn [Qnum Qden]. lia.
Qed.

Lemma scaled_le (n : Z) (d : positive) (p : Z) (e : Z) :
  (0 <= e)%Z -> (p * Zpos d <= n * 2 ^ e)%Z -> inject_Z p <= (n # d) * twoTo e.
Proof.
  intros He H. rewrite (twoTo_Z e He).
  unfold Qle, Qmult, inject_Z. cbn [Qnum Qden]. lia.
Qed.

Lemma floorLog2_bounds n d :
  (0 < n)%Z ->
  let k := (Z.log2 n - Z.log2 (Zpos d))%Z in
  twoTo (k - 1) <= n # d /\ n # d < twoTo (k + 1).
Proof.
  intros Hn k. subst k.
  set (a := Z.log2 n). set (b := Z.log2 (Zpos d)).
  destruct (Z.log2_spec n Hn) as [Ha1 Ha2].
  destruct (Z.log2_spec (Zpos d)) as [Hb1 Hb2]; [lia|].
  fold a in Ha1, Ha2. fold b in Hb1, Hb2.
  assert (Ha0 : (0 <= a)%Z) by apply Z.log2_nonneg.
  assert (Hb0 : (0 <= b)%Z) by apply Z.log2_nonneg.
  assert (Hpa : (0 < 2 ^ a)%Z) by (apply Z.pow_pos_nonneg; lia).
  assert (Hpb : (0 < 2 ^ b)%Z) by (apply Z.pow_pos_nonneg; lia).
  split.
  - apply (Qmult_le_r _ _ (twoTo (b + 1))); [apply twoTo_pos|].
    rewrite <- twoTo_add. replace (a - b - 1 + (b + 1))%Z with a by lia.
    rewrite (twoTo_Z a Ha0). apply scaled_le; [lia|]. nia.
  - apply (Qmult_lt_r _ _ (twoTo b)); [apply twoTo_pos|].
    rewrite <- twoTo_add. replace (a - b + 1 + b)%Z with (a + 1)%Z by lia.
    rewrite (twoTo_Z (a + 1)) by lia. apply scaled_lt; [lia|]. nia.
Qed.

Lemma floorLog2_spec q :
  0 < q -> twoTo (floorLog2 q) <= q /\ q < twoTo (floorLog2 q + 1).
Proof.
  intros Hq. destruct q as [n d].
  assert (Hn : (0 < n)%Z) by (unfold Qlt in Hq; simpl in Hq; lia).
  destruct (floorLog2_bounds n d Hn) as [L U].
  unfold floorLog2. cbn [Qnum Qden].
  set (k := (Z.log2 n - Z.log2 (Zpos d))%Z) in *.
  destruct (Qle_bool (twoTo k) (n # d)) eqn:E.
  - apply Qle_bool_iff in E. split; assumption.
  - split; [exact L|].
    replace (k - 1 + 1)%Z with k by lia.
    apply Qnot_le_lt. intros H. apply Qle_bool_iff in H. congruence.
Qed.

Lemma binade_unique q a b :
  twoTo a <= q -> q < twoTo (a + 1) -> twoTo b <= q -> q < twoTo (b + 1) -> a = b.
Proof.
  intros La Ua Lb Ub.
  assert (H1 : twoTo a < twoTo (b + 1)) by (eapply Qle_lt_trans; eauto).
  assert (H2 : twoTo b < twoTo (a + 1)) by (eapply Qle_lt_trans; eauto).
  destruct (Z_lt_le_dec a (b + 1)) as [?|Hge].
  - destruct (Z_lt_le_dec b (a + 1)) as [?|Hge]; [lia|].
    apply twoTo_le in Hge. exfalso. lra.
  - apply twoTo_le in Hge. exfalso. lra.
Qed.

Lemma floorLog2_comp x y : 0 < x -> x == y -> floorLog2 x = floorLog2 y.
Proof.
  intros Hx E.
  assert (Hy : 0 < y) by now rewrite <- E.
  destruct (floorLog2_spec x Hx) as [Lx Ux].
  destruct (floorLog2_spec y Hy) as [Ly Uy].
  apply (binade_unique x); auto; lra.
Qed.

Lemma floorLog2_mono x y : 0 < x -> x <= y -> (floorLog2 x <= floorLog2 y)%Z.
Proof.
  intros Hx Hxy.
  assert (Hy : 0 < y) by lra.
  destruct (floorLog2_spec x Hx) as [Lx Ux].
  destruct (floorLog2_spec y Hy) as [Ly Uy].
  destruct (Z_le_gt_dec (floorLog2 x) (floorLog2 y)) as [|Hgt]; [assumption|].
  assert (H : twoTo (floorLog2 y + 1) <= twoTo (floorLog2 x)) by (apply twoTo_le; lia).
  exfalso. lra.
Qed.

(** *** The exponent of the nearest binary64 value *)

Lemma exponentOf_spec q :
  0 < q ->
  (-1074 <= exponentOf q)%Z
  /\ q < twoTo (exponentOf q + 53)
  /\ ((-1074 < exponentOf q)%Z -> twoTo (exponentOf q + 52) <= q).
Proof.
  intros Hq. destruct (floorLog2_spec q Hq) as [L U]. unfold exponentOf.
  split; [lia|]. split.
  - eapply Qlt_le_trans; [exact U|]. apply twoTo_le. lia.
  - intros H. replace (Z.max (floorLog2 q - 52) (-1074) + 52)%Z with (floorLog2 q) by lia.
    exact L.
Qed.

Lemma exponentOf_unique q e :
  0 < q -> (-1074 <= e)%Z -> q < twoTo (e + 53) ->
  ((-1074 < e)%Z -> twoTo (e + 52) <= q) ->
  exponentOf q = e.
Proof.
  intros Hq He U L.
  destruct (exponentOf_spec q Hq) as (He' & U' & L').
  destruct (Z.lt_trichotomy (exponentOf q) e) as [Hlt|[Heq|Hgt]]; [|assumption|].
  - exfalso. assert (Hl : twoTo (e + 52) <= q) by (apply L; lia).
    assert (twoTo (exponentOf q + 53) <= twoTo (e + 52)) by (apply twoTo_le; lia).
    lra.
  - exfalso. assert (Hl : twoTo (exponentOf q + 52) <= q) by (apply L'; lia).
    assert (twoTo (e + 53) <= twoTo (exponentOf q + 52)) by (apply twoTo_le; lia).
    lra.
Qed.

Lemma exponentOf_comp x y : 0 < x -> x == y -> exponentOf x = exponentOf y.
Proof.
  intros Hx E. unfold exponentOf. now rewrite (floorLog2_comp x y Hx E).
Qed.

Lemma exponentOf_mono x y : 0 < x -> x <= y -> (exponentOf x <= exponentOf y)%Z.
Proof.
  intros Hx Hxy. pose proof (floorLog2_mono x y Hx Hxy). unfold exponentOf. lia.
Qed.

(** *** Rounding to a multiple of a power of two *)

Lemma nearestPositive_onGrid q : nearestPositive q == onGrid (exponentOf q) q.
Proof.
  unfold nearestPositive, onGrid. apply Qred_correct.
Qed.

Lemma onGrid_comp e x y : x == y -> onGrid e x == onGrid e y.
Proof.
  intros E. unfold onGrid.
  rewrite (roundHalfEven_comp (x * twoTo (- e)) (y * twoTo (- e))); [reflexivity|].
  now rewrite E.
Qed.

Lemma onGrid_mono e x y : x <= y -> onGrid e x <= onGrid e y.
Proof.
  intros H. unfold onGrid.
  apply Qmult_le_compat_r; [|apply Qlt_le_weak, twoTo_pos].
  rewrite <- Zle_Qle. apply roundHalfEven_le.
  apply Qmult_le_compat_r; [exact H|apply Qlt_le_weak, twoTo_pos].
Qed.

Lemma onGrid_point e k : onGrid e (inject_Z k * twoTo e) == inject_Z k * twoTo e.
Proof.
  unfold onGrid.
  rewrite (roundHalfEven_comp (inject_Z k * twoTo e * twoTo (- e)) (inject_Z k)).
  - now rewrite roundHalfEven_Z.
  - rewrite <- Qmult_assoc, (Qmult_comm (twoTo e)), twoTo_cancel. ring.
Qed.

Lemma onGrid_nonneg e q : 0 <= q -> 0 <= onGrid e q.
Proof.
  intros H. unfold onGrid. apply Qmult_le_0_compat; [|apply Qlt_le_weak, twoTo_pos].
  change 0 with (inject_Z 0). rewrite <- Zle_Qle. apply roundHalfEven_nonneg.
  apply Qmult_le_0_compat; [exact H|apply Qlt_le_weak, twoTo_pos].
Qed.

Lemma twoTo_split e k : (0 <= k)%Z -> twoTo (e + k) == inject_Z (2 ^ k) * twoTo e.
Proof.
  intros H. rewrite Z.add_comm, twoTo_add. now rewrite (twoTo_Z k H).
Qed.

Lemma onGrid_power e k : (0 <= k)%Z -> onGrid e (twoTo (e + k)) == twoTo (e + k).
Proof.
  intros H. rewrite (onGrid_comp e _ _ (twoTo_split e k H)).
  rewrite onGrid_point. now rewrite twoTo_split.
Qed.

Lemma nearestPositive_mono x y :
  0 < x -> x <= y -> nearestPositive x <= nearestPositive y.
Proof.
  intros Hx Hxy. assert (Hy : 0 < y) by lra.
  rewrite !nearestPositive_onGrid.
  pose proof (exponentOf_mono x y Hx Hxy) as He.
  destruct (exponentOf_spec x Hx) as (Hx0 & Ux & _).
  destruct (exponentOf_spec y Hy) as (_ & _ & Ly).
  destruct (Z.eq_dec (exponentOf x) (exponentOf y)) as [E|NE].
  - rewrite E. now apply onGrid_mono.
  - apply Qle_trans with (twoTo (exponentOf x + 53)).
    + rewrite <- (onGrid_power (exponentOf x) 53) by lia.
      apply onGrid_mono. now apply Qlt_le_weak.
    + apply Qle_trans with (twoTo (exponentOf y + 52)); [apply twoTo_le; lia|].
      rewrite <- (onGrid_power (exponentOf y) 52) by lia.
      apply onGrid_mono. apply Ly. lia.
Qed.

Lemma nearestPositive_comp x y :
  0 < x -> x == y -> nearestPositive x = nearestPositive y.
Proof.
  intros Hx E. unfold nearestPositive. apply Qred_complete.
  rewrite (exponentOf_comp x y Hx E).
  apply (onGrid_comp (exponentOf y) x y E).
Qed.

Lemma nearestPositive_nonneg q : 0 <= q -> 0 <= nearestPositive q.
Proof.
  intros H. rewrite nearestPositive_onGrid. now apply onGrid_nonneg.
Qed.

Lemma nearestPositive_canonical q : Qred (nearestPositive q) = nearestPositive q.
Proof.
  unfold nearestPositive. apply Qred_complete. apply Qred_correct.
Qed.

(** A positive binary64 value: an integer of at most 53 bits times a
    power of two that is at least the smallest one. *)
Lemma nearestPositive_fix m e :
  (0 < m <= 2 ^ 53)%Z -> (-1074 <= e)%Z ->
  nearestPositive (inject_Z m * twoTo e) == inject_Z m * twoTo e.
Proof.
  intros Hm He. set (q := inject_Z m * twoTo e).
  assert (Hq : 0 < q).
  { apply Qmult_lt_0_compat; [|apply twoTo_pos].
    change 0 with (inject_Z 0). rewrite <- Zlt_Qlt. lia. }
  assert (Hq53 : q <= twoTo (e + 53)).
  { rewrite (twoTo_split e 53) by lia. unfold q.
    apply Qmult_le_compat_r; [|apply Qlt_le_weak, twoTo_pos].
    rewrite <- Zle_Qle. lia. }
  destruct (exponentOf_spec q Hq) as (HE & U & L).
  rewrite nearestPositive_onGrid. set (E := exponentOf q) in *.
  assert (Hk : exists k, q == inject_Z k * twoTo E).
  { destruct (Z_le_gt_dec E e) as [Hle|Hgt].
    - exists (m * 2 ^ (e - E))%Z. unfold q.
      rewrite inject_Z_mult, <- Qmult_assoc, <- twoTo_split by lia.
      now replace (E + (e - E))%Z with e by lia.
    - assert (L' : twoTo (E + 52) <= q) by (apply L; lia).
      assert (HEe : (E + 52 <= e + 53)%Z) by (apply twoTo_le_inv; lra).
      assert (HE1 : (E + 52 = e + 53)%Z) by lia.
      exists (2 ^ 52)%Z. rewrite <- twoTo_split by lia.
      rewrite HE1 in *. apply Qle_antisym; assumption. }
  destruct Hk as (k & Hk).
  rewrite (onGrid_comp E _ _ Hk), onGrid_point. now symmetry.
Qed.

Lemma nearestPositive_form q :
  0 < q ->
  exists m, (0 <= m <= 2 ^ 53)%Z
            /\ nearestPositive q == inject_Z m * twoTo (exponentOf q).
Proof.
  intros Hq. destruct (exponentOf_spec q Hq) as (HE & U & L).
  exists (roundHalfEven (q * twoTo (- exponentOf q))). split.
  - split.
    + apply roundHalfEven_nonneg. apply Qmult_le_0_compat; [lra|apply Qlt_le_weak, twoTo_pos].
    + rewrite <- (roundHalfEven_Z (2 ^ 53)). apply roundHalfEven_le.
      apply (Qmult_le_r _ _ (twoTo (exponentOf q))); [apply twoTo_pos|].
      rewrite <- Qmult_assoc, twoTo_cancel, Qmult_1_r.
      rewrite <- twoTo_split by lia. now apply Qlt_le_weak.
  - apply nearestPositive_onGrid.
Qed.

Lemma nearestPositive_idempotent q :
  0 < q -> 0 < nearestPositive q ->
  nearestPositive (nearestPositive q) = nearestPositive q.
Proof.
  intros Hq Hr. destruct (nearestPositive_form q Hq) as (m & Hm & E).
  destruct (exponentOf_spec q Hq) as (HE & _ & _).
  assert (Hm0 : (0 < m)%Z).
  { destruct (Z.eq_dec m 0) as [->|]; [|lia].
    rewrite E in Hr. exfalso. change (inject_Z 0) with 0 in Hr. lra. }
  assert (H1 : nearestPositive (nearestPositive q) == nearestPositive q).
  { rewrite (nearestPositive_comp _ _ Hr E).
    rewrite nearestPositive_fix by lia. now symmetry. }
  transitivity (Qred (nearestPositive (nearestPositive q)));
    [symmetry; apply nearestPositive_canonical|].
  transitivity (Qred (nearestPositive q));
    [now apply Qred_complete | apply nearestPositive_canonical].
Qed.

(** *** Rounding to binary64 *)

Lemma round64_zero q : q == 0 -> round64 q = Fin 0.
Proof.
  intros E. unfold round64. rewrite (proj1 (Qeq_alt q 0) E). reflexivity.
Qed.

Lemma round64_pos q :
  0 < q ->
  round64 q = if Qle_bool (twoTo 1024) (nearestPositive q)
              then PosInfinity else Fin (nearestPositive q).
Proof.
  intros H. unfold round64. rewrite (proj1 (Qgt_alt q 0) H). reflexivity.
Qed.

Lemma round64_neg q :
  q < 0 ->
  round64 q = if Qle_bool (twoTo 1024) (nearestPositive (- q))
              then NegInfinity else Fin (- nearestPositive (- q)).
Proof.
  intros H. unfold round64. rewrite (proj1 (Qlt_alt q 0) H). reflexivity.
Qed.

Lemma Qopp_opp_eq (q : Q) : - - q = q.
Proof.
  destruct q as [n d]. unfold Qopp. simpl. now rewrite Z.opp_involutive.
Qed.

Lemma round64_opp q : round64 (- q) = neg (round64 q).
Proof.
  destruct (Q_dec q 0) as [[H|H]|H].
  - rewrite (round64_neg q H), (round64_pos (- q)) by lra.
    destruct (Qle_bool _ _); simpl; [reflexivity|]. now rewrite Qopp_opp_eq.
  - rewrite (round64_pos q H), (round64_neg (- q)) by lra.
    rewrite Qopp_opp_eq.
    destruct (Qle_bool _ _); reflexivity.
  - rewrite (round64_zero q H), (round64_zero (- q)) by lra. reflexivity.
Qed.

Lemma round64_comp x y : x == y -> round64 x = round64 y.
Proof.
  intros E. destruct (Q_dec x 0) as [[H|H]|H].
  - rewrite (round64_neg x H), (round64_neg y) by lra.
    rewrite (nearestPositive_comp (- x) (- y)) by lra. reflexivity.
  - rewrite (round64_pos x H), (round64_pos y) by lra.
    rewrite (nearestPositive_comp x y) by lra. reflexivity.
  - rewrite (round64_zero x H), (round64_zero y) by lra. reflexivity.
Qed.

Lemma round64_nonneg q : 0 <= q -> Nle (Fin 0) (round64 q).
Proof.
  intros H. unfold Nle. destruct (Qle_lt_or_eq _ _ H) as [Hq|Hq].
  - rewrite (round64_pos q Hq). destruct (Qle_bool _ _); simpl; auto.
    apply Qle_bool_iff. apply nearestPositive_nonneg. lra.
  - rewrite (round64_zero q) by lra. reflexivity.
Qed.

Lemma round64_nonpos q : q <= 0 -> Nle (round64 q) (Fin 0).
Proof.
  intros H. unfold Nle. destruct (Qle_lt_or_eq _ _ H) as [Hq|Hq].
  - rewrite (round64_neg q Hq). destruct (Qle_bool _ _); simpl; auto.
    apply Qle_bool_iff. pose proof (nearestPositive_nonneg (- q)). lra.
  - rewrite (round64_zero q) by lra. reflexivity.
Qed.

Lemma Nle_trans a b c : Nle a b -> Nle b c -> Nle a c.
Proof.
  unfold Nle. destruct a, b, c; simpl; try congruence; auto.
  rewrite !Qle_bool_iff. apply Qle_trans.
Qed.

Lemma Nle_Fin x y : Nle (Fin x) (Fin y) <-> x <= y.
Proof.
  unfold Nle. simpl. apply Qle_bool_iff.
Qed.

Lemma Nlt_Fin x y : Nlt (Fin x) (Fin y) <-> x < y.
Proof.
  unfold Nlt. simpl. rewrite negb_true_iff, <- not_true_iff_false, Qle_bool_iff.
  split; [apply Qnot_le_lt | apply Qlt_not_le].
Qed.

Lemma round64_pos_mono x y :
  0 < x -> x <= y -> Nle (round64 x) (round64 y).
Proof.
  intros Hx Hxy. rewrite (round64_pos x Hx), (round64_pos y) by lra.
  pose proof (nearestPositive_mono x y Hx Hxy) as Hm. unfold Nle.
  destruct (Qle_bool (twoTo 1024) (nearestPositive x)) eqn:Ex;
  destruct (Qle_bool (twoTo 1024) (nearestPositive y)) eqn:Ey; simpl; auto.
  - apply Qle_bool_iff in Ex. apply not_true_iff_false in Ey.
    exfalso. apply Ey. apply Qle_bool_iff. lra.
  - now apply Qle_bool_iff.
Qed.

Lemma neg_Nle a b : Nle a b -> Nle (neg b) (neg a).
Proof.
  unfold Nle. destruct a, b; simpl; auto. rewrite !Qle_bool_iff. lra.
Qed.

Lemma round64_mono x y : x <= y -> Nle (round64 x) (round64 y).
Proof.
  intros Hxy. destruct (Qlt_le_dec 0 x) as [Hx|Hx].
  - now apply round64_pos_mono.
  - destruct (Qlt_le_dec y 0) as [Hy|Hy].
    + rewrite <- (round64_comp (- - x) x), <- (round64_comp (- - y) y) by lra.
      rewrite (round64_opp (- x)), (round64_opp (- y)).
      apply neg_Nle. apply round64_pos_mono; lra.
    + apply Nle_trans with (Fin 0); [now apply round64_nonpos | now apply round64_nonneg].
Qed.

Lemma inject_Z_canonical n : Qred (inject_Z n) = inject_Z n.
Proof.
  unfold Qred, inject_Z.
  pose proof (Z.ggcd_gcd n 1) as Hg.
  pose proof (Z.ggcd_correct_divisors n 1) as Hd.
  destruct (Z.ggcd n 1) as (g, (a, b)). simpl in Hg. rewrite Z.gcd_1_r in Hg.
  subst g. destruct Hd as [Ha Hb].
  assert (Hb' : b = 1%Z) by lia. rewrite Hb'. simpl. f_equal. lia.
Qed.

Lemma round64_Z n : (Z.abs n <= 2 ^ 53)%Z -> round64 (inject_Z n) = Fin (inject_Z n).
Proof.
  intros Hn.
  assert (P : forall m, (0 < m <= 2 ^ 53)%Z -> round64 (inject_Z m) = Fin (inject_Z m)).
  { intros m Hm.
    assert (Hq : 0 < inject_Z m) by (change 0 with (inject_Z 0); rewrite <- Zlt_Qlt; lia).
    assert (E : inject_Z m == inject_Z m * twoTo 0) by (unfold twoTo; simpl; ring).
    assert (R : nearestPositive (inject_Z m) = inject_Z m).
    { transitivity (Qred (nearestPositive (inject_Z m)));
        [symmetry; apply nearestPositive_canonical|].
      transitivity (Qred (inject_Z m)); [|apply inject_Z_canonical].
      apply Qred_complete.
      rewrite (nearestPositive_comp _ _ Hq E), nearestPositive_fix by lia.
      now symmetry. }
    rewrite (round64_pos _ Hq), R.
    destruct (Qle_bool (twoTo 1024) (inject_Z m)) eqn:Ov; [|reflexivity].
    apply Qle_bool_iff in Ov. rewrite (twoTo_Z 1024) in Ov by lia.
    rewrite <- Zle_Qle in Ov. exfalso.
    assert ((2 ^ 53 < 2 ^ 1024)%Z) by (apply Z.pow_lt_mono_r; lia). lia. }
  destruct (Z.lt_trichotomy n 0) as [H|[->|H]].
  - replace n with (- - n)%Z by lia. rewrite inject_Z_opp, round64_opp, P by lia.
    simpl. rewrite <- inject_Z_opp. reflexivity.
  - reflexivity.
  - apply P. lia.
Qed.

Lemma round64_idempotent q r : round64 q = Fin r -> round64 r = Fin r.
Proof.
  assert (P : forall q r, 0 < q -> round64 q = Fin r -> round64 r = Fin r).
  { clear q r. intros q r Hq H. rewrite (round64_pos q Hq) in H.
    destruct (Qle_bool (twoTo 1024) (nearestPositive q)) eqn:Ov; [discriminate|].
    injection H as <-.
    destruct (Qle_lt_or_eq _ _ (nearestPositive_nonneg q (Qlt_le_weak _ _ Hq))) as [Hr|Hr].
    - rewrite (round64_pos _ Hr), (nearestPositive_idempotent q Hq Hr), Ov. reflexivity.
    - rewrite round64_zero by lra.
      f_equal. rewrite <- (nearestPositive_canonical q).
      change 0 with (Qred 0). apply Qred_complete. lra. }
  intros H. destruct (Q_dec q 0) as [[Hq|Hq]|Hq].
  - assert (H' : round64 (- q) = Fin (- r)) by (rewrite round64_opp, H; reflexivity).
    apply P in H'; [|lra]. rewrite round64_opp in H'.
    destruct (round64 r) as [r'| | |]; simpl in H'; try discriminate.
    injection H' as H'. f_equal.
    destruct r as [rn rd], r' as [rn' rd']. unfold Qopp in H'. simpl in *.
    f_equal; [lia|assumption].
  - now apply (P q).
  - rewrite (round64_zero q Hq) in H. injection H as <-. reflexivity.
Qed.


(** *** The order of the numbers *)

Lemma round64_not_NaN q : round64 q <> NaN.
Proof.
  unfold round64. destruct (Qcompare q 0); try discriminate;
    destruct (Qle_bool _ _); discriminate.
Qed.


Lemma Nle_not_NaN a b : Nle a b -> a <> NaN /\ b <> NaN.
Proof.
  unfold Nle. destruct a, b; simpl; intros H; split; congruence.
Qed.

Lemma Nlt_not_NaN a b : Nlt a b -> a <> NaN /\ b <> NaN.
Proof.
  unfold Nlt. destruct a, b; simpl; intros H; split; congruence.
Qed.

Lemma negb_Qle_lt a b : negb (Qle_bool a b) = true <-> b < a.
Proof.
  rewrite negb_true_iff, <- not_true_iff_false, Qle_bool_iff.
  split; [apply Qnot_le_lt | apply Qlt_not_le].
Qed.

Ltac number_order :=
  unfold Nle, Nlt;
  repeat match goal with x : Number |- _ => destruct x end;
  simpl; rewrite ?negb_Qle_lt, ?Qle_bool_iff;
  try congruence; try (intros; lra); auto.


Lemma Nle_Nlt_trans a b c : Nle a b -> Nlt b c -> Nlt a c.
Proof.
  number_order.
Qed.

Lemma Nlt_Nle_trans a b c : Nlt a b -> Nle b c -> Nlt a c.
Proof.
  number_order.
Qed.





Lemma Nlt_whole a b : Nlt (whole a) (whole b) <-> (a < b)%Z.
Proof.
  unfold whole. rewrite Nlt_Fin, <- Zlt_Qlt. reflexivity.
Qed.

Lemma whole_inj a b : whole a = whole b -> a = b.
Proof.
  unfold whole, inject_Z. now intros [= ->].
Qed.




(** *** The operations *)



Lemma mathRound_rounded x : Nle (Fin 0) x -> roundedTotal (mathRound x).
Proof.
  destruct x as [q| | |]; try discriminate.
  - rewrite Nle_Fin. intros H. right. exists (Qfloor (q + (1 # 2))). split; [|reflexivity].
    rewrite <- (Qfloor_Z 0). apply Qfloor_resp_le. change (inject_Z 0) with 0. lra.
  - intros _. now left.
Qed.


Lemma add_nonneg x p : Nle (Fin 0) x -> 0 <= p -> Nle (Fin 0) (add x (Fin p)).
Proof.
  destruct x as [q| | |]; try discriminate.
  - rewrite Nle_Fin. intros Hq Hp. simpl. apply round64_nonneg. lra.
  - intros _ _. reflexivity.
Qed.

Lemma add_zero_comp q p : q == 0 -> add (Fin q) (Fin p) = add (Fin 0) (Fin p).
Proof.
  intros E. simpl. apply round64_comp. now rewrite E.
Qed.

Lemma infinityOfSign_pos f : 0 < f -> infinityOfSign f = PosInfinity.
Proof.
  intros H. unfold infinityOfSign. now rewrite (proj1 (Qgt_alt f 0) H).
Qed.

Lemma infinityOfSign_neg f : 0 < f -> infinityOfSign (- f) = NegInfinity.
Proof.
  intros H. unfold infinityOfSign.
  assert (H' : - f < 0) by lra. now rewrite (proj1 (Qlt_alt (- f) 0) H').
Qed.

Lemma mul_not_NaN x f : x <> NaN -> 0 < f -> mul x (Fin f) <> NaN.
Proof.
  intros Hx Hf. destruct x as [q| | |]; simpl.
  - apply round64_not_NaN.
  - now rewrite infinityOfSign_pos.
  - now rewrite infinityOfSign_neg.
  - congruence.
Qed.



Lemma mul_nonneg x f : Nle (Fin 0) x -> 0 < f -> Nle (Fin 0) (mul x (Fin f)).
Proof.
  intros Hx Hf. destruct x as [a| | |]; try discriminate Hx; simpl.
  - apply round64_nonneg. apply Nle_Fin in Hx. apply Qmult_le_0_compat; lra.
  - now rewrite infinityOfSign_pos.
Qed.


Lemma add_whole a b :
  (Z.abs (a + b) <= 2 ^ 53)%Z -> add (whole a) (whole b) = whole (a + b).
Proof.
  intros H. unfold whole. simpl.
  rewrite (round64_comp _ (inject_Z (a + b))) by (rewrite inject_Z_plus; reflexivity).
  now apply round64_Z.
Qed.


(** *** The comparator of the ranking *)

Lemma ltb_zero_iff x : ltb (Fin 0) x = true <-> Nlt (Fin 0) x.
Proof.
  reflexivity.
Qed.




#[global] Arguments round64 : simpl never.
#[global] Arguments leb : simpl never.
#[global] Arguments ltb : simpl never.
#[global] Arguments add : simpl never.
#[global] Arguments sub : simpl never.
#[global] Arguments mul : simpl never.
#[global] Arguments div : simpl never.
#[global] Arguments mathRound : simpl never.
#[global] Arguments mathMin : simpl never.

(* ================================================================== *)
(** ** The stable sort *)

Section Sorting.

Variable A : Type.
Variable cmp : A -> A -> Number.

Lemma insertBy_perm x l : Permutation (insertBy cmp x l) (x :: l).
Proof.
  induction l as [|y l IH]; simpl; [reflexivity|].
  destruct (ltb (Fin 0) (cmp x y)); [|reflexivity].
  rewrite IH. apply perm_swap.
Qed.

Lemma sortBy_perm l : Permutation (sortBy cmp l) l.
Proof.
  induction l as [|x l IH]; simpl; [reflexivity|].
  rewrite insertBy_perm. now constructor.
Qed.

Lemma sortBy_In l x : In x (sortBy cmp l) <-> In x l.
Proof.
  split; apply Permutation_in; [|symmetry]; apply sortBy_perm.
Qed.

Lemma sortBy_nil l : sortBy cmp l = [] <-> l = [].
Proof.
  split; intros H.
  - apply Permutation_nil. rewrite <- H. apply sortBy_perm.
  - now subst.
Qed.

End Sorting.

(** Sorting by a key in descending order: the comparator of
    [calculateResult] is [key b - key a].  The keys are whole numbers or
    [Infinity]. *)
Section Descending.

Variable A : Type.
Variable key : A -> Number.
Let cmp (a b : A) : Number := sub (key b) (key a).




End Descending.

(* ================================================================== *)
(** ** The damping factor *)

Lemma div_ten n : div (ofNat n) (Fin 10) = round64 (inject_Z (Z.of_nat n) / 10).
Proof.
  reflexivity.
Qed.

Lemma round64_one : round64 1 = Fin 1.
Proof.
  vm_compute. reflexivity.
Qed.

Lemma mathMin_one_le q : 1 <= q -> mathMin (round64 q) (Fin 1) = Fin 1.
Proof.
  intros H. pose proof (round64_mono 1 q H) as Hm. rewrite round64_one in Hm.
  destruct (round64 q) as [r| | |] eqn:E; try discriminate Hm; [|reflexivity].
  unfold mathMin. destruct (leb (Fin r) (Fin 1)) eqn:L; [|reflexivity].
  apply Nle_Fin in Hm. apply Nle_Fin in L.
  rewrite <- (round64_idempotent q r E), <- round64_one.
  apply round64_comp. lra.
Qed.

Lemma factorOf_saturated n : (10 <= n)%nat -> factorOf n = Fin 1.
Proof.
  intros H. unfold factorOf. rewrite div_ten. apply mathMin_one_le.
  apply Qle_shift_div_l; [reflexivity|].
  change (1 * 10) with (inject_Z 10). rewrite <- Zle_Qle. lia.
Qed.

Lemma factorOf_below n :
  (n < 10)%nat ->
  factorOf n = round64 (inject_Z (Z.of_nat n) / 10)
  /\ Nle (Fin 0) (factorOf n)
  /\ Nlt (factorOf n) (Fin 1)
  /\ Nlt (factorOf n) (factorOf (S n)).
Proof.
  intros H.
  do 10 (destruct n as [|n]; [vm_compute; repeat split; reflexivity|]).
  lia.
Qed.

Lemma factorOf_Fin n : exists f, factorOf n = Fin f /\ 0 <= f <= 1.
Proof.
  destruct (Nat.lt_ge_cases n 10) as [H|H].
  - destruct (factorOf_below n H) as (_ & H0 & H1 & _).
    destruct (factorOf n) as [f| | |]; try discriminate H0; try discriminate H1.
    exists f. apply Nle_Fin in H0. apply Nlt_Fin in H1. split; [reflexivity|lra].
  - exists 1. rewrite (factorOf_saturated n H). split; [reflexivity|lra].
Qed.

Lemma factorOf_mono n m : (n <= m)%nat -> Nle (factorOf n) (factorOf m).
Proof.
  intros H. destruct (Nat.lt_ge_cases m 10) as [Hm|Hm].
  - destruct (factorOf_below n) as (-> & _); [lia|].
    destruct (factorOf_below m Hm) as (-> & _).
    apply round64_mono. apply Qmult_le_compat_r; [|discriminate].
    rewrite <- Zle_Qle. lia.
  - rewrite (factorOf_saturated m Hm).
    destruct (factorOf_Fin n) as (f & -> & Hf). apply Nle_Fin. lra.
Qed.

Lemma factorOf_strict n m :
  (n < m)%nat -> Nlt (factorOf n) (Fin 1) -> Nlt (factorOf n) (factorOf m).
Proof.
  intros H H1.
  assert (Hn : (n < 10)%nat).
  { destruct (Nat.lt_ge_cases n 10) as [|Hge]; [assumption|].
    rewrite (factorOf_saturated n Hge) in H1. discriminate H1. }
  destruct (factorOf_below n Hn) as (_ & _ & _ & Hs).
  apply Nlt_Nle_trans with (factorOf (S n)); [exact Hs|].
  apply factorOf_mono. lia.
Qed.

Lemma factorOf_pos n :
  (0 < n)%nat -> exists f, factorOf n = Fin f /\ 0 < f <= 1.
Proof.
  intros H. destruct (factorOf_Fin n) as (f & E & Hf).
  exists f. split; [exact E|]. split; [|tauto].
  assert (H0 : Nlt (factorOf 0) (factorOf n)).
  { apply factorOf_strict; [lia|]. vm_compute. reflexivity. }
  rewrite E in H0. change (factorOf 0) with (factorOf 0) in H0.
  assert (Z0 : factorOf 0 = Fin 0) by (vm_compute; reflexivity).
  rewrite Z0 in H0. now apply Nlt_Fin in H0.
Qed.



(* ================================================================== *)
(** ** The response validator *)

Lemma nonEmptyString_iff v : nonEmptyString v <-> nonEmptyStringb v = true.
Proof.
  unfold nonEmptyString. split.
  - intros (s & -> & Hs). simpl. apply negb_true_iff. now apply String.eqb_neq.
  - destruct v; simpl; try discriminate. intros H. exists s. split; auto.
    apply negb_true_iff in H. now apply String.eqb_neq.
Qed.

Lemma existsb_eqb_In (s : string) (l : list string) :
  existsb (String.eqb s) l = true <-> In s l.
Proof.
  rewrite existsb_exists. split.
  - intros (x & Hin & E). apply String.eqb_eq in E. now subst.
  - intros Hin. exists s. split; auto. apply String.eqb_refl.
Qed.

Lemma allowedMarker_iff v : allowedMarker v <-> allowedMarkerb v = true.
Proof.
  unfold allowedMarker. split.
  - intros (s & -> & Hin). cbn [allowedMarkerb]. now apply existsb_eqb_In.
  - destruct v; cbn [allowedMarkerb]; try discriminate.
    intros H. exists s. split; auto. now apply existsb_eqb_In.
Qed.

Lemma isMapping_iff v : isMapping v <-> isMappingb v = true.
Proof.
  unfold isMapping. split.
  - intros [(f & ->)|(e & ->)]; reflexivity.
  - destruct v; simpl; try discriminate; eauto.
Qed.

Lemma Qltb_lt a b : Qltb a b = true <-> a < b.
Proof.
  unfold Qltb. rewrite negb_true_iff, <- not_true_iff_false, Qle_bool_iff.
  split; [apply Qnot_le_lt | apply Qlt_not_le].
Qed.

Lemma negativeOrNonNumeric_iff v :
  negativeOrNonNumeric v <-> pointValueOkb v = false.
Proof.
  unfold negativeOrNonNumeric. split.
  - intros [Hn|(q & -> & Hq)].
    + destruct v; simpl; auto. now elim (Hn q).
    + simpl. apply not_true_iff_false. rewrite Qle_bool_iff.
      now apply Qlt_not_le.
  - destruct v; simpl; try (left; intros ? [=]; fail).
    intros H. right. exists q. split; auto.
    apply Qnot_le_lt. rewrite <- Qle_bool_iff. now rewrite H.
Qed.

Lemma malformedEntry_iff entry :
  malformedEntry entry <-> wellFormedEntryb entry = false.
Proof.
  unfold malformedEntry, wellFormedEntryb.
  rewrite nonEmptyString_iff, nonEmptyString_iff, allowedMarker_iff, isMapping_iff.
  rewrite !andb_false_iff, !not_true_iff_false.
  split.
  - intros [H|[H|[H|[H|(animal & value & Hin & Hbad)]]]]; auto 6.
    right. apply not_true_iff_false. rewrite forallb_forall. intros Hall.
    apply negativeOrNonNumeric_iff in Hbad.
    specialize (Hall _ Hin). simpl in Hall. congruence.
  - intros [[[[H|H]|H]|H]|H]; auto 6.
    do 4 right.
    apply not_true_iff_false in H. rewrite forallb_forall in H.
    destruct (forallb (fun kv => pointValueOkb (snd kv))
                (objectEntries (propOf entry "points"))) eqn:E.
    + rewrite forallb_forall in E. contradiction.
    + clear H. induction (objectEntries (propOf entry "points")) as [|[a w] l IH];
        simpl in E; [discriminate|].
      apply andb_false_iff in E. destruct E as [E|E].
      * exists a, w. split; [now left|]. now apply negativeOrNonNumeric_iff.
      * destruct (IH E) as (a' & w' & Hin & Hbad).
        exists a', w'. split; [now right|auto].
Qed.

(** *** What the code computes *)

Lemma Return_inj (A : Type) (a b : A) : Return a = Return b -> a = b.
Proof.
  now intros [=].
Qed.

Lemma outcome_unit_cases (m : Outcome unit) :
  m = Return tt \/ exists e, m = Throw e.
Proof.
  destruct m as [[]|e]; eauto.
Qed.

Lemma forEachFrom_ok (A : Type) (f : nat -> A -> Outcome unit) (P : A -> bool) :
  (forall i x, f i x = Return tt <-> P x = true) ->
  forall l i, forEachFrom f i l = Return tt <-> forallb P l = true.
Proof.
  intros Hf. induction l as [|x l IH]; intros i; simpl.
  - tauto.
  - rewrite andb_true_iff, <- (Hf i x), <- (IH (S i)).
    destruct (f i x) as [[]|e]; simpl.
    + tauto.
    + split; [discriminate|intros [[=] _]].
Qed.

Lemma validatePoint_ok index kv :
  validatePoint index kv = Return tt <-> pointValueOkb (snd kv) = true.
Proof.
  destruct kv as [animal value]. unfold validatePoint. simpl.
  destruct value; simpl; try (split; discriminate).
  unfold Qltb. destruct (Qle_bool 0 q); simpl; split; auto; discriminate.
Qed.

Lemma guard_string v :
  negb (truthy v) || negb (typeOf v =? "string")%string = negb (nonEmptyStringb v).
Proof.
  destruct v as [| |b|q|s|fields|elems]; simpl;
    rewrite ?orb_true_r, ?orb_false_r; reflexivity.
Qed.

Lemma guard_object v :
  negb (truthy v) || negb (typeOf v =? "object")%string = negb (isMappingb v).
Proof.
  destruct v as [| |b|q|s|fields|elems]; simpl;
    rewrite ?orb_true_r, ?orb_false_r; reflexivity.
Qed.

Lemma includes_validOptions v : includes validOptions v = allowedMarkerb v.
Proof.
  destruct v as [| |b|q|s|fields|elems]; try reflexivity.
  unfold includes, allowedMarkerb, validOptions, allowedMarkers. simpl.
  destruct (s =? "unknown")%string, (s =? "skip")%string;
    rewrite ?orb_true_r, ?orb_false_r; reflexivity.
Qed.

(** A property read throws only on [undefined] and [null], whatever the
    property. *)
Lemma getProp_cases entry :
  (forall name, getProp entry name = Return (propOf entry name))
  \/ (forall name, getProp entry name = Throw TypeErrorNullish).
Proof.
  unfold propOf.
  destruct entry as [| |b|q|s|fields|elems]; simpl; auto.
  left. intros name. destruct (assocGet fields name); reflexivity.
Qed.

Lemma validateResponse_ok index entry :
  validateResponse index entry = Return tt <-> wellFormedEntryb entry = true.
Proof.
  unfold validateResponse, wellFormedEntryb.
  destruct (getProp_cases entry) as [Hget|Hget].
  - rewrite !Hget. cbn [bind].
    rewrite !guard_string, guard_object, includes_validOptions.
    destruct (nonEmptyStringb (propOf entry "questionId")); cbn [negb andb];
      [|split; discriminate].
    destruct (nonEmptyStringb (propOf entry "selectedOption")); cbn [negb andb];
      [|split; discriminate].
    destruct (allowedMarkerb (propOf entry "selectedOption")); cbn [negb andb];
      [|split; discriminate].
    destruct (isMappingb (propOf entry "points")); cbn [negb andb];
      [|split; discriminate].
    unfold forEach.
    apply (forEachFrom_ok _ (fun _ => validatePoint index)
             (fun kv => pointValueOkb (snd kv))).
    intros _ kv. apply validatePoint_ok.
  - unfold propOf. rewrite !Hget. cbn [bind nonEmptyStringb andb].
    split; discriminate.
Qed.

Lemma validateResponses_ok input :
  validateResponses input = Return tt <->
  exists elems, input = JArr elems /\ elems <> []
                /\ forallb wellFormedEntryb elems = true.
Proof.
  unfold validateResponses.
  destruct input; simpl; try (split; [discriminate|intros (? & [=] & _)]).
  destruct elems as [|x l]; simpl.
  - split; [discriminate|]. intros (? & [= <-] & H & _). now elim H.
  - unfold forEach.
    rewrite (forEachFrom_ok _ validateResponse wellFormedEntryb validateResponse_ok).
    split.
    + intros H. exists (x :: l). repeat split; auto. discriminate.
    + intros (? & [= <-] & _ & H). exact H.
Qed.

Lemma forallb_false_exists (A : Type) (P : A -> bool) (l : list A) :
  forallb P l = false <-> exists x, In x l /\ P x = false.
Proof.
  induction l as [|x l IH]; simpl.
  - split; [discriminate|intros (? & [] & _)].
  - rewrite andb_false_iff, IH. split.
    + intros [H|(y & Hin & Hy)]; eauto.
    + intros (y & [<-|Hin] & Hy); eauto.
Qed.

Lemma rejected_iff input : rejected input <-> validateResponses input <> Return tt.
Proof.
  rewrite validateResponses_ok. unfold rejected. split.
  - intros [Hna|[->|(entry & Hin & Hbad)]] (elems & Heq & Hne & Hall).
    + now elim (Hna elems).
    + injection Heq as <-. now elim Hne.
    + subst input. simpl in Hin. rewrite forallb_forall in Hall.
      apply malformedEntry_iff in Hbad. rewrite (Hall _ Hin) in Hbad.
      discriminate.
  - intros Hno. destruct input as [| |b|q|s|fields|elems];
      try (left; intros ? [=]; fail).
    destruct elems as [|x l]; [right; now left|].
    do 2 right. simpl.
    destruct (forallb wellFormedEntryb (x :: l)) eqn:E.
    + elim Hno. exists (x :: l). repeat split; auto. discriminate.
    + apply forallb_false_exists in E. destruct E as (entry & Hin & Hbad).
      exists entry. split; auto. now apply malformedEntry_iff.
Qed.

(** C4. The validator throws exactly on the rejection set of the design
    document: the input is not an array, or it is empty, or some entry
    lacks a non-empty string [questionId] or [selectedOption], or its
    [selectedOption] is not one of the eight allowed markers, or its
    [points] is not a mapping, or one of its point values is negative or
    not a number.  The error leaves [calculateResult] and
    [calculateQuizResult] before any score is accumulated: both throw the
    validator's error. *)
Theorem validateResponses_rejection_set (input : JsValue) :
  ((exists e, validateResponses input = Throw e) <-> rejected input)
  /\ (forall e, validateResponses input = Throw e ->
        calculateResult input = Throw e
        /\ forall config, calculateQuizResult input config = Throw e).
Proof.
  split.
  - rewrite rejected_iff.
    destruct (outcome_unit_cases (validateResponses input)) as [H|(e & H)];
      rewrite H.
    + split; [intros (e & [=])|intros Hne; now elim Hne].
    + split; [discriminate|eauto].
  - intros e H. unfold calculateQuizResult, calculateResult.
    rewrite H. simpl. auto.
Qed.

(** The rejection cases listed in the design document, one input each. *)
Example validateResponses_samples :
  validateResponses (JStr "not a list") = Throw ErrNotArray
  /\ validateResponses (JArr []) = Throw ErrNoResponses
  /\ validateResponses (JArr [JObj [("selectedOption", JStr "A"); ("points", JObj [])]])
     = Throw (ErrQuestionId 0)
  /\ validateResponses (JArr [mkResponse "q1" "A" []; mkResponse "q2" "Z" []])
     = Throw (ErrInvalidOption 1)
  /\ validateResponses (JArr [JNull]) = Throw TypeErrorNullish
  /\ validateResponses (JArr [mkResponse "q1" "skip" [("wolf", 3)]]) = Return tt.
Proof.
  repeat split; reflexivity.
Qed.

Lemma validateResponses_rejection_set_witness :
  validateResponses (JArr [mkResponse "q1" "A" [("wolf", -1 # 1)]])
    = Throw (ErrPointValue 0 "wolf")
  /\ calculateQuizResult (JArr [mkResponse "q1" "A" [("wolf", -1 # 1)]]) None
     = Throw (ErrPointValue 0 "wolf").
Proof.
  split; [reflexivity|].
  apply (validateResponses_rejection_set
           (JArr [mkResponse "q1" "A" [("wolf", -1 # 1)]])).
  reflexivity.
Defined.

(* ================================================================== *)
(** ** The score aggregator *)

(** *** The accumulation loop *)

Lemma skipOrUnknown_iff r : skipOrUnknown r <-> skipOrUnknownb r = true.
Proof.
  unfold skipOrUnknown, skipOrUnknownb. split.
  - intros [->| ->]; reflexivity.
  - destruct (selectionMarker r); try discriminate.
    rewrite orb_true_iff, !String.eqb_eq. intros [->| ->]; auto.
Qed.

Lemma isAnswered_skipOrUnknownb r : isAnswered r = negb (skipOrUnknownb r).
Proof.
  unfold isAnswered, skipOrUnknownb, selectionMarker, strictNeq.
  destruct (propOf r "selectedOption"); try reflexivity.
  rewrite negb_orb. apply andb_comm.
Qed.

Lemma answeredQuestions_count rs :
  List.length (filter isAnswered rs) = answeredCount rs.
Proof.
  unfold answeredCount. f_equal. apply filter_ext.
  intros r. apply isAnswered_skipOrUnknownb.
Qed.


(** *** Reads and writes of [animalScores] *)

Lemma inheritedName_proto : inheritedName "__proto__" = true.
Proof.
  reflexivity.
Qed.

Lemma ordinary_not_proto k : inheritedName k = false -> k <> "__proto__".
Proof.
  intros H ->. discriminate H.
Qed.

Lemma writeTotal_proto o t : writeTotal o "__proto__" t = o.
Proof.
  reflexivity.
Qed.

Lemma writeTotal_other o k t : k <> "__proto__" -> writeTotal o k t = assocSet o k t.
Proof.
  intros H. unfold writeTotal. apply String.eqb_neq in H. now rewrite H.
Qed.

Lemma addScore_proto scores points : addScore scores ("__proto__", points) = scores.
Proof.
  unfold addScore. rewrite !writeTotal_proto.
  destruct (notTruthy (readTotal scores "__proto__")); reflexivity.
Qed.

Lemma animalScores_addPoints t e :
  animalScores (addPoints t e) = addScore (animalScores t) e.
Proof.
  destruct e as [animal points]. unfold addPoints, addScore.
  destruct (notTruthy (readTotal (animalScores t) animal)); reflexivity.
Qed.

Lemma animalScores_fold_addPoints es t :
  animalScores (fold_left addPoints es t) = fold_left addScore es (animalScores t).
Proof.
  revert t. induction es as [|e es IH]; intros t; simpl; [reflexivity|].
  now rewrite IH, animalScores_addPoints.
Qed.

Lemma keys_addScore scores animal points k :
  In k (map fst (addScore scores (animal, points)))
  <-> (k = animal /\ animal <> "__proto__") \/ In k (map fst scores).
Proof.
  destruct (string_dec animal "__proto__") as [->|Hne].
  - rewrite addScore_proto. intuition.
  - unfold addScore. rewrite !writeTotal_other by assumption.
    destruct (notTruthy (readTotal scores animal));
      rewrite !keys_assocSet; intuition.
Qed.

Lemma NoDup_addScore scores entry :
  NoDup (map fst scores) -> NoDup (map fst (addScore scores entry)).
Proof.
  destruct entry as [animal points]. intros H.
  destruct (string_dec animal "__proto__") as [->|Hne].
  - now rewrite addScore_proto.
  - unfold addScore. rewrite !writeTotal_other by assumption.
    destruct (notTruthy (readTotal scores animal));
      repeat apply NoDup_keys_assocSet; assumption.
Qed.

Lemma assocGet_addScore_other scores animal points k :
  animal <> k ->
  assocGet (addScore scores (animal, points)) k = assocGet scores k.
Proof.
  intros Hne. destruct (string_dec animal "__proto__") as [->|Hp].
  - now rewrite addScore_proto.
  - unfold addScore. rewrite !writeTotal_other by assumption.
    destruct (notTruthy (readTotal scores animal));
      rewrite !assocGet_assocSet_other by assumption; reflexivity.
Qed.

(** The property under a name other than [__proto__] after one turn of
    the loop. *)
Lemma assocGet_addScore_same scores animal points :
  animal <> "__proto__" ->
  assocGet (addScore scores (animal, points)) animal
  = Some (if notTruthy (readTotal scores animal)
          then TotalNumber (add (Fin 0) (Fin (numberOf points)))
          else plusPoints (readTotal scores animal) (Fin (numberOf points))).
Proof.
  intros Hp. unfold addScore. rewrite !writeTotal_other by assumption.
  rewrite assocGet_assocSet_same. f_equal.
  destruct (notTruthy (readTotal scores animal)); [|reflexivity].
  unfold readTotal. now rewrite assocGet_assocSet_same.
Qed.

Lemma readTotal_ordinary scores k :
  inheritedName k = false -> wellScored scores ->
  (assocGet scores k = None /\ readTotal scores k = Undefined)
  \/ exists x, assocGet scores k = Some (TotalNumber x)
               /\ readTotal scores k = Own (TotalNumber x)
               /\ Nle (Fin 0) x.
Proof.
  intros Hk Hw. unfold readTotal.
  destruct (assocGet scores k) as [t|] eqn:E.
  - specialize (Hw k t E). rewrite Hk in Hw. destruct Hw as (x & -> & Hx).
    right. exists x. auto.
  - left. now rewrite Hk.
Qed.

Lemma readTotal_inherited scores k :
  inheritedName k = true -> wellScored scores ->
  notTruthy (readTotal scores k) = false
  /\ forall p, plusPoints (readTotal scores k) p = TotalString.
Proof.
  intros Hk Hw. unfold readTotal.
  destruct (assocGet scores k) as [t|] eqn:E.
  - specialize (Hw k t E). rewrite Hk in Hw. subst t. split; reflexivity.
  - rewrite Hk. split; reflexivity.
Qed.

Lemma zeroOrNaN_nonneg x :
  Nle (Fin 0) x -> zeroOrNaN x = true -> exists q, x = Fin q /\ q == 0.
Proof.
  destruct x as [q| | |]; try discriminate.
  intros _ H. exists q. split; [reflexivity|]. now apply Qeq_bool_iff.
Qed.

Lemma wellScored_nil : wellScored [].
Proof.
  intros k t [=].
Qed.

Lemma wellScored_addScore scores animal v :
  pointValueOkb v = true -> wellScored scores ->
  wellScored (addScore scores (animal, v)).
Proof.
  intros Hv Hw k t Hget.
  assert (Hp : 0 <= numberOf v).
  { destruct v; try discriminate. now apply Qle_bool_iff. }
  destruct (string_dec animal k) as [->|Hne].
  - destruct (string_dec k "__proto__") as [->|Hproto].
    + rewrite addScore_proto in Hget. now apply Hw.
    + rewrite assocGet_addScore_same in Hget by assumption.
      injection Hget as <-.
      destruct (inheritedName k) eqn:Hk.
      * destruct (readTotal_inherited scores k Hk Hw) as [-> Hplus]. apply Hplus.
      * destruct (readTotal_ordinary scores k Hk Hw)
          as [[_ ->]|(x & _ & -> & Hx)]; cbn [notTruthy].
        { eexists. split; [reflexivity|]. now apply add_nonneg. }
        destruct (zeroOrNaN x); cbn [plusPoints];
          (eexists; split; [reflexivity|]; now apply add_nonneg).
  - rewrite assocGet_addScore_other in Hget by assumption. now apply Hw.
Qed.

Lemma totalOf_addScore scores animal v k :
  inheritedName k = false -> wellScored scores -> pointValueOkb v = true ->
  totalOf (addScore scores (animal, v)) k
  = if (animal =? k)%string
    then add (totalOf scores k) (Fin (numberOf v))
    else totalOf scores k.
Proof.
  intros Hk Hw Hv. unfold totalOf at 1.
  destruct (animal =? k)%string eqn:E.
  - apply String.eqb_eq in E. subst animal.
    rewrite assocGet_addScore_same by now apply ordinary_not_proto.
    unfold totalOf.
    destruct (readTotal_ordinary scores k Hk Hw)
      as [[-> ->]|(x & -> & -> & Hx)]; cbn [notTruthy]; [reflexivity|].
    destruct (zeroOrNaN x) eqn:Z; cbn [plusPoints]; [|reflexivity].
    destruct (zeroOrNaN_nonneg x Hx Z) as (q & -> & Hq).
    symmetry. now apply add_zero_comp.
  - apply String.eqb_neq in E.
    rewrite assocGet_addScore_other by assumption. reflexivity.
Qed.

(** *** The inner loop *)

Lemma wellScored_fold_addScore entries scores :
  forallb (fun kv => pointValueOkb (snd kv)) entries = true ->
  wellScored scores -> wellScored (fold_left addScore entries scores).
Proof.
  revert scores. induction entries as [|[a v] es IH]; intros scores Hall Hw; simpl.
  - exact Hw.
  - simpl in Hall. apply andb_true_iff in Hall. destruct Hall as [Hv Hall].
    apply IH; [assumption|]. now apply wellScored_addScore.
Qed.

Lemma totalOf_fold_addScore entries scores k :
  inheritedName k = false ->
  forallb (fun kv => pointValueOkb (snd kv)) entries = true ->
  wellScored scores ->
  totalOf (fold_left addScore entries scores) k
  = plusPointsIn k (totalOf scores k) entries.
Proof.
  intros Hk. revert scores.
  induction entries as [|[a v] es IH]; intros scores Hall Hw; simpl.
  - reflexivity.
  - simpl in Hall. apply andb_true_iff in Hall. destruct Hall as [Hv Hall].
    rewrite IH; [|assumption|now apply wellScored_addScore].
    unfold plusPointsIn. cbn [fold_left fst snd]. f_equal.
    now apply totalOf_addScore.
Qed.

Lemma keys_fold_addScore entries scores k :
  In k (map fst (fold_left addScore entries scores))
  <-> In k (map fst scores) \/ (In k (map fst entries) /\ k <> "__proto__").
Proof.
  revert scores. induction entries as [|[a v] es IH]; intros scores;
    cbn [fold_left map fst].
  - simpl. intuition.
  - rewrite IH, keys_addScore. simpl. intuition (subst; auto).
Qed.

Lemma NoDup_fold_addScore entries scores :
  NoDup (map fst scores) -> NoDup (map fst (fold_left addScore entries scores)).
Proof.
  revert scores. induction entries as [|e es IH]; intros scores H; simpl; auto.
  apply IH. now apply NoDup_addScore.
Qed.

(** *** The outer loop *)



(** *** The outer loop *)

Lemma animalScores_addResponse t r :
  animalScores (addResponse t r)
  = if skipOrUnknownb r then animalScores t
    else fold_left addScore (pointsMapping r) (animalScores t).
Proof.
  unfold addResponse. rewrite isAnswered_skipOrUnknownb.
  destruct (skipOrUnknownb r); cbn [negb]; [reflexivity|].
  apply animalScores_fold_addPoints.
Qed.

Lemma pointsOk_cons r rs :
  pointsOk (r :: rs)
  <-> forallb (fun kv => pointValueOkb (snd kv)) (pointsMapping r) = true
      /\ pointsOk rs.
Proof.
  unfold pointsOk. split.
  - intros H. split; [apply H; now left|]. intros r' Hr'. apply H. now right.
  - intros [H1 H2] r' [<-|Hr']; auto.
Qed.

Lemma wellScored_fold_addResponse rs t :
  pointsOk rs -> wellScored (animalScores t) ->
  wellScored (animalScores (fold_left addResponse rs t)).
Proof.
  revert t. induction rs as [|r rs IH]; intros t Hok Hw; cbn [fold_left].
  - exact Hw.
  - apply pointsOk_cons in Hok. destruct Hok as [Hr Hok].
    apply IH; [assumption|]. rewrite animalScores_addResponse.
    destruct (skipOrUnknownb r); [assumption|].
    now apply wellScored_fold_addScore.
Qed.

Lemma totalOf_fold_addResponse rs t k :
  inheritedName k = false -> pointsOk rs -> wellScored (animalScores t) ->
  totalOf (animalScores (fold_left addResponse rs t)) k
  = plusPointsOf k (totalOf (animalScores t) k) rs.
Proof.
  intros Hk. revert t.
  induction rs as [|r rs IH]; intros t Hok Hw; cbn [fold_left].
  - reflexivity.
  - apply pointsOk_cons in Hok. destruct Hok as [Hr Hok].
    assert (Hw' : wellScored (animalScores (addResponse t r))).
    { rewrite animalScores_addResponse.
      destruct (skipOrUnknownb r); [assumption|].
      now apply wellScored_fold_addScore. }
    rewrite IH by assumption.
    unfold plusPointsOf. cbn [fold_left]. f_equal.
    rewrite animalScores_addResponse.
    destruct (skipOrUnknownb r); [reflexivity|].
    now apply totalOf_fold_addScore.
Qed.

Lemma mentioned_cons k r rs :
  mentioned k (r :: rs)
  <-> (skipOrUnknownb r = false /\ In k (map fst (pointsMapping r)))
      \/ mentioned k rs.
Proof.
  unfold mentioned. split.
  - intros (r' & [<-|Hin] & Hs & Hk); [now left|].
    right. exists r'. auto.
  - intros [[Hs Hk]|(r' & Hin & Hs & Hk)].
    + exists r. split; [now left|auto].
    + exists r'. split; [now right|auto].
Qed.

Lemma mentioned_nil k : ~ mentioned k [].
Proof.
  intros (r & [] & _).
Qed.

Lemma keys_fold_addResponse rs t k :
  In k (map fst (animalScores (fold_left addResponse rs t)))
  <-> In k (map fst (animalScores t)) \/ (mentioned k rs /\ k <> "__proto__").
Proof.
  revert t. induction rs as [|r rs IH]; intros t; cbn [fold_left].
  - pose proof (mentioned_nil k). tauto.
  - rewrite IH, mentioned_cons, animalScores_addResponse.
    destruct (skipOrUnknownb r).
    + intuition discriminate.
    + rewrite keys_fold_addScore. tauto.
Qed.

Lemma NoDup_fold_addResponse rs t :
  NoDup (map fst (animalScores t)) ->
  NoDup (map fst (animalScores (fold_left addResponse rs t))).
Proof.
  revert t. induction rs as [|r rs IH]; intros t H; cbn [fold_left]; auto.
  apply IH. rewrite animalScores_addResponse.
  destruct (skipOrUnknownb r); [assumption|].
  now apply NoDup_fold_addScore.
Qed.

(** *** The breakdowns *)

Lemma ordinaryKeys_initBreakdown keys animal :
  inheritedName animal = false -> ordinaryKeys keys ->
  ordinaryKeys (initBreakdown keys animal).
Proof.
  intros Ha Hk. unfold initBreakdown.
  destruct (animal =? "__proto__")%string; [assumption|].
  destruct (existsb (String.eqb animal) keys); [assumption|].
  intros k Hin. apply in_app_or in Hin.
  destruct Hin as [Hin|[<-|[]]]; auto.
Qed.

Lemma invariants_addPoints t animal v :
  pointValueOkb v = true ->
  wellScored (animalScores t) -> ordinaryKeys (breakdownKeys t) ->
  wellScored (animalScores (addPoints t (animal, v)))
  /\ ordinaryKeys (breakdownKeys (addPoints t (animal, v))).
Proof.
  intros Hv Hw Hk. split.
  - rewrite animalScores_addPoints. now apply wellScored_addScore.
  - unfold addPoints.
    destruct (notTruthy (readTotal (animalScores t) animal)) eqn:E;
      cbn [breakdownKeys]; [|assumption].
    apply ordinaryKeys_initBreakdown; [|assumption].
    destruct (inheritedName animal) eqn:Ha; [|reflexivity].
    destruct (readTotal_inherited _ _ Ha Hw) as [Hn _]. congruence.
Qed.

Lemma invariants_fold_addPoints entries t :
  forallb (fun kv => pointValueOkb (snd kv)) entries = true ->
  wellScored (animalScores t) -> ordinaryKeys (breakdownKeys t) ->
  wellScored (animalScores (fold_left addPoints entries t))
  /\ ordinaryKeys (breakdownKeys (fold_left addPoints entries t)).
Proof.
  revert t. induction entries as [|[a v] es IH]; intros t Hall Hw Hk;
    cbn [fold_left]; [now split|].
  cbn [forallb snd] in Hall. apply andb_true_iff in Hall. destruct Hall as [Hv Hall].
  destruct (invariants_addPoints t a v Hv Hw Hk) as [Hw' Hk'].
  now apply IH.
Qed.

Lemma invariants_fold_addResponse rs t :
  pointsOk rs ->
  wellScored (animalScores t) -> ordinaryKeys (breakdownKeys t) ->
  wellScored (animalScores (fold_left addResponse rs t))
  /\ ordinaryKeys (breakdownKeys (fold_left addResponse rs t)).
Proof.
  revert t. induction rs as [|r rs IH]; intros t Hok Hw Hk;
    cbn [fold_left]; [now split|].
  apply pointsOk_cons in Hok. destruct Hok as [Hr Hok].
  apply IH; [assumption| |]; unfold addResponse;
    destruct (isAnswered r); try assumption;
    now apply invariants_fold_addPoints.
Qed.

Lemma breakdownOf_ordinaryKeys keys animal :
  ordinaryKeys keys ->
  breakdownOf keys animal
  = if inheritedName animal then InheritedProperty animal else EmptyObject.
Proof.
  intros Hk. unfold breakdownOf.
  destruct (existsb (String.eqb animal) keys) eqn:E; [|reflexivity].
  apply existsb_exists in E. destruct E as (k & Hin & E).
  apply String.eqb_eq in E. subst k. now rewrite (Hk animal Hin).
Qed.

(** *** What [calculateResult] returns *)

Lemma validated_pointsOk input :
  validateResponses input = Return tt -> pointsOk (elements input).
Proof.
  intros H. apply validateResponses_ok in H.
  destruct H as (elems & -> & _ & Hall). cbn [elements].
  rewrite forallb_forall in Hall. intros r Hr. specialize (Hall r Hr).
  unfold wellFormedEntryb in Hall. apply andb_true_iff in Hall. apply Hall.
Qed.

Lemma aggregated_invariants rs :
  pointsOk rs ->
  wellScored (animalScores (aggregated rs))
  /\ ordinaryKeys (breakdownKeys (aggregated rs))
  /\ NoDup (map fst (animalScores (aggregated rs))).
Proof.
  intros Hok. unfold aggregated.
  destruct (invariants_fold_addResponse rs
              {| animalScores := []; breakdownKeys := [] |} Hok)
    as [Hw Hk]; [apply wellScored_nil|intros k []|].
  repeat split; try assumption.
  apply NoDup_fold_addResponse. constructor.
Qed.

Lemma aggregated_keys rs k :
  In k (map fst (animalScores (aggregated rs)))
  <-> mentioned k rs /\ k <> "__proto__".
Proof.
  unfold aggregated. rewrite keys_fold_addResponse. simpl. tauto.
Qed.

Lemma aggregated_total rs k :
  pointsOk rs -> inheritedName k = false ->
  totalOf (animalScores (aggregated rs)) k = rawTotal k rs.
Proof.
  intros Hok Hk. unfold aggregated.
  rewrite totalOf_fold_addResponse; auto using wellScored_nil.
Qed.

Lemma aggregated_entry rs k t :
  pointsOk rs -> In (k, t) (animalScores (aggregated rs)) ->
  if inheritedName k then t = TotalString
  else t = TotalNumber (rawTotal k rs) /\ Nle (Fin 0) (rawTotal k rs).
Proof.
  intros Hok Hin.
  destruct (aggregated_invariants rs Hok) as (Hw & _ & Hnd).
  pose proof (In_assocGet _ _ _ _ Hnd Hin) as Hget.
  pose proof (Hw k t Hget) as Ht.
  destruct (inheritedName k) eqn:Hk; [assumption|].
  destruct Ht as (x & -> & Hx).
  rewrite <- (aggregated_total rs k Hok Hk). unfold totalOf. rewrite Hget.
  now split.
Qed.

Lemma calculateResult_Return input scores :
  calculateResult input = Return scores <->
  validateResponses input = Return tt
  /\ scores = sortBy byTotalPoints
                (map (toScore (breakdownKeys (aggregated (elements input)))
                              (dampingFactor (elements input)))
                     (ownEntries (animalScores (aggregated (elements input))))).
Proof.
  unfold calculateResult.
  destruct (outcome_unit_cases (validateResponses input)) as [H|(e & H)];
    rewrite H; cbn [bind].
  - rewrite answeredQuestions_count.
    split; [intros [= <-]; split|intros [_ ->]]; reflexivity.
  - split; [discriminate|intros [[=] _]].
Qed.

Lemma calculateResult_In input scores s :
  calculateResult input = Return scores ->
  (In s scores <->
   exists k t, In (k, t) (animalScores (aggregated (elements input)))
               /\ s = toScore (breakdownKeys (aggregated (elements input)))
                              (dampingFactor (elements input)) (k, t)).
Proof.
  intros H. apply calculateResult_Return in H. destruct H as [_ ->].
  rewrite sortBy_In, in_map_iff. split.
  - intros ([k t] & <- & Hin). apply (proj1 (ownEntries_In _ _ _)) in Hin.
    exists k, t. split; [assumption|reflexivity].
  - intros (k & t & Hin & ->). exists (k, t). split; auto.
    now apply (proj2 (ownEntries_In _ _ _)).
Qed.

(** A record of the result: the factor, and the total according to the
    name of the archetype. *)
Lemma calculateResult_score input scores s :
  calculateResult input = Return scores ->
  In s scores ->
  confidence s = dampingFactor (elements input)
  /\ mentioned (animalName s) (elements input)
  /\ (inheritedName (animalName s) = false ->
      totalPoints s
      = mathRound (mul (rawTotal (animalName s) (elements input))
                       (dampingFactor (elements input)))
      /\ Nle (Fin 0) (rawTotal (animalName s) (elements input))
      /\ categoryBreakdown s = EmptyObject)
  /\ (inheritedName (animalName s) = true ->
      totalPoints s = NaN
      /\ categoryBreakdown s = InheritedProperty (animalName s)).
Proof.
  intros Hres Hin.
  pose proof Hres as Hval. apply calculateResult_Return in Hval.
  destruct Hval as [Hval _]. apply validated_pointsOk in Hval.
  apply (calculateResult_In _ _ _ Hres) in Hin.
  destruct Hin as (k & t & Hin & ->). cbn [toScore confidence animalName totalPoints categoryBreakdown].
  destruct (aggregated_invariants _ Hval) as (_ & Hkeys & _).
  rewrite (breakdownOf_ordinaryKeys _ k Hkeys).
  pose proof (aggregated_entry _ k t Hval Hin) as Ht.
  split; [reflexivity|]. split.
  { apply (in_map fst) in Hin. apply aggregated_keys in Hin. apply Hin. }
  destruct (inheritedName k).
  - subst t. split; [discriminate|]. intros _. split; reflexivity.
  - destruct Ht as [-> Hx]. split; [|discriminate]. intros _. repeat split; auto.
Qed.









(** *** Skipped responses *)

Lemma addResponse_skip acc r : skipOrUnknown r -> addResponse acc r = acc.
Proof.
  intros H. apply skipOrUnknown_iff in H. unfold addResponse.
  now rewrite isAnswered_skipOrUnknownb, H.
Qed.

Lemma aggregated_skip pre r post :
  skipOrUnknown r -> aggregated (pre ++ r :: post) = aggregated (pre ++ post).
Proof.
  intros H. unfold aggregated. rewrite !fold_left_app. simpl.
  now rewrite addResponse_skip.
Qed.

Lemma answered_skip pre r post :
  skipOrUnknown r ->
  List.length (filter isAnswered (pre ++ r :: post))
  = List.length (filter isAnswered (pre ++ post)).
Proof.
  intros H. apply skipOrUnknown_iff in H.
  rewrite !filter_app. simpl. now rewrite isAnswered_skipOrUnknownb, H.
Qed.

(** C5. A response marked "skip" or "unknown" adds nothing to any
    running total and is not counted as answered, whatever its points
    mapping holds: the totals and the count are those of the list without
    it, and replacing it by any other skip or unknown response that
    validates leaves the result of [calculateResult] unchanged. *)
Theorem skip_unknown_excluded (pre post : list JsValue) (r : JsValue) :
  skipOrUnknown r ->
  aggregated (pre ++ r :: post) = aggregated (pre ++ post)
  /\ List.length (filter isAnswered (pre ++ r :: post))
     = List.length (filter isAnswered (pre ++ post))
  /\ forall r' scores,
       skipOrUnknown r' ->
       validateResponses (JArr (pre ++ r' :: post)) = Return tt ->
       calculateResult (JArr (pre ++ r :: post)) = Return scores ->
       calculateResult (JArr (pre ++ r' :: post)) = Return scores.
Proof.
  intros Hr. split; [now apply aggregated_skip|].
  split; [now apply answered_skip|].
  intros r' scores Hr' Hval Hres.
  apply calculateResult_Return in Hres. destruct Hres as [_ ->].
  apply calculateResult_Return. split; [assumption|].
  unfold dampingFactor. rewrite <- !answeredQuestions_count.
  cbn [elements].
  now rewrite !aggregated_skip, !answered_skip by assumption.
Qed.

Lemma skip_unknown_excluded_witness :
  let pre := [mkResponse "q1" "A" [("fox", 4); ("wolf", 3)]] in
  let post := [mkResponse "q3" "B" [("wolf", 2)]] in
  let r := mkResponse "q2" "skip" [("wolf", 50); ("owl", 9)] in
  aggregated (pre ++ r :: post) = aggregated (pre ++ post)
  /\ List.length (filter isAnswered (pre ++ r :: post))
     = List.length (filter isAnswered (pre ++ post))
  /\ calculateResult (JArr (pre ++ mkResponse "q2" "unknown" [] :: post))
     = calculateResult (JArr (pre ++ r :: post)).
Proof.
  intros pre post r.
  assert (Hr : skipOrUnknown r) by (left; reflexivity).
  destruct (skip_unknown_excluded pre post r Hr) as (H1 & H2 & H3).
  split; [exact H1|]. split; [exact H2|].
  apply (H3 (mkResponse "q2" "unknown" [])).
  - right; reflexivity.
  - reflexivity.
  - vm_compute. reflexivity.
Defined.

(** *** An empty aggregation *)

Lemma contributes_iff r :
  contributes r <->
  skipOrUnknownb r = false
  /\ exists k, In k (map fst (pointsMapping r)) /\ k <> "__proto__".
Proof.
  unfold contributes. rewrite skipOrUnknown_iff, not_true_iff_false. tauto.
Qed.

Lemma contributes_mentioned rs :
  (exists r, In r rs /\ contributes r)
  <-> exists k, mentioned k rs /\ k <> "__proto__".
Proof.
  split.
  - intros (r & Hin & Hc). apply contributes_iff in Hc.
    destruct Hc as (Hs & k & Hk & Hp). exists k. split; [|assumption].
    exists r. auto.
  - intros (k & (r & Hin & Hs & Hk) & Hp). exists r. split; [assumption|].
    apply contributes_iff. eauto.
Qed.

Lemma aggregated_nil rs :
  animalScores (aggregated rs) = [] <-> forall r, In r rs -> ~ contributes r.
Proof.
  split.
  - intros Hnil r Hin Hc.
    assert (H : exists k, mentioned k rs /\ k <> "__proto__").
    { apply contributes_mentioned. eauto. }
    destruct H as (k & Hk). apply aggregated_keys in Hk.
    rewrite Hnil in Hk. destruct Hk.
  - intros Hall. destruct (animalScores (aggregated rs)) as [|[k t] l] eqn:E;
      [reflexivity|].
    assert (Hk : In k (map fst (animalScores (aggregated rs))))
      by (rewrite E; now left).
    apply aggregated_keys in Hk.
    assert (H : exists r, In r rs /\ contributes r).
    { apply contributes_mentioned. eauto. }
    destruct H as (r & Hin & Hc). now elim (Hall r Hin).
Qed.

Lemma calculateResult_nil input scores :
  calculateResult input = Return scores ->
  (scores = [] <-> animalScores (aggregated (elements input)) = []).
Proof.
  intros H. apply calculateResult_Return in H. destruct H as [_ ->].
  rewrite sortBy_nil.
  rewrite <- (ownEntries_nil _ (animalScores (aggregated (elements input)))).
  destruct (ownEntries (animalScores (aggregated (elements input)))); simpl;
    split; auto; discriminate.
Qed.

Lemma getResultWithSecondary_Throw this scores :
  ((exists e, getResultWithSecondary this scores = Throw e) <-> scores = [])
  /\ (forall e, getResultWithSecondary this scores = Throw e -> e = ErrNoScores).
Proof.
  split.
  - destruct scores; cbn [getResultWithSecondary]; split; eauto; try discriminate.
    intros (e & [=]).
  - destruct scores; cbn [getResultWithSecondary]; intros e [=]; auto.
Qed.

Lemma calculateResult_validated input :
  validateResponses input = Return tt ->
  exists scores, calculateResult input = Return scores.
Proof.
  intros H. eexists. apply calculateResult_Return. split; [exact H|reflexivity].
Qed.

Lemma calculateQuizResult_Return input config result :
  calculateQuizResult input config = Return result <->
  exists scores,
    calculateResult input = Return scores
    /\ getResultWithSecondary (configOf config) scores = Return result.
Proof.
  unfold calculateQuizResult. fold (configOf config).
  destruct (calculateResult input) as [scores|e]; cbn [bind].
  - split; [eauto|]. now intros (s & [= <-] & H).
  - split; [discriminate|]. intros (s & [=] & _).
Qed.

(** The outcomes of [calculateQuizResult]. *)
Lemma calculateQuizResult_cases input config :
  (exists e, validateResponses input = Throw e
             /\ calculateQuizResult input config = Throw e)
  \/ (validateResponses input = Return tt
      /\ (forall r, In r (elements input) -> ~ contributes r)
      /\ calculateResult input = Return []
      /\ calculateQuizResult input config = Throw ErrNoScores)
  \/ (validateResponses input = Return tt
      /\ (exists r, In r (elements input) /\ contributes r)
      /\ exists p rest result,
           calculateResult input = Return (p :: rest)
           /\ calculateQuizResult input config = Return result).
Proof.
  destruct (outcome_unit_cases (validateResponses input)) as [Hval|(e & Hval)].
  - right. destruct (calculateResult_validated input Hval) as (scores & Hres).
    destruct scores as [|p rest].
    + left. repeat split; auto.
      * apply aggregated_nil. now apply (calculateResult_nil _ _ Hres).
      * unfold calculateQuizResult. rewrite Hres. reflexivity.
    + right. split; [assumption|]. split.
      * destruct (animalScores (aggregated (elements input))) as [|[k t] l] eqn:E.
        { apply (calculateResult_nil _ _ Hres) in E. discriminate E. }
        assert (Hk : In k (map fst (animalScores (aggregated (elements input)))))
          by (rewrite E; now left).
        apply aggregated_keys in Hk. apply contributes_mentioned. eauto.
      * exists p, rest. unfold calculateQuizResult. rewrite Hres.
        cbn [bind getResultWithSecondary]. eauto.
  - left. exists e. split; [assumption|].
    unfold calculateQuizResult, calculateResult. rewrite Hval. reflexivity.
Qed.

(** C7.  The one response of [protoKey] passes validation, is neither
    "skip" nor "unknown" and has a points mapping that is not empty; the
    score list of [calculateResult] is empty all the same, and
    [calculateQuizResult] throws the no-scores error: the key [__proto__]
    is never stored in [animalScores]. *)
Theorem proto_key_leaves_no_scores :
  validateResponses protoKey = Return tt
  /\ ~ (forall r, In r (elements protoKey) ->
                  skipOrUnknown r \/ pointsMapping r = [])
  /\ calculateResult protoKey = Return []
  /\ getResultWithSecondary DEFAULT_CONFIG [] = Throw ErrNoScores
  /\ calculateQuizResult protoKey None = Throw ErrNoScores.
Proof.
  split; [reflexivity|]. split.
  - intros H. destruct (H _ (or_introl eq_refl)) as [[E|E]|E]; discriminate E.
  - repeat split; vm_compute; reflexivity.
Qed.

(** C10.  [protoKey] passes validation and holds a response that is
    neither "skip" nor "unknown" and whose points mapping is not empty,
    yet [calculateQuizResult] throws the no-scores error for it, whatever
    the configuration. *)
Theorem proto_key_gets_no_result (config : option ScoringConfig) :
  validateResponses protoKey = Return tt
  /\ (exists r, In r (elements protoKey) /\ hasPoints r)
  /\ calculateQuizResult protoKey config = Throw ErrNoScores.
Proof.
  split; [reflexivity|]. split.
  - eexists. split; [now left|]. split; [|discriminate].
    intros [E|E]; discriminate E.
  - unfold calculateQuizResult.
    assert (E : calculateResult protoKey = Return []) by (vm_compute; reflexivity).
    rewrite E. reflexivity.
Qed.


(* ================================================================== *)
(** ** Sample results *)

(** The two scenarios evaluate as the design document says. *)
Example scenario1_result :
  calculateQuizResult scenario1 None
  = Return {| primary := {| animalName := "wolf"; totalPoints := Fin 100;
                            categoryBreakdown := EmptyObject;
                            confidence := Fin 1 |};
              secondary := None;
              confidenceLevel := HIGH;
              totalQuestionsAnswered := Fin 15;
              skippedQuestions := Fin 0 |}.
Proof.
  vm_compute. reflexivity.
Qed.

Example scenario2_result :
  calculateQuizResult scenario2 None
  = Return {| primary := {| animalName := "fox"; totalPoints := Fin 10;
                            categoryBreakdown := EmptyObject;
                            confidence := Fin (1 # 2) |};
              secondary := Some {| animalName := "wolf"; totalPoints := Fin 8;
                                   categoryBreakdown := EmptyObject;
                                   confidence := Fin (1 # 2) |};
              confidenceLevel := LOW;
              totalQuestionsAnswered := Fin 8;
              skippedQuestions := Fin 7 |}.
Proof.
  vm_compute. reflexivity.
Qed.

(** The defaults are the binary64 values of the literals. *)
Example DEFAULT_CONFIG_literals :
  round64 (7 # 10) = Fin (secondaryAnimalThreshold DEFAULT_CONFIG)
  /\ round64 1 = Fin (high (confidenceThresholds DEFAULT_CONFIG))
  /\ round64 (6 # 10) = Fin (medium (confidenceThresholds DEFAULT_CONFIG))
  /\ round64 (1 # 100) = Fin (secondaryAnimalThreshold onePercent).
Proof.
  repeat split; vm_compute; reflexivity.
Qed.

(** [Object.entries] lists index keys first. *)
Example ownEntries_order :
  map fst (ownEntries [("wolf", 1); ("7", 2); ("fox", 3); ("3", 4); ("07", 5)])
  = ["3"; "7"; "wolf"; "fox"; "07"].
Proof.
  reflexivity.
Qed.

(** An archetype under the name of an inherited method gets the total
    [NaN], and stays where the sort found it. *)
Example constructorKey_result :
  calculateResult constructorKey
  = Return [{| animalName := "constructor"; totalPoints := NaN;
               categoryBreakdown := InheritedProperty "constructor";
               confidence := Fin (3602879701896397 # 36028797018963968) |};
            {| animalName := "wolf"; totalPoints := Fin 3;
               categoryBreakdown := EmptyObject;
               confidence := Fin (3602879701896397 # 36028797018963968) |}].
Proof.
  vm_compute. reflexivity.
Qed.

(* ================================================================== *)
(** ** The confidence classifier *)

(** C3. [calculateConfidence] is total and reads its rules top to bottom:
    'high' when the primary's factor reaches the high threshold and the
    score difference is at least 20; otherwise 'medium' when the factor
    reaches the medium threshold and the difference is at least 10;
    otherwise 'low'.  The difference is the primary's total minus the
    secondary's, or the primary's own total without a secondary. *)
Theorem calculateConfidence_classification (this : ScoringConfig)
    (p : SpiritAnimalScore) (candidate : option SpiritAnimalScore) :
  let isHigh := Nle (Fin (high (confidenceThresholds this))) (confidence p)
                /\ Nle (Fin 20) (scoreDifference p candidate) in
  let isMedium := Nle (Fin (medium (confidenceThresholds this))) (confidence p)
                  /\ Nle (Fin 10) (scoreDifference p candidate) in
  (isHigh -> calculateConfidence this p candidate = HIGH)
  /\ (~ isHigh -> isMedium -> calculateConfidence this p candidate = MEDIUM)
  /\ (~ isHigh -> ~ isMedium -> calculateConfidence this p candidate = LOW)
  /\ (calculateConfidence this p candidate = HIGH
      \/ calculateConfidence this p candidate = MEDIUM
      \/ calculateConfidence this p candidate = LOW)
  /\ (candidate = None -> scoreDifference p candidate = totalPoints p)
  /\ (forall s, candidate = Some s ->
        scoreDifference p candidate = sub (totalPoints p) (totalPoints s)).
Proof.
  intros isHigh isMedium.
  unfold calculateConfidence. fold (scoreDifference p candidate).
  assert (Hh : leb (Fin (high (confidenceThresholds this))) (confidence p)
               && leb (Fin 20) (scoreDifference p candidate) = true <-> isHigh).
  { unfold isHigh, Nle. now rewrite andb_true_iff. }
  assert (Hm : leb (Fin (medium (confidenceThresholds this))) (confidence p)
               && leb (Fin 10) (scoreDifference p candidate) = true <-> isMedium).
  { unfold isMedium, Nle. now rewrite andb_true_iff. }
  destruct (leb (Fin (high (confidenceThresholds this))) (confidence p)
            && leb (Fin 20) (scoreDifference p candidate));
    destruct (leb (Fin (medium (confidenceThresholds this))) (confidence p)
              && leb (Fin 10) (scoreDifference p candidate));
    repeat split; auto; intros;
    try (exfalso; intuition congruence);
    try (subst candidate; reflexivity).
Qed.

(** The boundary cases of the design document, with the default
    thresholds: gap 20 and gap 19 at factor 1.0, gap 10 and gap 9 at
    factor 0.6, and a factor below 0.6. *)
Lemma calculateConfidence_classification_witness :
  let score n c := {| animalName := "a"; totalPoints := whole n;
                      categoryBreakdown := EmptyObject; confidence := c |} in
  calculateConfidence DEFAULT_CONFIG (score 50%Z (Fin 1)) (Some (score 30%Z (Fin 1)))
  = HIGH
  /\ calculateConfidence DEFAULT_CONFIG (score 49%Z (Fin 1)) (Some (score 30%Z (Fin 1)))
     = MEDIUM
  /\ calculateConfidence DEFAULT_CONFIG (score 40%Z (factorOf 6))
       (Some (score 30%Z (factorOf 6))) = MEDIUM
  /\ calculateConfidence DEFAULT_CONFIG (score 39%Z (factorOf 6))
       (Some (score 30%Z (factorOf 6))) = LOW
  /\ calculateConfidence DEFAULT_CONFIG (score 100%Z (factorOf 5)) None = LOW.
Proof.
  intros score.
  split.
  { apply (calculateConfidence_classification DEFAULT_CONFIG
             (score 50%Z (Fin 1)) (Some (score 30%Z (Fin 1)))).
    split; vm_compute; reflexivity. }
  repeat split; vm_compute; reflexivity.
Defined.

(* ================================================================== *)
(** ** The result assembler *)

Lemma exactRound_comp x y : x == y -> exactRound x = exactRound y.
Proof.
  intros E. unfold exactRound.
  apply Z.le_antisymm; apply Qfloor_resp_le; rewrite E; apply Qle_refl.
Qed.

Lemma exactFactorOf_saturated n : (10 <= n)%nat -> exactFactorOf n == 1.
Proof.
  intros H. unfold exactFactorOf. apply Q.min_r.
  apply Qle_shift_div_l; [reflexivity|].
  change (1 * 10) with (inject_Z 10). rewrite <- Zle_Qle. lia.
Qed.

(** What an assembled result shows for each damping factor; the exact
    values agree with those of binary64 arithmetic. *)
Lemma shown_table n :
  answeredShown n = whole (exactAnswered n)
  /\ skippedShown n = whole (15 - exactAnswered n)
  /\ add (answeredShown n) (skippedShown n) = Fin 15
  /\ rateShown n = whole (exactRate n)
  /\ (0 <= exactAnswered n <= 15)%Z
  /\ (0 <= exactRate n <= 100)%Z
  /\ ((10 <= n)%nat -> exactAnswered n = 15%Z /\ exactRate n = 100%Z).
Proof.
  destruct (Nat.lt_ge_cases n 10) as [H|H].
  - do 10 (destruct n as [|n];
           [vm_compute; repeat split; try reflexivity; try discriminate;
            intros; lia|]).
    lia.
  - assert (Ef : factorOf n = factorOf 10).
    { rewrite (factorOf_saturated n H). vm_compute. reflexivity. }
    assert (Ea : exactAnswered n = exactAnswered 10).
    { unfold exactAnswered. apply exactRound_comp.
      rewrite (exactFactorOf_saturated n H), (exactFactorOf_saturated 10); [reflexivity|lia]. }
    assert (Er : exactRate n = exactRate 10) by (unfold exactRate; now rewrite Ea).
    unfold rateShown, skippedShown, answeredShown. rewrite Ef, Ea, Er.
    vm_compute. repeat split; try reflexivity; try discriminate.
Qed.

Lemma sub_whole a b :
  (Z.abs (a - b) <= 2 ^ 53)%Z -> sub (whole a) (whole b) = whole (a - b).
Proof.
  intros H. unfold sub. change (neg (whole b)) with (whole (- b)).
  rewrite add_whole; [reflexivity|]. now replace (a + - b)%Z with (a - b)%Z by lia.
Qed.

Lemma getResultWithSecondary_fields this p rest result :
  getResultWithSecondary this (p :: rest) = Return result ->
  primary result = p
  /\ confidenceLevel result = calculateConfidence this p (hd_error rest)
  /\ totalQuestionsAnswered result = mathRound (mul (confidence p) (Fin 15))
  /\ skippedQuestions result
     = sub (Fin 15) (mathRound (mul (confidence p) (Fin 15))).
Proof.
  intros H. cbn [getResultWithSecondary] in H. apply Return_inj in H.
  subst result. repeat split.
Qed.

Lemma assembled_counts this scores result :
  getResultWithSecondary this scores = Return result ->
  totalQuestionsAnswered result
  = mathRound (mul (confidence (primary result)) (Fin 15))
  /\ skippedQuestions result = sub (Fin 15) (totalQuestionsAnswered result)
  /\ (forall n,
        totalQuestionsAnswered result = whole n -> (Z.abs n <= 2 ^ 52)%Z ->
        skippedQuestions result = whole (15 - n)
        /\ add (totalQuestionsAnswered result) (skippedQuestions result) = Fin 15)
  /\ forall input,
       calculateResult input = Return scores ->
       totalQuestionsAnswered result = answeredShown (answeredCount (elements input))
       /\ skippedQuestions result = skippedShown (answeredCount (elements input)).
Proof.
  intros Hget.
  destruct scores as [|p rest]; [discriminate|].
  destruct (getResultWithSecondary_fields _ _ _ _ Hget) as (-> & _ & -> & ->).
  split; [reflexivity|]. split; [reflexivity|]. split.
  - intros n -> Hn.
    assert (H52 : (2 ^ 52 < 2 ^ 53)%Z) by (apply Z.pow_lt_mono_r; lia).
    assert (H15 : (15 < 2 ^ 52)%Z).
    { change 15%Z with (2 ^ 4 - 1)%Z.
      assert ((2 ^ 4 < 2 ^ 52)%Z) by (apply Z.pow_lt_mono_r; lia). lia. }
    change (Fin 15) with (whole 15).
    rewrite sub_whole by lia. split; [reflexivity|].
    rewrite add_whole by lia. f_equal. lia.
  - intros input Hres.
    destruct (calculateResult_score input (p :: rest) p Hres) as (Hc & _);
      [now left|].
    unfold skippedShown, answeredShown. fold (dampingFactor (elements input)).
    now rewrite Hc.
Qed.

(** C6. In an assembled result [totalQuestionsAnswered] is
    round(primary.confidence x 15) and [skippedQuestions] is 15 minus
    that number, so the two add up to 15 (as long as the first has at most
    52 bits, beyond which the subtraction rounds).  For a result of
    [calculateQuizResult] the first is round(dampingFactor x 15), with the
    same value in exact and in binary64 arithmetic: it depends on the
    damping factor alone, not on the number of responses supplied or
    answered. *)
Theorem assembled_question_counts (this : ScoringConfig)
    (scores : list SpiritAnimalScore) (result : QuizResult) :
  getResultWithSecondary this scores = Return result ->
  totalQuestionsAnswered result
  = mathRound (mul (confidence (primary result)) (Fin 15))
  /\ skippedQuestions result = sub (Fin 15) (totalQuestionsAnswered result)
  /\ (forall n,
        totalQuestionsAnswered result = whole n -> (Z.abs n <= 2 ^ 52)%Z ->
        skippedQuestions result = whole (15 - n)
        /\ add (totalQuestionsAnswered result) (skippedQuestions result) = Fin 15)
  /\ forall input,
       calculateResult input = Return scores ->
       let n := exactRound (exactDampingFactor (elements input) * 15) in
       totalQuestionsAnswered result = whole n
       /\ skippedQuestions result = whole (15 - n)
       /\ add (totalQuestionsAnswered result) (skippedQuestions result) = Fin 15
       /\ (0 <= n <= 15)%Z.
Proof.
  intros Hget.
  destruct (assembled_counts this scores result Hget) as (H1 & H2 & H3 & H4).
  split; [assumption|]. split; [assumption|]. split; [exact H3|].
  intros input Hres n. destruct (H4 input Hres) as [-> ->].
  change n with (exactAnswered (answeredCount (elements input))).
  destruct (shown_table (answeredCount (elements input)))
    as (T1 & T2 & T3 & _ & T5 & _).
  repeat split; try assumption; apply T5.
Qed.

(** Ten answered responses out of fifteen are reported as fifteen
    answered and none skipped. *)
Lemma assembled_question_counts_witness :
  exists scores result,
    calculateResult scenario1 = Return scores
    /\ getResultWithSecondary DEFAULT_CONFIG scores = Return result
    /\ answeredCount (elements scenario1) = 10%nat
    /\ List.length (elements scenario1) = 15%nat
    /\ totalQuestionsAnswered result = Fin 15
    /\ skippedQuestions result = Fin 0.
Proof.
  pose proof scenario1_result as E. apply calculateQuizResult_Return in E.
  destruct E as (scores & Hres & Hget).
  eexists scores, _. split; [exact Hres|]. split; [exact Hget|].
  destruct (assembled_question_counts _ _ _ Hget) as (_ & _ & _ & H).
  destruct (H scenario1 Hres) as (H1 & H2 & _).
  split; [vm_compute; reflexivity|]. split; [reflexivity|].
  split; [exact H1|exact H2].
Defined.


(* ================================================================== *)
(** ** The result ranker *)


Lemma mentioned_answered k rs : mentioned k rs -> (0 < answeredCount rs)%nat.
Proof.
  intros (r & Hin & Hs & _). unfold answeredCount.
  assert (H : In r (filter (fun r => negb (skipOrUnknownb r)) rs)).
  { apply filter_In. split; [assumption|]. now rewrite Hs. }
  destruct (filter (fun r => negb (skipOrUnknownb r)) rs); [destruct H|simpl; lia].
Qed.

Lemma dampingFactor_pos k rs :
  mentioned k rs -> exists f, dampingFactor rs = Fin f /\ 0 < f <= 1.
Proof.
  intros H. apply factorOf_pos. now apply (mentioned_answered k).
Qed.

(** The total of a record: [NaN] under an inherited name, and a whole
    number that is not negative, or [Infinity], under any other. *)
Lemma calculateResult_total input scores s :
  calculateResult input = Return scores -> In s scores ->
  (inheritedName (animalName s) = true /\ totalPoints s = NaN)
  \/ (inheritedName (animalName s) = false /\ roundedTotal (totalPoints s)).
Proof.
  intros Hres Hin.
  destruct (calculateResult_score _ _ _ Hres Hin) as (_ & Hm & Ho & Hi).
  destruct (inheritedName (animalName s)) eqn:E.
  - left. split; [reflexivity|]. now apply Hi.
  - right. split; [reflexivity|].
    destruct (Ho eq_refl) as (-> & Hraw & _).
    destruct (dampingFactor_pos _ _ Hm) as (f & -> & Hf).
    apply mathRound_rounded. apply mul_nonneg; [assumption|tauto].
Qed.



Lemma getResultWithSecondary_primary this p rest result :
  getResultWithSecondary this (p :: rest) = Return result ->
  primary result = p.
Proof.
  intros H. now destruct (getResultWithSecondary_fields _ _ _ _ H).
Qed.

Lemma getResultWithSecondary_secondary this p rest result s :
  getResultWithSecondary this (p :: rest) = Return result ->
  (secondary result = Some s <->
   hd_error rest = Some s
   /\ Nle (mul (totalPoints p) (Fin (secondaryAnimalThreshold this)))
          (totalPoints s)).
Proof.
  intros H. cbn [getResultWithSecondary] in H. apply Return_inj in H.
  subst result. cbn [secondary]. unfold Nle.
  destruct (hd_error rest) as [c|].
  - destruct (leb (mul (totalPoints p) (Fin (secondaryAnimalThreshold this)))
                (totalPoints c)) eqn:E.
    + split.
      * intros [= <-]. auto.
      * now intros [[= <-] _].
    + split; [discriminate|]. intros [[= <-] Hle]. congruence.
  - split; [discriminate|]. now intros [[=] _].
Qed.







(* ================================================================== *)
(** ** Damping and rounding *)












(* ================================================================== *)
(** ** Further properties: what the validator reports *)

Lemma forEachFrom_Throw (A : Type) (f : nat -> A -> Outcome unit) l i e :
  forEachFrom f i l = Throw e ->
  exists j x,
    nth_error l j = Some x
    /\ f (i + j)%nat x = Throw e
    /\ forall k y, (k < j)%nat -> nth_error l k = Some y ->
                   f (i + k)%nat y = Return tt.
Proof.
  revert i. induction l as [|x l IH]; intros i; cbn [forEachFrom].
  - discriminate.
  - destruct (f i x) as [[]|e'] eqn:E; cbn [bind].
    + intros H. destruct (IH _ H) as (j & y & Hn & Hf & Hbefore).
      exists (S j), y. rewrite Nat.add_succ_r. repeat split; auto.
      intros k z Hk Hz. destruct k as [|k]; simpl in Hz.
      * injection Hz as <-. now rewrite Nat.add_0_r.
      * rewrite Nat.add_succ_r. apply (Hbefore k z); [lia|assumption].
    + intros [= <-]. exists 0%nat, x. rewrite Nat.add_0_r.
      repeat split; auto. intros k y Hk. lia.
Qed.

Lemma forEachFrom_const_Throw (A : Type) (f : A -> Outcome unit) l i e :
  forEachFrom (fun _ => f) i l = Throw e -> exists x, In x l /\ f x = Throw e.
Proof.
  intros H. apply forEachFrom_Throw in H.
  destruct H as (j & x & Hn & Hf & _). exists x. split; auto.
  now apply nth_error_In in Hn.
Qed.

Lemma validatePoint_Throw index kv e :
  validatePoint index kv = Throw e ->
  e = ErrPointValue index (fst kv) /\ negativeOrNonNumeric (snd kv).
Proof.
  destruct kv as [animal value]. cbn [fst snd]. intros H.
  assert (Hbad : pointValueOkb value = false).
  { destruct (pointValueOkb value) eqn:E; [|reflexivity].
    apply (validatePoint_ok index (animal, value)) in E. congruence. }
  split; [|now apply negativeOrNonNumeric_iff].
  unfold validatePoint in H.
  destruct (negb (typeOf value =? "number")%string || Qltb (numberOf value) 0);
    congruence.
Qed.

Lemma getProp_nullish entry :
  (forall name, getProp entry name = Throw TypeErrorNullish) ->
  entry = JUndefined \/ entry = JNull.
Proof.
  intros H. specialize (H "questionId").
  destruct entry as [| |b|q|s|fields|elems]; auto; simpl in H;
    try discriminate.
  destruct (assocGet fields "questionId"); discriminate.
Qed.

Lemma getProp_not_nullish entry :
  (forall name, getProp entry name = Return (propOf entry name)) ->
  entry <> JUndefined /\ entry <> JNull.
Proof.
  intros H. specialize (H "questionId").
  split; intros ->; discriminate.
Qed.

Lemma validateResponse_Throw index entry e :
  validateResponse index entry = Throw e -> diagnoses e index entry.
Proof.
  unfold validateResponse, diagnoses.
  destruct (getProp_cases entry) as [Hget|Hget].
  - destruct (getProp_not_nullish entry Hget) as [Hu Hn].
    rewrite !Hget. cbn [bind].
    rewrite !guard_string, guard_object, includes_validOptions.
    destruct (nonEmptyStringb (propOf entry "questionId")) eqn:E1; cbn [negb].
    2:{ intros [= <-]. right; left. repeat split; auto.
        rewrite nonEmptyString_iff. congruence. }
    apply nonEmptyString_iff in E1.
    destruct (nonEmptyStringb (propOf entry "selectedOption")) eqn:E2;
      cbn [negb].
    2:{ intros [= <-]. do 2 right; left. repeat split; auto.
        rewrite nonEmptyString_iff. congruence. }
    apply nonEmptyString_iff in E2.
    destruct (allowedMarkerb (propOf entry "selectedOption")) eqn:E3;
      cbn [negb].
    2:{ intros [= <-]. do 3 right; left. repeat split; auto.
        rewrite allowedMarker_iff. congruence. }
    apply allowedMarker_iff in E3.
    destruct (isMappingb (propOf entry "points")) eqn:E4; cbn [negb].
    2:{ intros [= <-]. do 4 right; left. repeat split; auto.
        rewrite isMapping_iff. congruence. }
    apply isMapping_iff in E4.
    unfold forEach. intros H. apply forEachFrom_const_Throw in H.
    destruct H as ([animal value] & Hin & Hthrow).
    apply validatePoint_Throw in Hthrow. cbn [fst snd] in Hthrow.
    destruct Hthrow as [-> Hbad].
    do 5 right. exists animal, value. repeat split; auto.
  - rewrite !Hget. cbn [bind]. intros [= <-]. left. split; auto.
    now apply getProp_nullish.
Qed.

Lemma diagnoses_malformed e index entry :
  diagnoses e index entry -> malformedEntry entry.
Proof.
  unfold diagnoses, malformedEntry.
  intros [[_ [-> | ->]]|[H|[H|[H|[H|H]]]]].
  - left. intros (s & [=] & _).
  - left. intros (s & [=] & _).
  - left. tauto.
  - right; left. tauto.
  - do 2 right; left. tauto.
  - do 3 right; left. tauto.
  - do 4 right. destruct H as (animal & value & _ & _ & _ & _ & Hin & Hbad).
    eauto.
Qed.

Lemma diagnoses_index e index entry :
  diagnoses e index entry -> errorIndex e = Some index \/ e = TypeErrorNullish.
Proof.
  unfold diagnoses.
  intros [[-> _]|[[-> _]|[[-> _]|[[-> _]|[[-> _]|(a & v & -> & _)]]]]]; auto.
Qed.

(** X1. An error thrown for a non-empty array points at the first
    malformed entry: the entries before it are well formed, the error
    names the first check that this entry fails, and, unless it is the
    [TypeError] of a [null] or [undefined] entry, it carries the index of
    the entry. *)
Theorem validateResponses_first_offender (elems : list JsValue) (e : JsError) :
  elems <> [] ->
  validateResponses (JArr elems) = Throw e ->
  exists i entry,
    nth_error elems i = Some entry
    /\ diagnoses e i entry
    /\ malformedEntry entry
    /\ (errorIndex e = Some i \/ e = TypeErrorNullish)
    /\ forall j earlier, (j < i)%nat -> nth_error elems j = Some earlier ->
                         ~ malformedEntry earlier.
Proof.
  intros Hne H. unfold validateResponses in H. cbn [isArray negb elements] in H.
  destruct elems as [|x l]; [now elim Hne|].
  cbn [List.length Nat.eqb] in H. unfold forEach in H.
  apply forEachFrom_Throw in H.
  destruct H as (i & entry & Hn & Hthrow & Hbefore).
  apply validateResponse_Throw in Hthrow. cbn [Nat.add] in Hthrow.
  exists i, entry. split; [assumption|]. split; [assumption|].
  split; [eapply diagnoses_malformed; eassumption|].
  split; [eapply diagnoses_index; eassumption|].
  intros j earlier Hj Hje Hbad.
  apply malformedEntry_iff in Hbad.
  specialize (Hbefore j earlier Hj Hje). apply validateResponse_ok in Hbefore.
  congruence.
Qed.

Lemma validateResponses_first_offender_witness :
  let elems := [mkResponse "q1" "A" [("wolf", 3)];
                mkResponse "q2" "B" [("fox", -2 # 1)];
                mkResponse "" "Z" []] in
  exists i entry,
    nth_error elems i = Some entry
    /\ diagnoses (ErrPointValue 1 "fox") i entry
    /\ malformedEntry entry
    /\ (errorIndex (ErrPointValue 1 "fox") = Some i
        \/ ErrPointValue 1 "fox" = TypeErrorNullish)
    /\ forall j earlier, (j < i)%nat -> nth_error elems j = Some earlier ->
                         ~ malformedEntry earlier.
Proof.
  intros elems.
  apply (validateResponses_first_offender elems (ErrPointValue 1 "fox")).
  - discriminate.
  - reflexivity.
Defined.


(* ================================================================== *)
(** ** Further properties: bounds and outcomes of the engine *)













Lemma calculateQuizResult_outcomes_core (input : JsValue)
    (config : option ScoringConfig) :
  ((exists result, calculateQuizResult input config = Return result) <->
   validateResponses input = Return tt
   /\ exists r, In r (elements input) /\ contributes r)
  /\ (forall e, validateResponses input = Throw e ->
                calculateQuizResult input config = Throw e)
  /\ (forall e, calculateQuizResult input config = Throw e ->
                validateResponses input = Throw e
                \/ (validateResponses input = Return tt
                    /\ e = ErrNoScores
                    /\ forall r, In r (elements input) -> ~ contributes r)).
Proof.
  destruct (calculateQuizResult_cases input config)
    as [(e0 & Hval & Hq)|[(Hval & Hnone & _ & Hq)|(Hval & Hsome & p & rest & result & _ & Hq)]].
  - rewrite Hq, Hval. split; [|split].
    + split; [intros (? & [=])|intros [[=] _]].
    + intros e [= <-]. reflexivity.
    + intros e [= <-]. now left.
  - rewrite Hq, Hval. split; [|split].
    + split; [intros (? & [=])|].
      intros (_ & r & Hin & Hc). destruct (Hnone r Hin Hc).
    + discriminate.
    + intros e [= <-]. right. auto.
  - rewrite Hq, Hval. split; [|split].
    + split; [intros _; split; [reflexivity|exact Hsome]|].
      intros _. now exists result.
    + discriminate.
    + discriminate.
Qed.

(** X4. The three outcomes of [calculateQuizResult]: it returns a result
    exactly when the input passes validation and some response
    contributes; it throws the validator's error when validation fails;
    and it throws the no-scores error when the input is valid and no
    response contributes.  It throws nothing else. *)
Theorem calculateQuizResult_outcomes (input : JsValue)
    (config : option ScoringConfig) :
  ((exists result, calculateQuizResult input config = Return result) <->
   validateResponses input = Return tt
   /\ exists r, In r (elements input) /\ contributes r)
  /\ (forall e, validateResponses input = Throw e ->
                calculateQuizResult input config = Throw e)
  /\ (forall e, calculateQuizResult input config = Throw e ->
                validateResponses input = Throw e
                \/ (validateResponses input = Return tt
                    /\ e = ErrNoScores
                    /\ forall r, In r (elements input) -> ~ contributes r)).
Proof.
  exact (calculateQuizResult_outcomes_core input config).
Qed.

Lemma calculateQuizResult_outcomes_witness :
  (exists result, calculateQuizResult scenario2 None = Return result)
  /\ calculateQuizResult (JArr [mkResponse "" "A" []]) None
     = Throw (ErrQuestionId 0)
  /\ (validateResponses protoKey = Return tt
      /\ forall r, In r (elements protoKey) -> ~ contributes r).
Proof.
  split; [|split].
  - apply (calculateQuizResult_outcomes scenario2 None).
    split; [vm_compute; reflexivity|].
    exists (mkResponse "q" "A" [("fox", 4); ("wolf", 3)]). split.
    + left. reflexivity.
    + apply contributes_iff. split; [reflexivity|].
      exists "fox". split; [vm_compute; auto|discriminate].
  - apply (calculateQuizResult_outcomes (JArr [mkResponse "" "A" []]) None).
    vm_compute. reflexivity.
  - destruct (proj2 (proj2 (calculateQuizResult_outcomes protoKey None))
               ErrNoScores) as [H|(Hv & _ & Hall)].
    + vm_compute. reflexivity.
    + discriminate H.
    + split; [exact Hv|exact Hall].
Defined.

(* ================================================================== *)
(** ** Further properties: whole points add up exactly *)









(* ================================================================== *)
(** ** Further properties: the order of the responses *)














(* ================================================================== *)
(** ** Further properties: the configuration *)

(** X6. Updates of the configuration compose key by key, the later one
    winning; an update without keys changes nothing, and [getConfig]
    returns what was set.  A key that an update does not give keeps its
    value. *)
Theorem updateConfig_composes (this : ScoringConfig) (a b : PartialScoringConfig) :
  updateConfig (updateConfig this a) b = updateConfig this (thenGiven a b)
  /\ updateConfig this {| givenSecondaryAnimalThreshold := None;
                          givenConfidenceThresholds := None |} = this
  /\ getConfig (updateConfig this a) = updateConfig this a
  /\ (givenSecondaryAnimalThreshold a = None ->
      secondaryAnimalThreshold (updateConfig this a)
      = secondaryAnimalThreshold this)
  /\ (givenConfidenceThresholds a = None ->
      confidenceThresholds (updateConfig this a) = confidenceThresholds this).
Proof.
  destruct this as [t c], a as [[ta|] [ca|]], b as [[tb|] [cb|]];
    repeat split; intros; try discriminate; reflexivity.
Qed.


Lemma mul_threshold_mono x t0 t y :
  x = NaN \/ roundedTotal x ->
  t0 <= t ->
  (x = PosInfinity -> ~ t0 == 0) ->
  Nle (mul x (Fin t)) y -> Nle (mul x (Fin t0)) y.
Proof.
  intros [->|[->|(n & Hn & ->)]] Ht Hinf Hle.
  - destruct (proj1 (Nle_not_NaN _ _ Hle)). reflexivity.
  - specialize (Hinf eq_refl).
    pose proof (proj2 (Nle_not_NaN _ _ Hle)) as Hy.
    unfold mul, infinityOfSign in *.
    destruct (Qcompare_spec t0 0) as [E|L|G]; [contradiction| |].
    + destruct y; try reflexivity. now destruct Hy.
    + destruct (Qcompare_spec t 0) as [E'|L'|G']; [lra|lra|exact Hle].
  - apply Nle_trans with (mul (whole n) (Fin t)); [|exact Hle].
    unfold whole. cbn [mul]. apply round64_mono.
    assert (H0 : 0 <= inject_Z n).
    { change 0 with (inject_Z 0). now rewrite <- Zle_Qle. }
    nra.
Qed.

(** X7. Raising the secondary threshold with [updateConfig] can hide
    the secondary and does nothing else: for the same responses the
    updated calculator returns the same primary, confidence label and
    question counts, and a secondary that it shows is the one that the
    calculator showed before the update.  The one exception is a primary
    whose total has overflowed to [Infinity] under a threshold of 0,
    where the product is [NaN]. *)
Theorem raising_threshold_hides_only (input : JsValue) (this : ScoringConfig)
    (t : Q) (result : QuizResult) :
  secondaryAnimalThreshold this <= t ->
  calculateQuizResult input (Some this) = Return result ->
  (totalPoints (primary result) = PosInfinity ->
   ~ secondaryAnimalThreshold this == 0) ->
  exists result',
    calculateQuizResult input
      (Some (updateConfig this {| givenSecondaryAnimalThreshold := Some t;
                                  givenConfidenceThresholds := None |}))
    = Return result'
    /\ primary result' = primary result
    /\ confidenceLevel result' = confidenceLevel result
    /\ totalQuestionsAnswered result' = totalQuestionsAnswered result
    /\ skippedQuestions result' = skippedQuestions result
    /\ forall s, secondary result' = Some s -> secondary result = Some s.
Proof.
  intros Ht H Hinf. apply calculateQuizResult_Return in H.
  destruct H as (scores & Hres & Hget). cbn [configOf] in Hget.
  destruct scores as [|p rest]; [discriminate|].
  pose proof (getResultWithSecondary_primary _ _ _ _ Hget) as Hp.
  set (this' := updateConfig this _).
  destruct (getResultWithSecondary this' (p :: rest))
    as [result'|e] eqn:Hget'; [|discriminate].
  exists result'. split.
  { apply calculateQuizResult_Return. eexists. split; eassumption. }
  pose proof (fun s => getResultWithSecondary_secondary _ _ _ _ s Hget') as Hs'.
  pose proof (fun s => getResultWithSecondary_secondary _ _ _ _ s Hget) as Hs.
  pose proof (getResultWithSecondary_primary _ _ _ _ Hget') as Hp'.
  destruct (getResultWithSecondary_fields _ _ _ _ Hget) as (_ & Hl & Ha & Hk).
  destruct (getResultWithSecondary_fields _ _ _ _ Hget') as (_ & Hl' & Ha' & Hk').
  split; [congruence|]. split; [rewrite Hl, Hl'; reflexivity|].
  split; [congruence|]. split; [congruence|].
  intros s Hsome. apply Hs. apply Hs' in Hsome.
  destruct Hsome as [Hhd Hle]. split; [assumption|].
  unfold this' in Hle. cbn in Hle.
  apply (mul_threshold_mono _ _ t); try assumption.
  - destruct (calculateResult_total input (p :: rest) p Hres (or_introl eq_refl))
      as [[_ E]|[_ E]]; [now left|now right].
  - now rewrite <- Hp.
Qed.

Lemma raising_threshold_hides_only_witness :
  exists result result',
    calculateQuizResult scenario2 (Some DEFAULT_CONFIG) = Return result
    /\ secondary result <> None
    /\ calculateQuizResult scenario2
         (Some (updateConfig DEFAULT_CONFIG
                  {| givenSecondaryAnimalThreshold := Some (9 # 10);
                     givenConfidenceThresholds := None |}))
       = Return result'
    /\ primary result' = primary result
    /\ confidenceLevel result' = confidenceLevel result
    /\ totalQuestionsAnswered result' = totalQuestionsAnswered result
    /\ skippedQuestions result' = skippedQuestions result
    /\ forall s, secondary result' = Some s -> secondary result = Some s.
Proof.
  pose proof scenario2_result as E.
  assert (Ht : secondaryAnimalThreshold DEFAULT_CONFIG <= 9 # 10)
    by (vm_compute; discriminate).
  destruct (raising_threshold_hides_only scenario2 DEFAULT_CONFIG (9 # 10)
              _ Ht E) as (result' & Hq & H).
  - discriminate.
  - eexists. exists result'. split; [exact E|].
    split; [discriminate|]. split; [exact Hq|exact H].
Defined.

(** With a threshold of 0 and totals that have overflowed, the product
    is [NaN] and no secondary is shown; raising the threshold shows
    one. *)
Example raising_threshold_at_infinity :
  exists result result',
    calculateQuizResult overflowing (Some zeroThreshold) = Return result
    /\ totalPoints (primary result) = PosInfinity
    /\ secondary result = None
    /\ calculateQuizResult overflowing
         (Some (updateConfig zeroThreshold
                  {| givenSecondaryAnimalThreshold := Some (1 # 2);
                     givenConfidenceThresholds := None |}))
       = Return result'
    /\ secondary result' <> None.
Proof.
  do 2 eexists.
  split; [vm_compute; reflexivity|].
  split; [reflexivity|]. split; [reflexivity|].
  split; [vm_compute; reflexivity|]. discriminate.
Qed.

(* ================================================================== *)
(** ** Further properties: reliability and the completion rate *)

Lemma isResultReliable_level result :
  isResultReliable result = true <-> confidenceLevel result <> LOW.
Proof.
  unfold isResultReliable. destruct (confidenceLevel result); simpl;
    split; intros; try discriminate; try reflexivity; try congruence.
Qed.

(** [calculateConfidence] answers [LOW] exactly when neither rule
    applies. *)
Lemma calculateConfidence_not_LOW this p candidate :
  calculateConfidence this p candidate <> LOW <->
  (Nle (Fin (high (confidenceThresholds this))) (confidence p)
   /\ Nle (Fin 20) (scoreDifference p candidate))
  \/ (Nle (Fin (medium (confidenceThresholds this))) (confidence p)
      /\ Nle (Fin 10) (scoreDifference p candidate)).
Proof.
  unfold calculateConfidence, Nle.
  change (match candidate with
          | Some s => sub (totalPoints p) (totalPoints s)
          | None => totalPoints p
          end) with (scoreDifference p candidate).
  rewrite <- !andb_true_iff.
  destruct (leb (Fin (high (confidenceThresholds this))) (confidence p)
            && leb (Fin 20) (scoreDifference p candidate));
    destruct (leb (Fin (medium (confidenceThresholds this))) (confidence p)
              && leb (Fin 10) (scoreDifference p candidate));
    split; intros H; try discriminate; auto;
    try (destruct H as [H|H]; discriminate H); now destruct H.
Qed.

Lemma small_lead p candidate :
  Nlt p (Fin 10) -> roundedTotal p ->
  candidate = NaN \/ roundedTotal candidate ->
  ~ Nle (Fin 10) (sub p candidate).
Proof.
  intros Hlt [->|(n & Hn & ->)] Hc; [discriminate Hlt|].
  apply Nlt_whole in Hlt.
  destruct Hc as [->|[->|(m & Hm & ->)]]; [discriminate|discriminate|].
  intros H.
  assert (Hle : Nle (sub (whole n) (whole m)) (Fin 9)).
  { unfold sub, whole, neg, add.
    replace (Fin 9) with (round64 9) by (vm_compute; reflexivity).
    apply round64_mono. rewrite <- inject_Z_opp, <- inject_Z_plus.
    change 9 with (inject_Z 9). rewrite <- Zle_Qle. lia. }
  pose proof (Nle_trans _ _ _ H Hle) as Habs. discriminate Habs.
Qed.

(** X8. A result of [calculateQuizResult] is reliable exactly when the
    damping factor reaches the high threshold with the primary at least
    20 points ahead of the runner-up, or reaches the medium threshold with
    a lead of at least 10; the runner-up counts even when the result does
    not show it as secondary.  A primary with fewer than 10 points is
    never reliable, whatever the configuration. *)
Theorem isResultReliable_iff (input : JsValue) (config : option ScoringConfig)
    (result : QuizResult) :
  calculateQuizResult input config = Return result ->
  exists scores,
    calculateResult input = Return scores
    /\ let factor := dampingFactor (elements input) in
       let lead := scoreDifference (primary result) (nth_error scores 1) in
       let cutoffs := confidenceThresholds (configOf config) in
       (isResultReliable result = true <->
        (Nle (Fin (high cutoffs)) factor /\ Nle (Fin 20) lead)
        \/ (Nle (Fin (medium cutoffs)) factor /\ Nle (Fin 10) lead))
       /\ (Nlt (totalPoints (primary result)) (Fin 10) ->
           isResultReliable result = false).
Proof.
  intros H. apply calculateQuizResult_Return in H.
  destruct H as (scores & Hres & Hget). exists scores.
  split; [assumption|].
  destruct scores as [|p rest]; [discriminate|].
  rewrite (getResultWithSecondary_primary _ _ _ _ Hget).
  destruct (getResultWithSecondary_fields _ _ _ _ Hget) as (_ & Hl & _ & _).
  destruct (calculateResult_score input (p :: rest) p Hres (or_introl eq_refl))
    as (Hc & _).
  replace (nth_error (p :: rest) 1) with (hd_error rest)
    by (destruct rest; reflexivity).
  cbv zeta. rewrite <- Hc.
  assert (Hiff : isResultReliable result = true <->
                 (Nle (Fin (high (confidenceThresholds (configOf config))))
                      (confidence p)
                  /\ Nle (Fin 20) (scoreDifference p (hd_error rest)))
                 \/ (Nle (Fin (medium (confidenceThresholds (configOf config))))
                         (confidence p)
                     /\ Nle (Fin 10) (scoreDifference p (hd_error rest)))).
  { rewrite isResultReliable_level, Hl. apply calculateConfidence_not_LOW. }
  split; [exact Hiff|].
  intros Hsmall. apply not_true_iff_false. rewrite Hiff.
  assert (Hp : roundedTotal (totalPoints p)).
  { destruct (calculateResult_total input (p :: rest) p Hres (or_introl eq_refl))
      as [[_ E]|[_ E]]; [|exact E].
    rewrite E in Hsmall. discriminate Hsmall. }
  assert (Hlead : ~ Nle (Fin 10) (scoreDifference p (hd_error rest))).
  { unfold scoreDifference. destruct rest as [|c rest']; cbn [hd_error].
    - intros H. pose proof (Nle_Nlt_trans _ _ _ H Hsmall) as Habs.
      discriminate Habs.
    - apply small_lead; [assumption|assumption|].
      destruct (calculateResult_total input (p :: c :: rest') c Hres)
        as [[_ E]|[_ E]]; [right; now left|now left|now right]. }
  intros [[_ Hh]|[_ Hm]]; [|contradiction].
  apply Hlead. apply Nle_trans with (Fin 20); [|exact Hh].
  apply Nle_Fin. lra.
Qed.

Lemma isResultReliable_iff_witness :
  exists result scores,
    calculateQuizResult scenario1 None = Return result
    /\ calculateResult scenario1 = Return scores
    /\ (isResultReliable result = true <->
        (Nle (Fin (high (confidenceThresholds DEFAULT_CONFIG)))
             (dampingFactor (elements scenario1))
         /\ Nle (Fin 20) (scoreDifference (primary result) (nth_error scores 1)))
        \/ (Nle (Fin (medium (confidenceThresholds DEFAULT_CONFIG)))
                (dampingFactor (elements scenario1))
            /\ Nle (Fin 10)
                   (scoreDifference (primary result) (nth_error scores 1))))
    /\ (Nlt (totalPoints (primary result)) (Fin 10) ->
        isResultReliable result = false).
Proof.
  pose proof scenario1_result as E.
  destruct (isResultReliable_iff scenario1 None _ E) as (scores & Hres & H).
  eexists. exists scores. split; [exact E|]. split; [exact Hres|exact H].
Defined.

(** X9. The completion rate that the result page prints never divides
    by zero: the two counts of an assembled result add up to 15, and the
    rate is round(totalQuestionsAnswered / 15 x 100), between 0 and 100
    for a result of [calculateQuizResult].  It is 100 as soon as ten
    responses are answered, however many were skipped. *)
Theorem completionRate_of_result (input : JsValue)
    (config : option ScoringConfig) (result : QuizResult) :
  calculateQuizResult input config = Return result ->
  exists a n,
    totalQuestionsAnswered result = whole a
    /\ add (totalQuestionsAnswered result) (skippedQuestions result) = Fin 15
    /\ completionRate result = whole n
    /\ n = exactRound (inject_Z a / 15 * 100)
    /\ (0 <= n <= 100)%Z
    /\ ((10 <= answeredCount (elements input))%nat -> n = 100%Z).
Proof.
  intros H.
  apply calculateQuizResult_Return in H. destruct H as (scores & Hres & Hget).
  destruct (assembled_counts _ _ _ Hget) as (_ & _ & _ & Hd).
  destruct (Hd input Hres) as (Ha & Hs).
  destruct (shown_table (answeredCount (elements input)))
    as (Ta & Ts & Tsum & Tr & _ & Tb & Tten).
  exists (exactAnswered (answeredCount (elements input))),
         (exactRate (answeredCount (elements input))).
  split; [congruence|]. split; [rewrite Ha, Hs; exact Tsum|].
  split; [unfold completionRate; rewrite Ha, Hs; exact Tr|].
  split; [reflexivity|]. split; [exact Tb|].
  intros Hten. now apply Tten.
Qed.

Lemma completionRate_of_result_witness :
  exists result a n,
    calculateQuizResult scenario1 None = Return result
    /\ totalQuestionsAnswered result = whole a
    /\ add (totalQuestionsAnswered result) (skippedQuestions result) = Fin 15
    /\ completionRate result = whole n
    /\ n = exactRound (inject_Z a / 15 * 100)
    /\ (0 <= n <= 100)%Z
    /\ ((10 <= answeredCount (elements scenario1))%nat -> n = 100%Z).
Proof.
  pose proof scenario1_result as E.
  destruct (completionRate_of_result scenario1 None _ E) as (a & n & H).
  eexists. exists a, n. split; [exact E|exact H].
Defined.

(* ================================================================== *)
(** ** Further properties: looking a record up by name *)

Lemma lowerCodeUnit_idempotent c : lowerCodeUnit (lowerCodeUnit c) = lowerCodeUnit c.
Proof.
  destruct c as [[] [] [] [] [] [] [] []]; vm_compute; reflexivity.
Qed.

Lemma toLowerCase_idempotent s : toLowerCase (toLowerCase s) = toLowerCase s.
Proof.
  induction s as [|c s IH]; simpl; [reflexivity|].
  now rewrite lowerCodeUnit_idempotent, IH.
Qed.

Lemma getAnimalScore_Some scores name s :
  getAnimalScore scores name = Some s ->
  exists before after,
    scores = (before ++ s :: after)%list
    /\ sameNameIgnoringCase name s
    /\ forall x, In x before -> ~ sameNameIgnoringCase name x.
Proof.
  unfold getAnimalScore, sameNameIgnoringCase.
  induction scores as [|y l IH]; cbn [find]; [discriminate|].
  destruct (toLowerCase (animalName y) =? toLowerCase name)%string eqn:E.
  - intros [= <-]. exists [], l. apply String.eqb_eq in E.
    repeat split; auto; intros x [].
  - intros H. destruct (IH H) as (before & after & -> & Hs & Hb).
    exists (y :: before), after. repeat split; auto.
    intros x [<-|Hx]; [now apply String.eqb_neq in E|now apply Hb].
Qed.

Lemma getAnimalScore_None scores name :
  getAnimalScore scores name = None <->
  forall x, In x scores -> ~ sameNameIgnoringCase name x.
Proof.
  unfold getAnimalScore, sameNameIgnoringCase. split.
  - intros H x Hin. apply (find_none _ _ H) in Hin.
    now apply String.eqb_neq in Hin.
  - intros H. destruct (find _ scores) as [s|] eqn:E; [|reflexivity].
    apply find_some in E. destruct E as [Hin E].
    apply String.eqb_eq in E. now elim (H s Hin).
Qed.

(** X10. [getAnimalScore] ignores the case of the name it is given and
    of the names it searches: two names with the same lower-case form,
    such as a name and its own lower-case form, find the same record.  It
    returns the first record whose name agrees up to case, and
    [undefined] exactly when no record does. *)
Theorem getAnimalScore_ignores_case (scores : list SpiritAnimalScore)
    (name name' : string) :
  (toLowerCase name = toLowerCase name' ->
   getAnimalScore scores name = getAnimalScore scores name')
  /\ getAnimalScore scores (toLowerCase name) = getAnimalScore scores name
  /\ (forall s, getAnimalScore scores name = Some s ->
        exists before after,
          scores = (before ++ s :: after)%list
          /\ sameNameIgnoringCase name s
          /\ forall x, In x before -> ~ sameNameIgnoringCase name x)
  /\ (getAnimalScore scores name = None <->
      forall x, In x scores -> ~ sameNameIgnoringCase name x).
Proof.
  split; [|split; [|split]].
  - intros H. unfold getAnimalScore. now rewrite H.
  - unfold getAnimalScore. now rewrite toLowerCase_idempotent.
  - intros s. apply getAnimalScore_Some.
  - apply getAnimalScore_None.
Qed.

Lemma getAnimalScore_ignores_case_witness :
  let wolf := {| animalName := "Wolf"; totalPoints := Fin 8;
                 categoryBreakdown := EmptyObject; confidence := Fin 1 |} in
  let fox := {| animalName := "fox"; totalPoints := Fin 10;
                categoryBreakdown := EmptyObject; confidence := Fin 1 |} in
  getAnimalScore [fox; wolf] "WOLF" = Some wolf
  /\ getAnimalScore [fox; wolf] "WOLF" = getAnimalScore [fox; wolf] "wolf"
  /\ getAnimalScore [fox; wolf] "owl" = None.
Proof.
  intros wolf fox. split; [vm_compute; reflexivity|]. split.
  - apply (proj1 (getAnimalScore_ignores_case [fox; wolf] "WOLF" "wolf")).
    vm_compute. reflexivity.
  - vm_compute. reflexivity.
Defined.




(* ================================================================== *)
(** ** Further properties: the completion percentage *)

Lemma answeredCallback_Return r :
  ~ nullish r -> answeredCallback r = Return (isAnswered r).
Proof.
  intros Hr. unfold answeredCallback, isAnswered.
  destruct (getProp_cases r) as [Hget|Hget].
  - rewrite !Hget. cbn [bind].
    destruct (strictNeq (propOf r "selectedOption") "unknown"); reflexivity.
  - elim Hr. now apply getProp_nullish.
Qed.

Lemma answeredCallback_Throw r :
  nullish r -> answeredCallback r = Throw TypeErrorNullish.
Proof.
  intros [-> | ->]; reflexivity.
Qed.

Lemma nullish_dec r : {nullish r} + {~ nullish r}.
Proof.
  unfold nullish.
  destruct r; try (right; intros [H|H]; discriminate H); left; auto.
Qed.

Lemma filterThrowing_answered l :
  (forall r, In r l -> ~ nullish r) ->
  filterThrowing answeredCallback l = Return (filter isAnswered l).
Proof.
  induction l as [|x l IH]; intros H; cbn [filterThrowing filter].
  - reflexivity.
  - rewrite answeredCallback_Return by (apply H; now left).
    rewrite IH by (intros r Hr; apply H; now right).
    cbn [bind]. reflexivity.
Qed.

Lemma filterThrowing_nullish l :
  (exists r, In r l /\ nullish r) ->
  filterThrowing answeredCallback l = Throw TypeErrorNullish.
Proof.
  induction l as [|x l IH]; intros (r & Hin & Hr); [destruct Hin|].
  cbn [filterThrowing].
  destruct (nullish_dec x) as [Hx|Hx].
  - now rewrite answeredCallback_Throw.
  - rewrite answeredCallback_Return by assumption. cbn [bind].
    rewrite IH; [reflexivity|].
    destruct Hin as [<-|Hin]; [contradiction|eauto].
Qed.

Lemma validated_not_nullish responses r :
  validateResponses (JArr responses) = Return tt ->
  In r responses -> ~ nullish r.
Proof.
  intros Hval Hin Hr. apply validateResponses_ok in Hval.
  destruct Hval as (elems & [= <-] & _ & Hall).
  rewrite forallb_forall in Hall. specialize (Hall r Hin).
  destruct Hr as [-> | ->]; discriminate Hall.
Qed.

(** The value that [getCompletionPercentage] computes from the number of
    answered responses. *)
Lemma getCompletionPercentage_outcome_aux responses totalQuestions :
  ((exists r, In r responses /\ nullish r) ->
   getCompletionPercentage responses totalQuestions = Throw TypeErrorNullish)
  /\ ((forall r, In r responses -> ~ nullish r) ->
      getCompletionPercentage responses totalQuestions
      = Return (mathRound
                  (mul (div (ofNat (answeredCount responses))
                            (Fin (totalOr15 totalQuestions)))
                       (Fin 100)))).
Proof.
  split.
  - intros H. unfold getCompletionPercentage.
    now rewrite (filterThrowing_nullish _ H).
  - intros H. unfold getCompletionPercentage.
    rewrite (filterThrowing_answered _ H). cbn [bind].
    now rewrite answeredQuestions_count.
Qed.

Lemma default_percentage_exact n :
  (n <= 15)%nat ->
  mathRound (mul (div (ofNat n) (Fin 15)) (Fin 100))
  = whole (exactRound (inject_Z (Z.of_nat n) / 15 * 100)).
Proof.
  intros H.
  do 16 (destruct n as [|n]; [vm_compute; reflexivity|]).
  lia.
Qed.

(** X12. [getCompletionPercentage] does not validate what it is given:
    it throws a [TypeError] exactly when an element of the array is
    [null] or [undefined], and otherwise returns
    round(answeredCount / totalQuestions x 100) in the arithmetic of the
    language, where responses marked "skip" or "unknown" are not counted
    and a missing [totalQuestions] is 15.  On an array that passes
    [validateResponses] it never throws.  With the default of 15 and up
    to 15 answered responses the value is the one of exact arithmetic. *)
Theorem getCompletionPercentage_outcome (responses : list JsValue)
    (totalQuestions : option Q) :
  let percentage :=
    mathRound (mul (div (ofNat (answeredCount responses))
                        (Fin (totalOr15 totalQuestions)))
                   (Fin 100)) in
  ((exists r, In r responses /\ nullish r) ->
   getCompletionPercentage responses totalQuestions = Throw TypeErrorNullish)
  /\ ((forall r, In r responses -> ~ nullish r) ->
      getCompletionPercentage responses totalQuestions = Return percentage)
  /\ (validateResponses (JArr responses) = Return tt ->
      getCompletionPercentage responses totalQuestions = Return percentage)
  /\ (totalQuestions = None -> (answeredCount responses <= 15)%nat ->
      percentage
      = whole (exactRound
                 (inject_Z (Z.of_nat (answeredCount responses)) / 15 * 100))).
Proof.
  intros percentage.
  destruct (getCompletionPercentage_outcome_aux responses totalQuestions)
    as [Hthrow Hok].
  split; [exact Hthrow|]. split; [exact Hok|]. split.
  - intros Hval. apply Hok. intros r. now apply validated_not_nullish.
  - intros -> Hle. unfold percentage. cbn [totalOr15].
    now apply default_percentage_exact.
Qed.

Lemma getCompletionPercentage_outcome_witness :
  getCompletionPercentage [mkResponse "q1" "A" []; JNull] None
  = Throw TypeErrorNullish
  /\ getCompletionPercentage (elements scenario2) None = Return (Fin 33).
Proof.
  split.
  - apply (getCompletionPercentage_outcome [mkResponse "q1" "A" []; JNull] None).
    exists JNull. split; [right; now left|right; reflexivity].
  - rewrite (proj1 (proj2 (proj2 (getCompletionPercentage_outcome
                                    (elements scenario2) None))));
      [|vm_compute; reflexivity].
    vm_compute. reflexivity.
Defined.

(** Twenty-three answered responses of forty questions: the quotient
    rounds below 0.575 and the percentage is 57, where exact arithmetic
    gives 58. *)
Example completion_23_of_40 :
  getCompletionPercentage (repeat (mkResponse "q" "A" []) 23) (Some 40)
  = Return (Fin 57)
  /\ exactRound (23 / 40 * 100) = 58%Z.
Proof.
  split; vm_compute; reflexivity.
Qed.







(* ================================================================== *)
(** ** Further properties: the responses that the quiz flow records *)

Section StoreResponse.

Variables (index highest : nat).
Implicit Types (rs : list QuizFlow.QuestionResponse)
               (r : QuizFlow.QuestionResponse).

Lemma findIndex_Some (A : Type) (p : A -> bool) (l : list A) i :
  QuizFlow.findIndex p l = Some i ->
  exists before x after,
    l = (before ++ x :: after)%list /\ List.length before = i /\ p x = true
    /\ forall y, In y before -> p y = false.
Proof.
  revert i. induction l as [|y l IH]; intros i; cbn [QuizFlow.findIndex].
  - discriminate.
  - destruct (p y) eqn:E.
    + intros [= <-]. exists [], y, l. repeat split; auto. intros z [].
    + destruct (QuizFlow.findIndex p l) as [j|]; [|discriminate].
      intros [= <-]. destruct (IH j eq_refl) as (b & x & a & -> & Hlen & Hx & Hb).
      exists (y :: b), x, a. repeat split; auto.
      * simpl. now rewrite Hlen.
      * intros z [<-|Hz]; auto.
Qed.

Lemma findIndex_None (A : Type) (p : A -> bool) (l : list A) :
  QuizFlow.findIndex p l = None -> forall y, In y l -> p y = false.
Proof.
  induction l as [|x l IH]; cbn [QuizFlow.findIndex]; [intros _ y []|].
  destruct (p x) eqn:E; [discriminate|].
  destruct (QuizFlow.findIndex p l); [discriminate|].
  intros _ y [<-|Hy]; auto.
Qed.

Lemma replaceAt_middle (A : Type) (before after : list A) x y :
  QuizFlow.replaceAt (List.length before) y (before ++ x :: after)
  = (before ++ y :: after)%list.
Proof.
  induction before as [|b before IH]; simpl; [reflexivity|]. now rewrite IH.
Qed.

(** The two cases of [storeResponse]: the first response of the same
    question is replaced in place, or the new response is added last. *)
Lemma storeResponse_cases rs r :
  (exists before old after,
     rs = (before ++ old :: after)%list
     /\ QuizFlow.questionId old = QuizFlow.questionId r
     /\ (forall y, In y before ->
                   QuizFlow.questionId y <> QuizFlow.questionId r)
     /\ QuizFlow.storeResponse index highest rs r
        = ((before ++ r :: after)%list, false))
  \/ ((forall y, In y rs -> QuizFlow.questionId y <> QuizFlow.questionId r)
      /\ QuizFlow.storeResponse index highest rs r
         = ((rs ++ [r])%list, (highest <=? index)%nat)).
Proof.
  unfold QuizFlow.storeResponse.
  destruct (QuizFlow.findIndex _ rs) as [i|] eqn:E.
  - left. apply findIndex_Some in E.
    destruct E as (before & old & after & -> & <- & Hold & Hb).
    exists before, old, after. apply String.eqb_eq in Hold.
    repeat split; auto.
    + intros y Hy. apply String.eqb_neq. now apply Hb.
    + now rewrite replaceAt_middle.
  - right. split; [|reflexivity].
    intros y Hy. apply String.eqb_neq.
    now apply (findIndex_None _ _ _ E).
Qed.

End StoreResponse.

Lemma responseFor_app key l1 l2 :
  responseFor key (l1 ++ l2)
  = match responseFor key l1 with
    | Some r => Some r
    | None => responseFor key l2
    end.
Proof.
  unfold responseFor. induction l1 as [|x l1 IH]; simpl; [reflexivity|].
  destruct (QuizFlow.questionId x =? key)%string; auto.
Qed.

Lemma responseFor_none key l :
  (forall y, In y l -> QuizFlow.questionId y <> key) -> responseFor key l = None.
Proof.
  unfold responseFor. induction l as [|x l IH]; simpl; intros H; [reflexivity|].
  destruct (QuizFlow.questionId x =? key)%string eqn:E.
  - apply String.eqb_eq in E. now elim (H x (or_introl eq_refl)).
  - apply IH. intros y Hy. apply H. now right.
Qed.

Lemma responseFor_head key r l :
  responseFor key (r :: l)
  = if (QuizFlow.questionId r =? key)%string then Some r else responseFor key l.
Proof.
  reflexivity.
Qed.

(** X14. Storing a response is an insert-or-replace by question: the
    stored response is afterwards the one found for its question, the
    responses found for all other questions are unchanged, and the list
    grows by one when the question had no response and keeps its length
    otherwise.  The flag [isNewQuestion] is raised only for a question
    without a response. *)
Theorem storeResponse_upsert (index highest : nat)
    (rs : list QuizFlow.QuestionResponse) (r : QuizFlow.QuestionResponse) :
  let newResponses := fst (QuizFlow.storeResponse index highest rs r) in
  let isNewQuestion := snd (QuizFlow.storeResponse index highest rs r) in
  responseFor (QuizFlow.questionId r) newResponses = Some r
  /\ (forall key, key <> QuizFlow.questionId r ->
                  responseFor key newResponses = responseFor key rs)
  /\ List.length newResponses
     = match responseFor (QuizFlow.questionId r) rs with
       | Some _ => List.length rs
       | None => S (List.length rs)
       end
  /\ (isNewQuestion = true ->
      responseFor (QuizFlow.questionId r) rs = None
      /\ (highest <= index)%nat).
Proof.
  cbv zeta.
  destruct (storeResponse_cases index highest rs r)
    as [(before & old & after & -> & Hold & Hb & ->)|(Hnone & ->)];
    cbn [fst snd].
  - assert (Hbn : forall key, key = QuizFlow.questionId r ->
                    responseFor key before = None).
    { intros key ->. now apply responseFor_none. }
    repeat split.
    + rewrite responseFor_app, (Hbn _ eq_refl), responseFor_head.
      now rewrite String.eqb_refl.
    + intros key Hkey. rewrite !responseFor_app, !responseFor_head.
      destruct (responseFor key before); [reflexivity|].
      rewrite Hold.
      destruct (QuizFlow.questionId r =? key)%string eqn:E; [|reflexivity].
      apply String.eqb_eq in E. congruence.
    + rewrite responseFor_app, (Hbn _ eq_refl), responseFor_head, Hold.
      rewrite String.eqb_refl. rewrite !length_app. reflexivity.
    + discriminate.
    + discriminate.
  - pose proof (responseFor_none _ _ Hnone) as Hn.
    repeat split.
    + rewrite responseFor_app, Hn, responseFor_head.
      now rewrite String.eqb_refl.
    + intros key Hkey. rewrite responseFor_app, responseFor_head.
      destruct (responseFor key rs); [reflexivity|].
      destruct (QuizFlow.questionId r =? key)%string eqn:E; [|reflexivity].
      apply String.eqb_eq in E. congruence.
    + rewrite Hn, length_app. simpl. lia.
    + assumption.
    + now apply Nat.leb_le.
Qed.

(** X15. The handlers return early, and record nothing, exactly in a
    transition or, for an answer, when the chosen identifier is not an
    option of the question on screen.  Otherwise they store a response
    that carries the identifier of that question, and for an answer the
    chosen identifier with the points of the first option so named, for a
    skip the marker "skip" with an empty points mapping. *)
Theorem handlers_store (isTransitioning : bool) (q : QuizFlow.Question)
    (index highest : nat) (rs : list QuizFlow.QuestionResponse)
    (now : Q) (chosen : string) :
  (QuizFlow.handleAnswerSelect isTransitioning q index highest rs now chosen
   = None <->
   isTransitioning = true
   \/ forall opt, In opt (QuizFlow.options q) ->
                  QuizFlow.optionId opt <> chosen)
  /\ (forall out,
        QuizFlow.handleAnswerSelect isTransitioning q index highest rs now chosen
        = Some out ->
        exists opt before,
          In opt (QuizFlow.options q)
          /\ QuizFlow.optionId opt = chosen
          /\ (forall o, In o before -> QuizFlow.optionId o <> chosen)
          /\ (exists after,
                QuizFlow.options q = (before ++ opt :: after)%list)
          /\ out = QuizFlow.storeResponse index highest rs
                     {| QuizFlow.questionId := QuizFlow.questionKey q;
                        QuizFlow.selectedOption := chosen;
                        QuizFlow.points := QuizFlow.optionPoints opt;
                        QuizFlow.timestamp := now |})
  /\ (QuizFlow.handleQuestionSkip isTransitioning q index highest rs now
      = if isTransitioning then None
        else Some (QuizFlow.storeResponse index highest rs
                     {| QuizFlow.questionId := QuizFlow.questionKey q;
                        QuizFlow.selectedOption := "skip";
                        QuizFlow.points := JObj [];
                        QuizFlow.timestamp := now |})).
Proof.
  unfold QuizFlow.handleAnswerSelect, QuizFlow.handleQuestionSkip.
  destruct isTransitioning.
  - split; [|split].
    + split; auto.
    + discriminate.
    + reflexivity.
  - destruct (find _ (QuizFlow.options q)) as [opt|] eqn:E.
    + split; [|split].
      * split; [discriminate|]. intros [H|H]; [discriminate|].
        apply find_some in E. destruct E as [Hin E].
        apply String.eqb_eq in E. now elim (H opt Hin).
      * intros out [= <-].
        assert (Hsplit : exists before after,
                   QuizFlow.options q = (before ++ opt :: after)%list
                   /\ forall o, In o before -> QuizFlow.optionId o <> chosen).
        { clear - E. induction (QuizFlow.options q) as [|o l IH];
            cbn [find] in E; [discriminate|].
          destruct (QuizFlow.optionId o =? chosen)%string eqn:Eo.
          - injection E as <-. exists [], l. split; [reflexivity|intros ? []].
          - destruct (IH E) as (b & a & -> & Hb).
            exists (o :: b), a. split; [reflexivity|].
            intros x [<-|Hx]; [now apply String.eqb_neq|auto]. }
        destruct Hsplit as (before & after & Heq & Hb).
        apply find_some in E. destruct E as [Hin E].
        apply String.eqb_eq in E.
        exists opt, before. repeat split; eauto.
      * reflexivity.
    + split; [|split].
      * split; auto. intros _. right. intros opt Hin.
        apply String.eqb_neq. apply (find_none _ _ E opt Hin).
      * discriminate.
      * reflexivity.
Qed.

Lemma storeResponse_ids index highest rs r :
  forall key,
    In key (map QuizFlow.questionId (fst (QuizFlow.storeResponse index highest rs r)))
    <-> key = QuizFlow.questionId r \/ In key (map QuizFlow.questionId rs).
Proof.
  intros key.
  destruct (storeResponse_cases index highest rs r)
    as [(before & old & after & -> & Hold & Hb & ->)|(Hnone & ->)];
    cbn [fst]; rewrite !map_app, !in_app_iff; cbn [map In].
  - rewrite Hold. intuition.
  - intuition.
Qed.

Lemma storeResponse_NoDup index highest rs r :
  NoDup (map QuizFlow.questionId rs) ->
  NoDup (map QuizFlow.questionId (fst (QuizFlow.storeResponse index highest rs r))).
Proof.
  intros Hnd.
  destruct (storeResponse_cases index highest rs r)
    as [(before & old & after & -> & Hold & Hb & ->)|(Hnone & ->)];
    cbn [fst].
  - rewrite map_app in Hnd |- *. cbn [map] in Hnd |- *. now rewrite <- Hold.
  - rewrite map_app. cbn [map].
    apply (Permutation_NoDup (Permutation_cons_append _ _)).
    constructor; [|assumption].
    intros Hin. apply in_map_iff in Hin. destruct Hin as (y & Hy & Hin).
    now apply (Hnone y Hin).
Qed.

Lemma handleAnswerSelect_Some q i h rs now chosen out :
  QuizFlow.handleAnswerSelect false q i h rs now chosen = Some out ->
  exists opt,
    In opt (QuizFlow.options q)
    /\ QuizFlow.optionId opt = chosen
    /\ out = QuizFlow.storeResponse i h rs
               {| QuizFlow.questionId := QuizFlow.questionKey q;
                  QuizFlow.selectedOption := chosen;
                  QuizFlow.points := QuizFlow.optionPoints opt;
                  QuizFlow.timestamp := now |}.
Proof.
  unfold QuizFlow.handleAnswerSelect. cbn.
  destruct (find _ (QuizFlow.options q)) as [opt|] eqn:E; [|discriminate].
  intros [= <-]. apply find_some in E. destruct E as [Hin E].
  apply String.eqb_eq in E. exists opt. repeat split; auto.
Qed.

Lemma handle_store rs ev out :
  handle rs ev = Some out ->
  exists r,
    out = QuizFlow.storeResponse
            match ev with Answers _ i _ _ _ | Skips _ i _ _ => i end
            match ev with Answers _ _ h _ _ | Skips _ _ h _ => h end
            rs r
    /\ QuizFlow.questionId r = QuizFlow.questionKey (questionOf ev)
    /\ ((QuizFlow.selectedOption r = "skip" /\ QuizFlow.points r = JObj [])
        \/ exists opt, In opt (QuizFlow.options (questionOf ev))
                       /\ QuizFlow.selectedOption r = QuizFlow.optionId opt
                       /\ QuizFlow.points r = QuizFlow.optionPoints opt).
Proof.
  destruct ev as [q i h now chosen|q i h now]; cbn [handle questionOf].
  - intros H.
    destruct (handleAnswerSelect_Some _ _ _ _ _ _ _ H)
      as (opt & Hin & Hid & ->).
    eexists. split; [reflexivity|]. split; [reflexivity|].
    right. exists opt. cbn. subst chosen. auto.
  - intros [= <-]. eexists. split; [reflexivity|]. split; [reflexivity|].
    left. split; reflexivity.
Qed.

Lemma storeResponse_fst i h i' h' rs r :
  fst (QuizFlow.storeResponse i h rs r) = fst (QuizFlow.storeResponse i' h' rs r).
Proof.
  unfold QuizFlow.storeResponse.
  destruct (QuizFlow.findIndex _ rs); reflexivity.
Qed.

(** X16. The last event on a question wins: answering or skipping a
    question and then answering or skipping the same question again
    leaves the responses that the second event alone would have left. *)
Theorem last_event_wins (rs : list QuizFlow.QuestionResponse)
    (first second : FlowEvent) :
  QuizFlow.questionKey (questionOf first)
  = QuizFlow.questionKey (questionOf second) ->
  handle rs second <> None ->
  record (record rs first) second = record rs second.
Proof.
  intros Hkey Hsecond.
  assert (Hindep : forall l, handle l second <> None).
  { intros l. destruct second as [q i h now chosen|q i h now];
      cbn [handle] in *; [|discriminate].
    unfold QuizFlow.handleAnswerSelect in *. cbn in *.
    destruct (find _ (QuizFlow.options q)); [discriminate|assumption]. }
  assert (Hsame : forall l l' out out',
            handle l second = Some out -> handle l' second = Some out' ->
            exists r i h i' h',
              out = QuizFlow.storeResponse i h l r
              /\ out' = QuizFlow.storeResponse i' h' l' r
              /\ QuizFlow.questionId r = QuizFlow.questionKey (questionOf second)).
  { intros l l' out out'.
    destruct second as [q i h now chosen|q i h now]; cbn [handle questionOf].
    - unfold QuizFlow.handleAnswerSelect. cbn.
      destruct (find _ (QuizFlow.options q)) as [opt|]; [|discriminate].
      intros [= <-] [= <-]. eexists. exists i, h, i, h.
      repeat split; reflexivity.
    - unfold QuizFlow.handleQuestionSkip. cbn.
      intros [= <-] [= <-]. eexists. exists i, h, i, h.
      repeat split; reflexivity. }
  unfold record at 1 3.
  destruct (handle (record rs first) second) as [[rs2 b2]|] eqn:E2;
    [|now elim (Hindep (record rs first))].
  destruct (handle rs second) as [[rs2' b2']|] eqn:E2';
    [|now elim (Hindep rs)].
  destruct (Hsame _ _ _ _ E2 E2') as (r2 & i & h & i' & h' & Ho & Ho' & Hid).
  apply (f_equal fst) in Ho, Ho'. cbn [fst] in Ho, Ho'. subst rs2 rs2'.
  unfold record.
  destruct (handle rs first) as [[rs1 b1]|] eqn:E1;
    [|apply storeResponse_fst].
  destruct (handle_store _ _ _ E1) as (r1 & Ho1 & Hid1 & _).
  apply (f_equal fst) in Ho1. cbn [fst] in Ho1. subst rs1.
  assert (Hids : QuizFlow.questionId r1 = QuizFlow.questionId r2) by congruence.
  clear - Hids.
  generalize (match first with Answers _ i0 _ _ _ | Skips _ i0 _ _ => i0 end).
  generalize (match first with Answers _ _ h0 _ _ | Skips _ _ h0 _ => h0 end).
  intros h1 i1.
  destruct (storeResponse_cases i1 h1 rs r1)
    as [(before & old & after & -> & Hold & Hb & ->)|(Hnone & ->)];
    cbn [fst].
  - destruct (storeResponse_cases i h (before ++ r1 :: after) r2)
      as [(b2 & o2 & a2 & Heq & Ho2 & Hb2 & ->)|(Hn2 & _)].
    2:{ exfalso. apply (Hn2 r1); [|assumption].
        apply in_or_app. right. now left. }
    destruct (storeResponse_cases i' h' (before ++ old :: after) r2)
      as [(b3 & o3 & a3 & Heq3 & Ho3 & Hb3 & ->)|(Hn3 & _)].
    2:{ exfalso. apply (Hn3 old); [|congruence].
        apply in_or_app. right. now left. }
    cbn [fst].
    assert (Hsplit : forall (l1 l2 l1' l2' : list QuizFlow.QuestionResponse) x x',
              (l1 ++ x :: l2 = l1' ++ x' :: l2')%list ->
              (forall y, In y l1 -> QuizFlow.questionId y <> QuizFlow.questionId r2) ->
              (forall y, In y l1' -> QuizFlow.questionId y <> QuizFlow.questionId r2) ->
              QuizFlow.questionId x = QuizFlow.questionId r2 ->
              QuizFlow.questionId x' = QuizFlow.questionId r2 ->
              l1 = l1' /\ l2 = l2').
    { clear. induction l1 as [|a l1 IH]; intros l2 l1' l2' x x' Heq H1 H1' Hx Hx'.
      - destruct l1' as [|a' l1']; cbn in Heq.
        + injection Heq as _ <-. auto.
        + injection Heq as -> _. exfalso.
          apply (H1' a' (or_introl eq_refl)). assumption.
      - destruct l1' as [|a' l1']; cbn in Heq.
        + injection Heq as <- _. exfalso.
          apply (H1 a (or_introl eq_refl)). assumption.
        + injection Heq as <- Heq.
          destruct (IH l2 l1' l2' x x' Heq) as [-> ->]; auto.
          * intros y Hy. apply H1. now right.
          * intros y Hy. apply H1'. now right. }
    assert (Hb' : forall y, In y before ->
                    QuizFlow.questionId y <> QuizFlow.questionId r2).
    { intros y Hy. rewrite <- Hids. now apply Hb. }
    destruct (Hsplit _ _ _ _ _ _ Heq Hb' Hb2 Hids Ho2) as [<- <-].
    destruct (Hsplit before after b3 a3 old o3 Heq3 Hb' Hb3) as [<- <-];
      [congruence|assumption|reflexivity].
  - destruct (storeResponse_cases i h (rs ++ [r1]) r2)
      as [(b2 & o2 & a2 & Heq & Ho2 & Hb2 & ->)|(Hn2 & _)].
    2:{ exfalso. apply (Hn2 r1); [|assumption].
        apply in_or_app. right. now left. }
    destruct (storeResponse_cases i' h' rs r2)
      as [(b3 & o3 & a3 & -> & Ho3 & Hb3 & _)|(Hn3 & ->)].
    { exfalso. apply (Hnone o3); [|congruence].
      apply in_or_app. right. now left. }
    cbn [fst].
    assert (Hlast : b2 = rs /\ a2 = []).
    { clear - Heq Hb2 Ho2 Hnone Hids. revert b2 Heq Hb2.
      induction rs as [|a rs IH]; intros b2 Heq Hb2.
      - destruct b2 as [|c b2]; cbn in Heq.
        + injection Heq as _ <-. auto.
        + injection Heq as <- Hrest. destruct b2; discriminate Hrest.
      - destruct b2 as [|c b2]; cbn in Heq.
        + injection Heq as -> _. exfalso.
          apply (Hnone o2 (or_introl eq_refl)). congruence.
        + injection Heq as <- Heq.
          destruct (IH (fun y Hy => Hnone y (or_intror Hy)) b2 Heq) as [-> ->].
          * intros y Hy. apply Hb2. now right.
          * auto. }
    destruct Hlast as [-> ->]. reflexivity.
Qed.

Lemma last_event_wins_witness :
  let q := {| QuizFlow.questionKey := "q1";
              QuizFlow.options :=
                [{| QuizFlow.optionId := "A";
                    QuizFlow.optionPoints := JObj [("wolf", JNum 3)] |};
                 {| QuizFlow.optionId := "B";
                    QuizFlow.optionPoints := JObj [("fox", JNum 2)] |}] |} in
  record (record [] (Answers q 0 0 1 "A")) (Answers q 0 1 2 "B")
  = record [] (Answers q 0 1 2 "B").
Proof.
  intros q.
  apply (last_event_wins [] (Answers q 0 0 1 "A") (Answers q 0 1 2 "B")).
  - reflexivity.
  - discriminate.
Defined.

(** X17. Whatever the user does, and in whatever order, the recorded
    list holds at most one response for each question, and each response
    belongs to a question that some event showed. *)
Theorem recorded_one_per_question (events : list FlowEvent) :
  NoDup (map QuizFlow.questionId (recorded events))
  /\ forall r, In r (recorded events) ->
       exists ev, In ev events
                  /\ QuizFlow.questionId r = QuizFlow.questionKey (questionOf ev).
Proof.
  unfold recorded.
  assert (Hgen : forall rs,
            NoDup (map QuizFlow.questionId rs) ->
            NoDup (map QuizFlow.questionId (fold_left record events rs))
            /\ forall r, In r (fold_left record events rs) ->
                 In (QuizFlow.questionId r) (map QuizFlow.questionId rs)
                 \/ exists ev, In ev events
                      /\ QuizFlow.questionId r
                         = QuizFlow.questionKey (questionOf ev)).
  { induction events as [|ev events IH]; intros rs Hnd; cbn [fold_left].
    - split; [assumption|]. intros r Hr. left. now apply in_map.
    - assert (Hrec : NoDup (map QuizFlow.questionId (record rs ev))
                     /\ forall key,
                          In key (map QuizFlow.questionId (record rs ev)) ->
                          key = QuizFlow.questionKey (questionOf ev)
                          \/ In key (map QuizFlow.questionId rs)).
      { unfold record. destruct (handle rs ev) as [[rs' b]|] eqn:E; [|auto].
        destruct (handle_store _ _ _ E) as (r & Hout & Hid & _).
        apply (f_equal fst) in Hout. cbn [fst] in Hout. subst rs'.
        split; [now apply storeResponse_NoDup|].
        intros key Hkey. apply storeResponse_ids in Hkey.
        rewrite Hid in Hkey. exact Hkey. }
      destruct Hrec as [Hnd' Hkeys].
      destruct (IH _ Hnd') as [Hn Hall]. split; [assumption|].
      intros r Hr. destruct (Hall r Hr) as [Hin|(ev' & Hev & Heq)].
      + destruct (Hkeys _ Hin) as [Heq|Hold]; [|now left].
        right. exists ev. split; [now left|assumption].
      + right. exists ev'. split; [now right|assumption]. }
  destruct (Hgen [] (NoDup_nil _)) as [Hnd Hall]. split; [assumption|].
  intros r Hr. destruct (Hall r Hr) as [[]|H]. exact H.
Qed.

Lemma responseValue_props r :
  propOf (QuizFlow.responseValue r) "questionId" = JStr (QuizFlow.questionId r)
  /\ propOf (QuizFlow.responseValue r) "selectedOption"
     = JStr (QuizFlow.selectedOption r)
  /\ propOf (QuizFlow.responseValue r) "points" = QuizFlow.points r.
Proof.
  repeat split.
Qed.

Lemma allowedMarkerb_nonEmpty s :
  allowedMarkerb (JStr s) = true -> nonEmptyStringb (JStr s) = true.
Proof.
  cbn [allowedMarkerb nonEmptyStringb]. rewrite existsb_eqb_In.
  intros H. apply negb_true_iff, String.eqb_neq. intros ->.
  cbn in H. intuition discriminate.
Qed.

Lemma wellFormedOption_entry key opt now :
  key <> "" -> wellFormedOption opt ->
  wellFormedEntryb
    (QuizFlow.responseValue
       {| QuizFlow.questionId := key;
          QuizFlow.selectedOption := QuizFlow.optionId opt;
          QuizFlow.points := QuizFlow.optionPoints opt;
          QuizFlow.timestamp := now |}) = true.
Proof.
  intros Hkey (Hm & Hp & Hv). unfold wellFormedEntryb.
  destruct (responseValue_props
              {| QuizFlow.questionId := key;
                 QuizFlow.selectedOption := QuizFlow.optionId opt;
                 QuizFlow.points := QuizFlow.optionPoints opt;
                 QuizFlow.timestamp := now |}) as (-> & -> & ->).
  cbn [QuizFlow.questionId QuizFlow.selectedOption QuizFlow.points].
  apply allowedMarker_iff in Hm. apply isMapping_iff in Hp.
  rewrite Hm, Hp, (allowedMarkerb_nonEmpty _ Hm).
  assert (Hk : nonEmptyStringb (JStr key) = true).
  { cbn. apply negb_true_iff. now apply String.eqb_neq. }
  rewrite Hk. cbn [andb]. apply forallb_forall. intros [animal value] Hin.
  cbn [snd]. specialize (Hv animal value Hin).
  destruct (pointValueOkb value) eqn:E; [reflexivity|].
  elim Hv. now apply negativeOrNonNumeric_iff.
Qed.

Lemma skip_entry key now :
  key <> "" ->
  wellFormedEntryb
    (QuizFlow.responseValue
       {| QuizFlow.questionId := key;
          QuizFlow.selectedOption := "skip";
          QuizFlow.points := JObj [];
          QuizFlow.timestamp := now |}) = true.
Proof.
  intros Hkey. unfold wellFormedEntryb.
  destruct (responseValue_props
              {| QuizFlow.questionId := key;
                 QuizFlow.selectedOption := "skip";
                 QuizFlow.points := JObj [];
                 QuizFlow.timestamp := now |}) as (-> & -> & ->).
  cbn [QuizFlow.questionId QuizFlow.selectedOption QuizFlow.points].
  assert (Hk : nonEmptyStringb (JStr key) = true).
  { cbn. apply negb_true_iff. now apply String.eqb_neq. }
  rewrite Hk. reflexivity.
Qed.

Lemma storeResponse_In index highest rs r x :
  In x (fst (QuizFlow.storeResponse index highest rs r)) -> x = r \/ In x rs.
Proof.
  destruct (storeResponse_cases index highest rs r)
    as [(before & old & after & -> & Hold & Hb & ->)|(Hnone & ->)];
    cbn [fst]; rewrite !in_app_iff; cbn [In]; intuition.
Qed.

Lemma record_wellFormed rs ev :
  wellFormedQuestion (questionOf ev) ->
  (forall r, In r rs -> wellFormedEntryb (QuizFlow.responseValue r) = true) ->
  forall r, In r (record rs ev) ->
            wellFormedEntryb (QuizFlow.responseValue r) = true.
Proof.
  intros [Hkey Hopts] Hrs r. unfold record.
  destruct (handle rs ev) as [[rs' b]|] eqn:E; [|apply Hrs].
  intros Hin.
  destruct ev as [q i h now chosen|q i h now]; cbn [handle questionOf] in *.
  - destruct (handleAnswerSelect_Some _ _ _ _ _ _ _ E) as (opt & Hopt & <- & Hout).
    apply (f_equal fst) in Hout. cbn [fst] in Hout. subst rs'.
    apply storeResponse_In in Hin. destruct Hin as [->|Hin]; [|now apply Hrs].
    apply wellFormedOption_entry; auto.
  - injection E as E. apply (f_equal fst) in E. cbn [fst] in E. subst rs'.
    apply storeResponse_In in Hin. destruct Hin as [->|Hin]; [|now apply Hrs].
    now apply skip_entry.
Qed.

Lemma recorded_wellFormed events :
  (forall ev, In ev events -> wellFormedQuestion (questionOf ev)) ->
  forall r, In r (recorded events) ->
            wellFormedEntryb (QuizFlow.responseValue r) = true.
Proof.
  unfold recorded. intros Hq.
  assert (Hgen : forall rs,
            (forall r, In r rs ->
                       wellFormedEntryb (QuizFlow.responseValue r) = true) ->
            forall r, In r (fold_left record events rs) ->
                      wellFormedEntryb (QuizFlow.responseValue r) = true).
  { induction events as [|ev events IH]; intros rs Hrs; cbn [fold_left].
    - exact Hrs.
    - apply IH.
      + intros ev' Hev'. apply Hq. now right.
      + apply record_wellFormed; [|assumption]. apply Hq. now left. }
  apply Hgen. intros r [].
Qed.

(** X18. When the question data is well formed, the list that the flow
    has recorded, once it is not empty, passes [validateResponses],
    whatever the user did: [calculateQuizResult] can then only fail with
    the no-scores error, and it returns a result exactly when some
    recorded response contributes. *)
Theorem recorded_responses_valid (events : list FlowEvent)
    (config : option ScoringConfig) :
  (forall ev, In ev events -> wellFormedQuestion (questionOf ev)) ->
  recorded events <> [] ->
  let input := JArr (map QuizFlow.responseValue (recorded events)) in
  validateResponses input = Return tt
  /\ (forall e, calculateQuizResult input config = Throw e -> e = ErrNoScores)
  /\ ((exists result, calculateQuizResult input config = Return result) <->
      exists r, In r (recorded events)
                /\ contributes (QuizFlow.responseValue r)).
Proof.
  intros Hq Hne input.
  assert (Hval : validateResponses input = Return tt).
  { apply validateResponses_ok. eexists. split; [reflexivity|]. split.
    - intros Hnil. apply map_eq_nil in Hnil. contradiction.
    - apply forallb_forall. intros v Hv. apply in_map_iff in Hv.
      destruct Hv as (r & <- & Hr). now apply (recorded_wellFormed events). }
  destruct (calculateQuizResult_outcomes_core input config) as (Hret & _ & Hthrow).
  split; [assumption|]. split.
  - intros e He. destruct (Hthrow e He) as [Hbad|(_ & -> & _)]; [|reflexivity].
    rewrite Hval in Hbad. discriminate.
  - rewrite Hret. split.
    + intros (_ & v & Hv & Hc). cbn [input elements] in Hv.
      apply in_map_iff in Hv. destruct Hv as (r & <- & Hr). eauto.
    + intros (r & Hr & Hc). split; [assumption|].
      exists (QuizFlow.responseValue r). split; [|assumption].
      cbn [input elements]. now apply in_map.
Qed.

Lemma recorded_responses_valid_witness :
  let q1 := {| QuizFlow.questionKey := "q1";
               QuizFlow.options :=
                 [{| QuizFlow.optionId := "A";
                     QuizFlow.optionPoints := JObj [("wolf", JNum 3)] |}] |} in
  let q2 := {| QuizFlow.questionKey := "q2";
               QuizFlow.options :=
                 [{| QuizFlow.optionId := "B";
                     QuizFlow.optionPoints := JObj [("fox", JNum 2)] |}] |} in
  let events := [Answers q1 0 0 1 "A"; Skips q2 1 1 2; Answers q1 0 2 3 "Z"] in
  map QuizFlow.selectedOption (recorded events) = ["A"; "skip"]
  /\ validateResponses (JArr (map QuizFlow.responseValue (recorded events)))
     = Return tt.
Proof.
  intros q1 q2 events. split; [reflexivity|].
  assert (Hwf : forall q, In q [q1; q2] -> wellFormedQuestion q).
  { intros q [<-|[<-|[]]]; (split; [discriminate|]);
      intros opt [<-|[]]; (split; [|split]).
    - exists "A". split; [reflexivity|]. simpl. auto.
    - left. eexists. reflexivity.
    - intros animal value [[= <- <-]|[]] Hbad.
      apply negativeOrNonNumeric_iff in Hbad. discriminate Hbad.
    - exists "B". split; [reflexivity|]. simpl. auto.
    - left. eexists. reflexivity.
    - intros animal value [[= <- <-]|[]] Hbad.
      apply negativeOrNonNumeric_iff in Hbad. discriminate Hbad. }
  apply (recorded_responses_valid events None).
  - intros ev [<-|[<-|[<-|[]]]]; apply Hwf; simpl; auto.
  - discriminate.
Defined.

(** X19. The progress display counts as skipped the responses marked
    "skip", and the engine leaves out those marked "skip" or "unknown":
    the answered responses of the engine and the skipped ones of the
    display never exceed the recorded list together, and they make it up
    exactly when no response is marked "unknown". *)
Theorem skipped_and_answered (rs : list QuizFlow.QuestionResponse) :
  (answeredCount (map QuizFlow.responseValue rs) + QuizFlow.skippedQuestions rs
   <= List.length rs)%nat
  /\ ((forall r, In r rs -> QuizFlow.selectedOption r <> "unknown") ->
      (answeredCount (map QuizFlow.responseValue rs)
       + QuizFlow.skippedQuestions rs = List.length rs)%nat).
Proof.
  unfold answeredCount, QuizFlow.skippedQuestions.
  induction rs as [|r rs [IH1 IH2]]; [split; reflexivity|].
  cbn [map filter List.length].
  assert (Hs : skipOrUnknownb (QuizFlow.responseValue r)
               = (QuizFlow.selectedOption r =? "skip")%string
                 || (QuizFlow.selectedOption r =? "unknown")%string)
    by reflexivity.
  rewrite Hs.
  destruct (QuizFlow.selectedOption r =? "skip")%string eqn:E1;
    destruct (QuizFlow.selectedOption r =? "unknown")%string eqn:E2;
    cbn [orb negb List.length]; split; try lia; intros H;
    try (apply String.eqb_eq in E2; now elim (H r (or_introl eq_refl)));
    (rewrite <- IH2; [lia|]; intros x Hx; apply H; now right).
Qed.

Lemma skipped_and_answered_witness :
  let rs := [{| QuizFlow.questionId := "q1"; QuizFlow.selectedOption := "A";
                QuizFlow.points := JObj []; QuizFlow.timestamp := 1 |};
             {| QuizFlow.questionId := "q2"; QuizFlow.selectedOption := "skip";
                QuizFlow.points := JObj []; QuizFlow.timestamp := 2 |}] in
  (answeredCount (map QuizFlow.responseValue rs) + QuizFlow.skippedQuestions rs
   = List.length rs)%nat.
Proof.
  intros rs. apply (skipped_and_answered rs).
  intros r [<-|[<-|[]]]; discriminate.
Defined.


(* ================================================================== *)
(** ** Further properties: a saturated damping factor *)



(* ================================================================== *)
(** ** Further properties: names of inherited properties *)


